(** * The grv config scanner (cmd/grv/config_scan.go)

    A shallow embedding of [ConfigScanner] and of the part of Go's
    [bufio.Reader] it relies on, followed by the properties of [Scan]
    and its sub-scanners.

    Conventions.
    - A [rune] is a code point, a Go [string] the list of its code points.
      The input stream is well-formed UTF-8 and is given as the list of the
      code points it decodes to; [EncodeRune] gives the bytes back where the
      code looks at bytes ([Peek]).
    - Go's [uint] is taken at 64 bits; [++] and [--] wrap around ([wrap]).
    - Every Go method on [*ConfigScanner] becomes a function that takes the
      scanner and returns its results together with the updated scanner.
    - The underlying [io.Reader] never fails: the only error [ReadRune]
      reports is [io.EOF], and it keeps reporting it once the input is used
      up. *)

From Equations Require Import Equations.
From Stdlib Require Import String Ascii ZArith List Bool Lia.
Import ListNotations.
Local Open Scope Z_scope.

(** * The scanner *)

(** ** Runes, bytes and machine integers *)

Definition rune := Z.
Definition byte := Z.
Definition uint := Z.

Definition uint_modulus : Z := 2 ^ 64.
Definition wrap (z : Z) : uint := z mod uint_modulus.
Arguments wrap : simpl never.

Definition rNewline : rune := 10.   (* '\n' *)
Definition rTab : rune := 9.        (* '\t' *)
Definition rQuote : rune := 34.     (* double quote *)
Definition rBang : rune := 33.      (* '!'  *)
Definition rHash : rune := 35.      (* '#'  *)
Definition rDash : rune := 45.      (* '-'  *)
Definition rAt : rune := 64.        (* '@'  *)
Definition rBackslash : rune := 92. (* '\\' *)
Definition rLower_n : rune := 110.  (* 'n'  *)
Definition rLower_t : rune := 116.  (* 't'  *)

(** The code points of an ASCII literal, to write inputs and values. *)
Fixpoint runes (s : string) : list rune :=
  match s with
  | EmptyString => []
  | String a rest => Z.of_N (N_of_ascii a) :: runes rest
  end.

(** [unicode.IsSpace]: the Latin-1 switch, then the White_Space table. *)
Definition MaxLatin1 : Z := 255.

Definition White_Space (r : rune) : bool :=
  ((9 <=? r) && (r <=? 13)) || (r =? 32) || (r =? 133) || (r =? 160)
  || (r =? 5760) || ((8192 <=? r) && (r <=? 8202))
  || ((8232 <=? r) && (r <=? 8233)) || (r =? 8239) || (r =? 8287)
  || (r =? 12288).

Definition IsSpace (r : rune) : bool :=
  if r mod 2 ^ 32 <=? MaxLatin1 then
    (r =? 9) || (r =? 10) || (r =? 11) || (r =? 12) || (r =? 13)
    || (r =? 32) || (r =? 133) || (r =? 160)
  else White_Space r.
Arguments IsSpace : simpl never.

(** [utf8.EncodeRune] on the code points a decoded stream contains. *)
Definition EncodeRune (r : rune) : list byte :=
  if r <? 128 then [r]
  else if r <? 2048 then
    [Z.lor 192 (Z.shiftr r 6); Z.lor 128 (Z.land r 63)]
  else if r <? 65536 then
    [Z.lor 224 (Z.shiftr r 12); Z.lor 128 (Z.land (Z.shiftr r 6) 63);
     Z.lor 128 (Z.land r 63)]
  else
    [Z.lor 240 (Z.shiftr r 18); Z.lor 128 (Z.land (Z.shiftr r 12) 63);
     Z.lor 128 (Z.land (Z.shiftr r 6) 63); Z.lor 128 (Z.land r 63)].

(** ** Errors *)

Inductive error : Type :=
| io_EOF                                        (* io.EOF *)
| bufio_ErrInvalidUnreadRune                    (* bufio.ErrInvalidUnreadRune *)
| errors_New (msg : string)                     (* errors.New(msg) *)
| fmt_Errorf (format : string) (arg : list rune). (* fmt.Errorf(format, arg) *)

Definition is_nil {A : Type} (e : option A) : bool :=
  match e with None => true | Some _ => false end.

(** ** bufio.Reader

    [pending] is what is still to be read.  [lastRune] is the rune
    [UnreadRune] gives back ([lastRuneSize >= 0] in Go), [None] when there
    is nothing to give back.  [Peek] forgets the last rune in Go 1.12 and
    later and leaves it alone before; [peekForgets] selects between the two,
    and nothing proved below depends on its value. *)

Record Reader : Type := {
  pending : list rune;
  lastRune : option rune;
  peekForgets : bool
}.

Definition ReadRune (b : Reader) : (rune * option error) * Reader :=
  match pending b with
  | [] =>
      ((0, Some io_EOF),
       {| pending := []; lastRune := None; peekForgets := peekForgets b |})
  | r :: rest =>
      ((r, None),
       {| pending := rest; lastRune := Some r; peekForgets := peekForgets b |})
  end.

Definition UnreadRune (b : Reader) : option error * Reader :=
  match lastRune b with
  | None => (Some bufio_ErrInvalidUnreadRune, b)
  | Some r =>
      (None,
       {| pending := r :: pending b; lastRune := None;
          peekForgets := peekForgets b |})
  end.

(** [Peek n] for [n] within the buffer size: the next [n] bytes without
    advancing, and [io.EOF] when fewer are left. *)
Definition Peek (b : Reader) (n : nat) : (list byte * option error) * Reader :=
  let b' := {| pending := pending b;
               lastRune := if peekForgets b then None else lastRune b;
               peekForgets := peekForgets b |} in
  let avail := firstn n (flat_map EncodeRune (pending b)) in
  ((avail, if (length avail <? n)%nat then Some io_EOF else None), b').
Arguments Peek : simpl never.

(** ** Tokens *)

Definition ConfigTokenType := uint.

Definition CtkInvalid : ConfigTokenType := Z.shiftl 1 0.
Definition CtkWord : ConfigTokenType := Z.shiftl 1 1.
Definition CtkOption : ConfigTokenType := Z.shiftl 1 2.
Definition CtkWhiteSpace : ConfigTokenType := Z.shiftl 1 3.
Definition CtkComment : ConfigTokenType := Z.shiftl 1 4.
Definition CtkShellCommand : ConfigTokenType := Z.shiftl 1 5.
Definition CtkTerminator : ConfigTokenType := Z.shiftl 1 6.
Definition CtkEOF : ConfigTokenType := Z.shiftl 1 7.
Definition CtkCount : ConfigTokenType := Z.shiftl 1 8.

Record ConfigScannerPos : Type := {
  line : uint;
  col : uint
}.

Record ConfigToken : Type := {
  tokenType : ConfigTokenType;
  value : list rune;
  startPos : ConfigScannerPos;
  endPos : ConfigScannerPos;
  err : option error
}.

Record ConfigScanner : Type := {
  reader : Reader;
  pos : ConfigScannerPos;
  lastCharLineEnd : bool;
  lastLineEndCol : uint
}.

Definition zeroPos : ConfigScannerPos := {| line := 0; col := 0 |}.

Definition with_reader (scanner : ConfigScanner) (b : Reader) : ConfigScanner :=
  {| reader := b; pos := pos scanner;
     lastCharLineEnd := lastCharLineEnd scanner;
     lastLineEndCol := lastLineEndCol scanner |}.

Definition with_startPos (p : ConfigScannerPos) (token : ConfigToken) : ConfigToken :=
  {| tokenType := tokenType token; value := value token;
     startPos := p; endPos := endPos token; err := err token |}.

(** [NewConfigScanner] over a reader that holds [input]. *)
Definition NewConfigScanner (input : list rune) (forgets : bool) : ConfigScanner :=
  {| reader := {| pending := input; lastRune := None; peekForgets := forgets |};
     pos := {| line := 1; col := 0 |};
     lastCharLineEnd := false;
     lastLineEndCol := 0 |}.

(** ** read and unread *)

Definition read (scanner : ConfigScanner) : (rune * bool * option error) * ConfigScanner :=
  let '((char, e), b) := ReadRune (reader scanner) in
  match e with
  | Some io_EOF =>
      ((char, true, None),
       {| reader := b;
          pos := if col (pos scanner) =? 0
                 then {| line := line (pos scanner); col := 1 |}
                 else pos scanner;
          lastCharLineEnd := lastCharLineEnd scanner;
          lastLineEndCol := lastLineEndCol scanner |})
  | None =>
      ((char, false, None),
       if lastCharLineEnd scanner then
         {| reader := b;
            pos := {| line := wrap (line (pos scanner) + 1); col := 1 |};
            lastCharLineEnd := (char =? rNewline);
            lastLineEndCol := col (pos scanner) |}
       else
         {| reader := b;
            pos := {| line := line (pos scanner);
                      col := wrap (col (pos scanner) + 1) |};
            lastCharLineEnd := (char =? rNewline);
            lastLineEndCol := lastLineEndCol scanner |})
  | Some other => ((char, false, Some other), with_reader scanner b)
  end.

Definition unread (scanner : ConfigScanner) : option error * ConfigScanner :=
  match UnreadRune (reader scanner) with
  | (Some e, b) => (Some e, with_reader scanner b)
  | (None, b) =>
      (None,
       if (1 <? line (pos scanner)) && (col (pos scanner) =? 1) then
         {| reader := b;
            pos := {| line := wrap (line (pos scanner) - 1);
                      col := lastLineEndCol scanner |};
            lastCharLineEnd := true;
            lastLineEndCol := lastLineEndCol scanner |}
       else
         {| reader := b;
            pos := {| line := line (pos scanner);
                      col := wrap (col (pos scanner) - 1) |};
            lastCharLineEnd := false;
            lastLineEndCol := lastLineEndCol scanner |})
  end.

(** ** The scanning loops

    Each [for { ... }] of the source reads one rune per iteration and goes
    round again only after a successful read, so it is defined by recursion
    on the number of runes still pending.  A loop ends in [Return] (the Go
    function returns from inside the loop, with a nil token and the error)
    or in [Break] (control leaves the loop with the loop's variables). *)

Inductive LoopExit (A : Type) : Type :=
| Return (e : error) (scanner : ConfigScanner)
| Break (vars : A) (scanner : ConfigScanner).
Arguments Return {A} e scanner.
Arguments Break {A} vars scanner.

Definition inspect {A : Type} (a : A) : {b : A | a = b} := exist _ a eq_refl.

Definition remaining (scanner : ConfigScanner) : nat :=
  length (pending (reader scanner)).

Lemma read_consumes scanner char scanner' :
  read scanner = ((char, false, None), scanner') ->
  pending (reader scanner) = char :: pending (reader scanner').
Proof.
  unfold read, ReadRune.
  destruct (pending (reader scanner)) as [|r rest]; simpl.
  - discriminate.
  - destruct (lastCharLineEnd scanner); intros H; inversion H; reflexivity.
Qed.

Lemma read_remaining scanner char scanner' :
  read scanner = ((char, false, None), scanner') ->
  (remaining scanner' < remaining scanner)%nat.
Proof.
  intros H. unfold remaining. rewrite (read_consumes _ _ _ H). simpl. lia.
Qed.

Equations? scanWhiteSpace_loop (scanner : ConfigScanner) (buffer : list rune)
    (escape : bool) : LoopExit (list rune) by wf (remaining scanner) lt :=
  scanWhiteSpace_loop scanner buffer escape with inspect (read scanner) := {
    | exist _ ((char, eof, Some e), scanner1) _ := Return e scanner1;
    | exist _ ((char, true, None), scanner1) _ := Break buffer scanner1;
    | exist _ ((char, false, None), scanner1) _ :=
        if char =? rBackslash then
          let peeked := Peek (reader scanner1) 1 in
          let nextBytes := fst (fst peeked) in
          let scanner2 := with_reader scanner1 (snd peeked) in
          match snd (fst peeked) with
          | Some e => Return e scanner2
          | None =>
              if (length nextBytes =? 1)%nat && (nth 0 nextBytes 0 =? rNewline)
              then scanWhiteSpace_loop scanner2 buffer true
              else
                match unread scanner2 with
                | (Some e, scanner3) => Return e scanner3
                | (None, scanner3) => Break buffer scanner3
                end
          end
        else if char =? rNewline then
          if negb escape then
            match unread scanner1 with
            | (Some e, scanner2) => Return e scanner2
            | (None, scanner2) => Break buffer scanner2
            end
          else scanWhiteSpace_loop scanner1 buffer false
        else if negb (IsSpace char) then
          match unread scanner1 with
          | (Some e, scanner2) => Return e scanner2
          | (None, scanner2) => Break buffer scanner2
          end
        else scanWhiteSpace_loop scanner1 (buffer ++ [char]) false }.
Proof.
  all: try (eapply read_remaining; eassumption).
  unfold remaining; simpl. eapply read_remaining; eassumption.
Qed.

Equations? scanToEndOfLine_loop (scanner : ConfigScanner) (buffer : list rune)
    : LoopExit (list rune) by wf (remaining scanner) lt :=
  scanToEndOfLine_loop scanner buffer with inspect (read scanner) := {
    | exist _ ((char, eof, Some e), scanner1) _ := Return e scanner1;
    | exist _ ((char, true, None), scanner1) _ := Break buffer scanner1;
    | exist _ ((char, false, None), scanner1) _ :=
        if char =? rNewline then
          match unread scanner1 with
          | (Some e, scanner2) => Return e scanner2
          | (None, scanner2) => Break buffer scanner2
          end
        else scanToEndOfLine_loop scanner1 (buffer ++ [char]) }.
Proof. eapply read_remaining; eassumption. Qed.

Equations? scanWord_loop (scanner : ConfigScanner) (buffer : list rune)
    : LoopExit (list rune) by wf (remaining scanner) lt :=
  scanWord_loop scanner buffer with inspect (read scanner) := {
    | exist _ ((char, eof, Some e), scanner1) _ := Return e scanner1;
    | exist _ ((char, true, None), scanner1) _ := Break buffer scanner1;
    | exist _ ((char, false, None), scanner1) _ :=
        if IsSpace char then
          match unread scanner1 with
          | (Some e, scanner2) => Return e scanner2
          | (None, scanner2) => Break buffer scanner2
          end
        else scanWord_loop scanner1 (buffer ++ [char]) }.
Proof. eapply read_remaining; eassumption. Qed.

(** The loop of [scanStringWord]; it leaves with the buffer and
    [closingQuoteFound]. *)
Equations? scanStringWord_loop (scanner : ConfigScanner) (buffer : list rune)
    (escape : bool) : LoopExit (list rune * bool) by wf (remaining scanner) lt :=
  scanStringWord_loop scanner buffer escape with inspect (read scanner) := {
    | exist _ ((char, eof, Some e), scanner1) _ := Return e scanner1;
    | exist _ ((char, true, None), scanner1) _ := Break (buffer, false) scanner1;
    | exist _ ((char, false, None), scanner1) _ :=
        if char =? rBackslash then
          if negb escape
          then scanStringWord_loop scanner1 (buffer ++ [char]) true
          else scanStringWord_loop scanner1 (buffer ++ [char]) false
        else if char =? rQuote then
          if negb escape
          then Break (buffer ++ [char], true) scanner1
          else scanStringWord_loop scanner1 (buffer ++ [char]) false
        else scanStringWord_loop scanner1 (buffer ++ [char]) false }.
Proof. all: eapply read_remaining; eassumption. Qed.

(** ** The sub-scanners *)

Definition ScanResult : Type := (option ConfigToken * option error) * ConfigScanner.

Definition scanWhiteSpace (scanner : ConfigScanner) : ScanResult :=
  match scanWhiteSpace_loop scanner [] false with
  | Return e scanner' => ((None, Some e), scanner')
  | Break buffer scanner' =>
      ((Some {| tokenType := CtkWhiteSpace; value := buffer;
                startPos := zeroPos; endPos := pos scanner'; err := None |},
        None), scanner')
  end.

Definition scanToEndOfLine (scanner : ConfigScanner) (tokenType : ConfigTokenType)
    : ScanResult :=
  match scanToEndOfLine_loop scanner [] with
  | Return e scanner' => ((None, Some e), scanner')
  | Break buffer scanner' =>
      ((Some {| tokenType := tokenType; value := buffer;
                startPos := zeroPos; endPos := pos scanner'; err := None |},
        None), scanner')
  end.

Definition scanComment (scanner : ConfigScanner) : ScanResult :=
  scanToEndOfLine scanner CtkComment.

Definition scanShellCommand (scanner : ConfigScanner) : ScanResult :=
  scanToEndOfLine scanner CtkShellCommand.

Definition scanWord (scanner : ConfigScanner) : ScanResult :=
  match scanWord_loop scanner [] with
  | Return e scanner' => ((None, Some e), scanner')
  | Break buffer scanner' =>
      ((Some {| tokenType := CtkWord; value := buffer;
                startPos := zeroPos; endPos := pos scanner'; err := None |},
        None), scanner')
  end.

(** [processStringWord] does not touch the scanner. *)
Fixpoint processStringWord_loop (chars buffer : list rune) (escape : bool)
    : list rune :=
  match chars with
  | [] => buffer
  | char :: rest =>
      if escape then
        processStringWord_loop rest
          (buffer ++ [if char =? rLower_n then rNewline
                      else if char =? rLower_t then rTab
                      else char]) false
      else if char =? rBackslash then processStringWord_loop rest buffer true
      else processStringWord_loop rest (buffer ++ [char]) false
  end.

Definition processStringWord (str : list rune) : list rune * option error :=
  let chars := str in
  if (length chars <? 2)%nat
     || negb (nth 0 chars 0 =? rQuote)
     || negb (nth (length chars - 1) chars 0 =? rQuote)
  then (str, Some (fmt_Errorf "Invalid string word: %v" str))
  else
    let chars := skipn 1 (firstn (length chars - 1) chars) in
    (processStringWord_loop chars [] false, None).

Definition scanStringWord (scanner : ConfigScanner) : ScanResult :=
  let '((char, eof, e), scanner1) := read scanner in
  if negb (is_nil e) || eof then ((None, e), scanner1)
  else
    match scanStringWord_loop scanner1 [char] false with
    | Return e' scanner2 => ((None, Some e'), scanner2)
    | Break (buffer, closingQuoteFound) scanner2 =>
        if closingQuoteFound then
          match processStringWord buffer with
          | (_, Some e') => ((None, Some e'), scanner2)
          | (word, None) =>
              ((Some {| tokenType := CtkWord; value := word;
                        startPos := zeroPos; endPos := pos scanner2;
                        err := None |},
                None), scanner2)
          end
        else
          ((Some {| tokenType := CtkInvalid; value := buffer;
                    startPos := zeroPos; endPos := pos scanner2;
                    err := Some (errors_New "Unterminated string") |},
            None), scanner2)
    end.

(** ** Scan *)

Definition after_unread (scanner : ConfigScanner)
    (k : ConfigScanner -> ScanResult) : ScanResult :=
  match unread scanner with
  | (Some e, scanner') => ((None, Some e), scanner')
  | (None, scanner') => k scanner'
  end.

Definition Scan (scanner : ConfigScanner) : ScanResult :=
  let '((char, eof, e), scanner1) := read scanner in
  let startPos' := pos scanner1 in
  let '((token, e'), scanner') :=
    match e with
    | Some _ => ((None, e), scanner1)
    | None =>
        if eof then
          ((Some {| tokenType := CtkEOF; value := [];
                    startPos := zeroPos; endPos := pos scanner1;
                    err := None |}, None), scanner1)
        else if char =? rNewline then
          ((Some {| tokenType := CtkTerminator; value := [char];
                    startPos := zeroPos; endPos := pos scanner1;
                    err := None |}, None), scanner1)
        else if IsSpace char then after_unread scanner1 scanWhiteSpace
        else if char =? rHash then after_unread scanner1 scanComment
        else if (char =? rBang) || (char =? rAt) then
          after_unread scanner1 scanShellCommand
        else if char =? rDash then
          let peeked := Peek (reader scanner1) 1 in
          let nextBytes := fst (fst peeked) in
          let scanner2 := with_reader scanner1 (snd peeked) in
          match snd (fst peeked) with
          | Some e2 => ((None, Some e2), scanner2)
          | None =>
              if (length nextBytes =? 1)%nat && (nth 0 nextBytes 0 =? rDash)
              then
                let '((token, e3), scanner3) := scanWord scanner2 in
                ((match token with
                  | Some tok =>
                      if negb (tokenType tok =? CtkInvalid) then
                        Some {| tokenType := CtkOption;
                                value := rDash :: value tok;
                                startPos := startPos tok; endPos := endPos tok;
                                err := err tok |}
                      else Some tok
                  | None => None
                  end, e3), scanner3)
              else after_unread scanner2 scanWord
          end
        else if char =? rQuote then after_unread scanner1 scanStringWord
        else after_unread scanner1 scanWord
    end in
  ((option_map (with_startPos startPos') token, e'), scanner').

(** ** Comparing and naming tokens *)

(** [==] on Go strings and on positions. *)
Definition string_eqb (a b : list rune) : bool :=
  if list_eq_dec Z.eq_dec a b then true else false.

Definition ConfigScannerPos_eqb (p q : ConfigScannerPos) : bool :=
  (line p =? line q) && (col p =? col q).

(** [Equal].  The receiver is a token, [other] may be [nil].  The method
    [Error] of Go's [error] values is taken as it comes: what is proved of
    [Equal] holds whatever text it returns. *)
Section ErrorMethod.

Variable Error : error -> string.

Definition Equal (token : ConfigToken) (other : option ConfigToken) : bool :=
  match other with
  | None => false
  | Some other =>
      (tokenType token =? tokenType other)
      && string_eqb (value token) (value other)
      && ConfigScannerPos_eqb (startPos token) (startPos other)
      && ConfigScannerPos_eqb (endPos token) (endPos other)
      && match err token, err other with
         | None, None => true
         | Some e1, Some e2 => String.eqb (Error e1) (Error e2)
         | _, _ => false
         end
  end.

End ErrorMethod.

(** [configTokenNames], a Go map: a key it does not hold reads as the empty
    string. *)
Definition configTokenNames : list (ConfigTokenType * string) :=
  [(CtkInvalid, "Invalid"%string);
   (CtkWord, "Word"%string);
   (CtkOption, "Option"%string);
   (CtkWhiteSpace, "White Space"%string);
   (CtkComment, "Comment"%string);
   (CtkShellCommand, "Shell Command"%string);
   (CtkTerminator, "Terminator"%string);
   (CtkEOF, "EOF"%string)].

Fixpoint map_index (m : list (ConfigTokenType * string)) (key : ConfigTokenType)
    : string :=
  match m with
  | [] => EmptyString
  | (k, v) :: rest => if k =? key then v else map_index rest key
  end.

(** [strings.Join]. *)
Definition strings_Join (elems : list string) (sep : string) : string :=
  String.concat sep elems.

(** The loop of [ConfigTokenName], [i] doubling from [CtkInvalid] up to
    [CtkCount]; [fuel] bounds the number of times the condition is tested,
    and [None] says that it ran out. *)
Fixpoint ConfigTokenName_loop (fuel : nat) (i tokenType : ConfigTokenType)
    (tokens : list string) : option (list string) :=
  match fuel with
  | O => None
  | S fuel' =>
      if i <? CtkCount then
        ConfigTokenName_loop fuel' (wrap (Z.shiftl i 1)) tokenType
          (if negb (Z.land i tokenType =? 0)
           then tokens ++ [map_index configTokenNames i]
           else tokens)
      else Some tokens
  end.

Definition ConfigTokenName_fuel : nat := 9.

Definition ConfigTokenName (tokenType : ConfigTokenType) : option string :=
  match ConfigTokenName_loop ConfigTokenName_fuel CtkInvalid tokenType [] with
  | Some tokens => Some (strings_Join tokens " or ")
  | None => None
  end.

(** * The vocabulary of the properties

    What the statements below are written with: the states a scan passes
    through, well-formed positions, the shapes of input a sub-scanner stops
    at, the decoding of a quoted string as the specification words it, and
    the scanners of the examples. *)

(** ** The course of a scan *)

(** The scanner a call of [Scan] leaves behind. *)
Definition after_Scan (scanner : ConfigScanner) : ConfigScanner :=
  snd (Scan scanner).

(** The scanner a loop leaves behind. *)
Definition exit_scanner {A : Type} (x : LoopExit A) : ConfigScanner :=
  match x with
  | Return _ scanner => scanner
  | Break _ scanner => scanner
  end.

(** The scanners that can arise over [input]: the code changes a scanner
    through [read], [unread] and [Peek] only. *)
Inductive reachable (input : list rune) (forgets : bool) : ConfigScanner -> Prop :=
| reach_new : reachable input forgets (NewConfigScanner input forgets)
| reach_read scanner :
    reachable input forgets scanner ->
    reachable input forgets (snd (read scanner))
| reach_unread scanner :
    reachable input forgets scanner ->
    reachable input forgets (snd (unread scanner))
| reach_Peek scanner n :
    reachable input forgets scanner ->
    reachable input forgets
      (with_reader scanner (snd (Peek (reader scanner) n))).

(** ** Positions *)

(** A scanner position as [NewConfigScanner], [read] and [unread] produce
    it while the counters stay below their maximum: lines count from 1, and
    column 0 is the start of line 1 only. *)
Definition pos_ok (scanner : ConfigScanner) : Prop :=
  1 <= line (pos scanner) < uint_modulus - 1
  /\ 0 <= col (pos scanner) < uint_modulus
  /\ (lastCharLineEnd scanner = false ->
      1 < line (pos scanner) -> col (pos scanner) <> 0).

(** One when the last rune can be pushed back without going up a line. *)
Definition pushed_back_slack (scanner : ConfigScanner) : Z :=
  match lastRune (reader scanner) with
  | Some _ =>
      if (1 <? line (pos scanner)) && (col (pos scanner) =? 1) then 0 else 1
  | None => 0
  end.

(** The bounds that keep the counters from wrapping on an input of [N]
    runes: line and column grow by at most one per rune read.  A rune that
    can be pushed back counts as still to be read, unless pushing it back
    goes up a line; then the column to return to is [lastLineEndCol],
    bounded in its turn. *)
Definition counters_ok (N : Z) (scanner : ConfigScanner) : Prop :=
  0 <= N
  /\ 1 <= line (pos scanner)
  /\ 0 <= col (pos scanner)
  /\ (lastCharLineEnd scanner = false ->
      1 < line (pos scanner) -> 1 <= col (pos scanner))
  /\ (lastRune (reader scanner) <> None -> 1 <= col (pos scanner))
  /\ line (pos scanner) + Z.of_nat (remaining scanner)
     + pushed_back_slack scanner <= N + 1
  /\ col (pos scanner) + Z.of_nat (remaining scanner) <= N + 1
  /\ (lastRune (reader scanner) <> None ->
      1 < line (pos scanner) -> col (pos scanner) = 1 ->
      0 <= lastLineEndCol scanner
      /\ lastLineEndCol scanner + Z.of_nat (remaining scanner) <= N).

(** The claim of C2 as the specification states it: the end position of a
    token is the start position of the next one. *)
Definition contiguous_walk : Prop :=
  forall scanner t1 e1 scanner1 t2 e2 scanner2,
    Scan scanner = ((Some t1, e1), scanner1) ->
    Scan scanner1 = ((Some t2, e2), scanner2) ->
    endPos t1 = startPos t2.

(** ** The runes consumed *)

(** The last rune of a run of consumed runes is a newline. *)
Definition ends_with_newline (consumed : list rune) : bool :=
  match rev consumed with
  | [] => false
  | c :: _ => c =? rNewline
  end.

(** Line and column of the last rune of a text, counted on the text: lines
    from 1, the columns of a line from 1, a newline being the last rune of
    its line.  The empty text is at line 1, column 0. *)
Definition walk_step (here : ConfigScannerPos * bool) (c : rune)
  : ConfigScannerPos * bool :=
  ((if snd here
    then {| line := line (fst here) + 1; col := 1 |}
    else {| line := line (fst here); col := col (fst here) + 1 |}),
   c =? rNewline).

Definition walk (consumed : list rune) : ConfigScannerPos * bool :=
  fold_left walk_step consumed ({| line := 1; col := 0 |}, false).

(** A scanner over [input] that has [consumed] behind it: position and
    line-end flag are those of the last rune consumed (or column 1 after a
    read at the end of an empty input), a rune that can be pushed back is
    that rune, and going up a line by pushing it back finds the column
    there in [lastLineEndCol]. *)
Definition tracks (input consumed : list rune) (scanner : ConfigScanner) : Prop :=
  input = consumed ++ pending (reader scanner)
  /\ lastCharLineEnd scanner = ends_with_newline consumed
  /\ (pos scanner = fst (walk consumed)
      \/ (consumed = [] /\ pending (reader scanner) = []
          /\ pos scanner = {| line := 1; col := 1 |}))
  /\ (forall c, lastRune (reader scanner) = Some c ->
      exists before,
        consumed = before ++ [c]
        /\ (ends_with_newline before = true ->
            lastLineEndCol scanner = col (fst (walk before)))).

(** ** Where a token ends *)

Definition not_newline (r : rune) : bool := negb (r =? rNewline).

(** What stops [scanToEndOfLine]: the end of the stream or a newline. *)
Definition at_line_end (rest : list rune) : bool :=
  match rest with
  | [] => true
  | r :: _ => r =? rNewline
  end.

Definition not_space (r : rune) : bool := negb (IsSpace r).

(** What stops [scanWord]: the end of the stream or a space. *)
Definition at_word_end (rest : list rune) : bool :=
  match rest with
  | [] => true
  | r :: _ => IsSpace r
  end.

(** A space that is not the newline. *)
Definition blank (r : rune) : bool := IsSpace r && negb (r =? rNewline).

(** A run of white space as [scanWhiteSpace] takes it in: blanks and
    backslash-newline pairs. *)
Fixpoint is_ws_run (l : list rune) : bool :=
  match l with
  | [] => true
  | c :: r =>
      if c =? rBackslash then
        match r with
        | n :: r' => (n =? rNewline) && is_ws_run r'
        | [] => false
        end
      else blank c && is_ws_run r
  end.

(** The run with its backslash-newline pairs taken out. *)
Fixpoint without_continuations (l : list rune) : list rune :=
  match l with
  | [] => []
  | c :: r =>
      match r with
      | n :: r' =>
          if (c =? rBackslash) && (n =? rNewline)
          then without_continuations r'
          else c :: without_continuations r
      | [] => [c]
      end
  end.

(** What stops [scanWhiteSpace] with a token: the end of the stream, a
    newline, or a rune that is neither a space nor a backslash. *)
Definition at_space_end (rest : list rune) : bool :=
  match rest with
  | [] => true
  | r :: _ => (r =? rNewline) || (negb (IsSpace r) && negb (r =? rBackslash))
  end.

(** ** Quoted strings *)

(** Reading [l] inside a quoted string, the first rune escaped or not:
    [None] when [l] holds an unescaped quote, otherwise whether the rune
    that follows [l] is escaped. *)
Fixpoint escape_after (escape : bool) (l : list rune) : option bool :=
  match l with
  | [] => Some escape
  | c :: r =>
      if escape then escape_after false r
      else if c =? rBackslash then escape_after true r
      else if c =? rQuote then None
      else escape_after false r
  end.

(** The decoding as the specification words it, to compare
    [processStringWord] with: a backslash is dropped and the rune behind it
    stands for a newline ([n]), a tab ([t]) or itself. *)
Definition spec_escaped (c : rune) : rune :=
  if c =? rLower_n then rNewline
  else if c =? rLower_t then rTab
  else c.

Fixpoint spec_unescape (l : list rune) : list rune :=
  match l with
  | [] => []
  | c :: r =>
      if c =? rBackslash then
        match r with
        | [] => []
        | d :: r' => spec_escaped d :: spec_unescape r'
        end
      else c :: spec_unescape r
  end.

(** ** Errors *)

(** The errors of the stream: the end of the stream met by a look-ahead,
    and an [UnreadRune] that the reader refuses. *)
Definition stream_error (e : error) : Prop :=
  e = io_EOF \/ e = bufio_ErrInvalidUnreadRune.

(** ** Examples *)

Definition example_two_lines : ConfigScanner :=
  snd (read (snd (read
    (NewConfigScanner (runes "a" ++ [rNewline] ++ runes "b") true)))).

Definition example_a_b : ConfigScanner := NewConfigScanner (runes "a b") true.

Definition example_a_b_word : ConfigToken :=
  {| tokenType := CtkWord; value := runes "a";
     startPos := {| line := 1; col := 1 |};
     endPos := {| line := 1; col := 1 |}; err := None |}.

Definition example_a_b_space : ConfigToken :=
  {| tokenType := CtkWhiteSpace; value := runes " ";
     startPos := {| line := 1; col := 2 |};
     endPos := {| line := 1; col := 2 |}; err := None |}.

(** A space, a backslash-newline pair and [x]. *)
Definition example_space_continued_x : ConfigScanner :=
  NewConfigScanner [32; rBackslash; rNewline; 120] true.

Definition example_space_continued_x_space : ConfigToken :=
  {| tokenType := CtkWhiteSpace; value := runes " ";
     startPos := {| line := 1; col := 1 |};
     endPos := {| line := 1; col := 3 |}; err := None |}.

Definition example_space_continued_x_word : ConfigToken :=
  {| tokenType := CtkWord; value := runes "x";
     startPos := {| line := 2; col := 1 |};
     endPos := {| line := 2; col := 1 |}; err := None |}.

Definition example_empty : ConfigScanner := NewConfigScanner [] true.

Definition example_comment : ConfigScanner :=
  NewConfigScanner (runes "# comment" ++ [rNewline]) true.

Definition example_verbose : ConfigScanner :=
  NewConfigScanner (runes "--verbose") true.

Definition example_verbose_token : ConfigToken :=
  {| tokenType := CtkOption; value := runes "--verbose";
     startPos := {| line := 1; col := 1 |};
     endPos := {| line := 1; col := 9 |}; err := None |}.

Definition example_continuation : ConfigScanner :=
  after_Scan
    (NewConfigScanner (runes "a \" ++ [rNewline] ++ runes "  b") true).

Definition example_lone_dash : ConfigScanner := NewConfigScanner (runes "-") true.

Definition example_space_backslash : ConfigScanner :=
  NewConfigScanner (runes "  \") true.

Definition example_unterminated : ConfigScanner :=
  NewConfigScanner (rQuote :: runes "abc") true.

Definition example_quoted : ConfigScanner :=
  NewConfigScanner (rQuote :: runes "a\nb" ++ [rQuote]) true.

Definition example_string_loop : ConfigScanner :=
  snd (read (NewConfigScanner (rQuote :: runes "ab" ++ [rQuote]) true)).

(** ** Dispatch *)

(** The runes on which [Scan] does not start a plain word. *)
Definition starts_word (c : rune) : bool :=
  negb (IsSpace c) && negb (c =? rHash) && negb (c =? rBang)
  && negb (c =? rAt) && negb (c =? rDash) && negb (c =? rQuote).

(** The kinds a token can have other than Invalid. *)
Definition valid_kinds : list ConfigTokenType :=
  [CtkWord; CtkOption; CtkWhiteSpace; CtkComment; CtkShellCommand;
   CtkTerminator; CtkEOF].

(** ** What is left to read *)

(** One when the reader holds a rune that [UnreadRune] can give back. *)
Definition pushable (scanner : ConfigScanner) : nat :=
  match lastRune (reader scanner) with
  | Some _ => 1
  | None => 0
  end.

(** ** Order of positions *)

(** [p] is at or before [q]: an earlier line, or the same line and no later
    column. *)
Definition pos_le (p q : ConfigScannerPos) : Prop :=
  line p < line q \/ (line p = line q /\ col p <= col q).

(** ** Examples for the further properties *)

Definition example_word : ConfigScanner :=
  NewConfigScanner (runes "a#b\c d") true.

Definition example_blanks : ConfigScanner :=
  after_Scan (NewConfigScanner (runes "a  " ++ [rTab] ++ runes "b") true).

Definition example_dash_x (forgets : bool) : ConfigScanner :=
  NewConfigScanner (runes "-x y") forgets.

Definition example_space_backslash_x (forgets : bool) : ConfigScanner :=
  NewConfigScanner (runes " \x") forgets.

Definition example_unterminated_token : ConfigToken :=
  {| tokenType := CtkInvalid; value := rQuote :: runes "abc";
     startPos := {| line := 1; col := 1 |};
     endPos := {| line := 1; col := 4 |};
     err := Some (errors_New "Unterminated string") |}.

Definition example_empty_token : ConfigToken :=
  {| tokenType := CtkEOF; value := [];
     startPos := {| line := 1; col := 1 |};
     endPos := {| line := 1; col := 1 |}; err := None |}.

Definition example_continuation_token : ConfigToken :=
  {| tokenType := CtkWhiteSpace; value := runes "   ";
     startPos := {| line := 1; col := 2 |};
     endPos := {| line := 2; col := 2 |}; err := None |}.

Definition example_two_words : ConfigScanner :=
  NewConfigScanner (runes "ab -c") true.

(** ** Names of token types *)

(** The names of the kinds whose bit is set in [tokenType], in the order of
    their bits. *)
Definition names_of (tokenType : ConfigTokenType) : list string :=
  map snd
    (filter (fun kv => negb (Z.land (fst kv) tokenType =? 0)) configTokenNames).

(** ** Examples for Equal *)

(** A reading of [Error] for the examples: the texts of [io.EOF], of
    [bufio.ErrInvalidUnreadRune] and of [errors.New], and the bare format
    for [fmt.Errorf]. *)
Definition example_Error (e : error) : string :=
  match e with
  | io_EOF => "EOF"
  | bufio_ErrInvalidUnreadRune => "bufio: invalid use of UnreadRune"
  | errors_New msg => msg
  | fmt_Errorf format _ => format
  end.

Definition example_token_with (e : error) : ConfigToken :=
  {| tokenType := CtkInvalid; value := rQuote :: runes "abc";
     startPos := {| line := 1; col := 1 |};
     endPos := {| line := 1; col := 4 |};
     err := Some e |}.

(** ** Writing a string literal *)

(** A literal for the text [p]: the text between two quotes, with a
    backslash put before each backslash and each quote. *)
Definition literal_rune (c : rune) : list rune :=
  if (c =? rBackslash) || (c =? rQuote) then [rBackslash; c] else [c].

Definition string_literal (p : list rune) : list rune :=
  rQuote :: flat_map literal_rune p ++ [rQuote].

Definition example_literal : ConfigScanner :=
  NewConfigScanner
    (string_literal (runes "a\b" ++ [rQuote] ++ runes "c") ++ runes " d") true.

(** ** Reading on *)

(** The scanner after [n] calls of [read]. *)
Definition after_reads (n : nat) (scanner : ConfigScanner) : ConfigScanner :=
  Nat.iter n (fun s => snd (read s)) scanner.

(** The number of runes behind the last newline of [a]. *)
Definition since_newline (a : list rune) : nat :=
  fold_left (fun n r => if r =? rNewline then O else S n) a O.

Definition example_three_lines : list rune :=
  runes "ab" ++ [rNewline] ++ [rNewline] ++ runes "cde".

(** ** The pushback *)

(** [unread] is refused: it returns the reader's error and leaves the
    scanner as it is. *)
Definition unread_is_refused (scanner : ConfigScanner) : Prop :=
  unread scanner = (Some bufio_ErrInvalidUnreadRune, scanner).

Definition example_comment_token : ConfigToken :=
  {| tokenType := CtkComment; value := runes "# comment";
     startPos := {| line := 1; col := 1 |};
     endPos := {| line := 1; col := 9 |}; err := None |}.

(** * Properties *)

(** ** One iteration of each loop *)

Lemma scanWhiteSpace_loop_eq scanner buffer escape :
  scanWhiteSpace_loop scanner buffer escape =
  match read scanner with
  | ((_, _, Some e), scanner1) => Return e scanner1
  | ((_, true, None), scanner1) => Break buffer scanner1
  | ((char, false, None), scanner1) =>
      if char =? rBackslash then
        let peeked := Peek (reader scanner1) 1 in
        let nextBytes := fst (fst peeked) in
        let scanner2 := with_reader scanner1 (snd peeked) in
        match snd (fst peeked) with
        | Some e => Return e scanner2
        | None =>
            if (length nextBytes =? 1)%nat && (nth 0 nextBytes 0 =? rNewline)
            then scanWhiteSpace_loop scanner2 buffer true
            else
              match unread scanner2 with
              | (Some e, scanner3) => Return e scanner3
              | (None, scanner3) => Break buffer scanner3
              end
        end
      else if char =? rNewline then
        if negb escape then
          match unread scanner1 with
          | (Some e, scanner2) => Return e scanner2
          | (None, scanner2) => Break buffer scanner2
          end
        else scanWhiteSpace_loop scanner1 buffer false
      else if negb (IsSpace char) then
        match unread scanner1 with
        | (Some e, scanner2) => Return e scanner2
        | (None, scanner2) => Break buffer scanner2
        end
      else scanWhiteSpace_loop scanner1 (buffer ++ [char]) false
  end.
Proof.
  simp scanWhiteSpace_loop.
  destruct (inspect (read scanner)) as [[[[char eof] [e|]] scanner1] E];
    simpl; rewrite E; destruct eof; reflexivity.
Qed.

Lemma scanToEndOfLine_loop_eq scanner buffer :
  scanToEndOfLine_loop scanner buffer =
  match read scanner with
  | ((_, _, Some e), scanner1) => Return e scanner1
  | ((_, true, None), scanner1) => Break buffer scanner1
  | ((char, false, None), scanner1) =>
      if char =? rNewline then
        match unread scanner1 with
        | (Some e, scanner2) => Return e scanner2
        | (None, scanner2) => Break buffer scanner2
        end
      else scanToEndOfLine_loop scanner1 (buffer ++ [char])
  end.
Proof.
  simp scanToEndOfLine_loop.
  destruct (inspect (read scanner)) as [[[[char eof] [e|]] scanner1] E];
    simpl; rewrite E; destruct eof; reflexivity.
Qed.

Lemma scanWord_loop_eq scanner buffer :
  scanWord_loop scanner buffer =
  match read scanner with
  | ((_, _, Some e), scanner1) => Return e scanner1
  | ((_, true, None), scanner1) => Break buffer scanner1
  | ((char, false, None), scanner1) =>
      if IsSpace char then
        match unread scanner1 with
        | (Some e, scanner2) => Return e scanner2
        | (None, scanner2) => Break buffer scanner2
        end
      else scanWord_loop scanner1 (buffer ++ [char])
  end.
Proof.
  simp scanWord_loop.
  destruct (inspect (read scanner)) as [[[[char eof] [e|]] scanner1] E];
    simpl; rewrite E; destruct eof; reflexivity.
Qed.

Lemma scanStringWord_loop_eq scanner buffer escape :
  scanStringWord_loop scanner buffer escape =
  match read scanner with
  | ((_, _, Some e), scanner1) => Return e scanner1
  | ((_, true, None), scanner1) => Break (buffer, false) scanner1
  | ((char, false, None), scanner1) =>
      if char =? rBackslash then
        if negb escape
        then scanStringWord_loop scanner1 (buffer ++ [char]) true
        else scanStringWord_loop scanner1 (buffer ++ [char]) false
      else if char =? rQuote then
        if negb escape
        then Break (buffer ++ [char], true) scanner1
        else scanStringWord_loop scanner1 (buffer ++ [char]) false
      else scanStringWord_loop scanner1 (buffer ++ [char]) false
  end.
Proof.
  simp scanStringWord_loop.
  destruct (inspect (read scanner)) as [[[[char eof] [e|]] scanner1] E];
    simpl; rewrite E; destruct eof; reflexivity.
Qed.

(** ** read and unread on a known input *)

Lemma read_cons scanner char rest :
  pending (reader scanner) = char :: rest ->
  read scanner = ((char, false, None), snd (read scanner))
  /\ pending (reader (snd (read scanner))) = rest
  /\ lastRune (reader (snd (read scanner))) = Some char.
Proof.
  intros H. unfold read, ReadRune. rewrite H. simpl.
  destruct (lastCharLineEnd scanner); simpl; auto.
Qed.

Lemma read_nil scanner :
  pending (reader scanner) = [] ->
  read scanner = ((0, true, None), snd (read scanner))
  /\ pending (reader (snd (read scanner))) = []
  /\ lastRune (reader (snd (read scanner))) = None.
Proof.
  intros H. unfold read, ReadRune. rewrite H. simpl. auto.
Qed.

Lemma unread_last scanner char :
  lastRune (reader scanner) = Some char ->
  unread scanner = (None, snd (unread scanner))
  /\ pending (reader (snd (unread scanner))) = char :: pending (reader scanner)
  /\ lastRune (reader (snd (unread scanner))) = None.
Proof.
  intros H. unfold unread, UnreadRune. rewrite H. simpl.
  destruct ((1 <? line (pos scanner)) && (col (pos scanner) =? 1)); simpl; auto.
Qed.

Lemma wrap_small z : 0 <= z < uint_modulus -> wrap z = z.
Proof. intros H. unfold wrap. apply Z.mod_small. exact H. Qed.

Lemma wrap_inc_dec z : 0 <= z < uint_modulus -> wrap (wrap (z + 1) - 1) = z.
Proof.
  intros H. unfold wrap, uint_modulus in *.
  destruct (Z.eq_dec z (2 ^ 64 - 1)) as [->|N].
  - reflexivity.
  - rewrite (Z.mod_small (z + 1)) by lia.
    replace (z + 1 - 1) with z by lia. apply Z.mod_small; lia.
Qed.

Lemma wrap_inc_one z : 0 <= z < uint_modulus -> wrap (z + 1) = 1 -> z = 0.
Proof.
  intros H. unfold wrap, uint_modulus in *.
  destruct (Z.eq_dec z (2 ^ 64 - 1)) as [->|N].
  - intros E. vm_compute in E. discriminate.
  - rewrite Z.mod_small by lia. lia.
Qed.

(** On a well-formed position [unread] undoes a successful [read]. *)
Lemma unread_inverts_read_at scanner char scanner1 :
  pos_ok scanner ->
  read scanner = ((char, false, None), scanner1) ->
  exists scanner2,
    unread scanner1 = (None, scanner2)
    /\ pos scanner2 = pos scanner
    /\ lastCharLineEnd scanner2 = lastCharLineEnd scanner
    /\ pending (reader scanner2) = pending (reader scanner)
    /\ read scanner2 = ((char, false, None), scanner1).
Proof.
  intros Hok H.
  destruct scanner as [[pd lr pf] [ln cl] lcle llec].
  unfold pos_ok in Hok; cbn [line col pos lastCharLineEnd] in Hok.
  destruct Hok as (Hl & Hc & Hz).
  unfold read, ReadRune in H; simpl in H.
  destruct pd as [|r rest]; [discriminate|].
  destruct lcle; inversion H; subst; clear H;
    unfold unread, UnreadRune, read, ReadRune; simpl.
  - assert (W : wrap (ln + 1) = ln + 1)
      by (apply wrap_small; unfold uint_modulus in *; lia).
    rewrite W.
    replace (1 <? ln + 1) with true by (symmetry; apply Z.ltb_lt; lia).
    simpl. replace (ln + 1 - 1) with ln by lia.
    rewrite (wrap_small ln) by (unfold uint_modulus in *; lia).
    eexists; split; [reflexivity|]. simpl. rewrite W. repeat split.
  - assert (E : (1 <? ln) && (wrap (cl + 1) =? 1) = false).
    { apply andb_false_iff.
      destruct (Z.ltb_spec 1 ln) as [L|L]; [right|left; reflexivity].
      apply Z.eqb_neq. intros W. apply (Hz eq_refl L).
      apply wrap_inc_one; assumption. }
    rewrite E. simpl. rewrite (wrap_inc_dec cl Hc).
    eexists; split; [reflexivity|]. simpl. repeat split.
Qed.

(** ** States a scan passes through *)

Ltac scanner_fields :=
  cbn [reader pos line col lastCharLineEnd lastLineEndCol
       pending lastRune peekForgets fst snd length] in *.

Ltac split_bools :=
  repeat match goal with
  | |- context [Z.ltb ?a ?b] => destruct (Z.ltb_spec a b)
  | |- context [Z.eqb ?a ?b] => destruct (Z.eqb_spec a b)
  | H : context [Z.ltb ?a ?b] |- _ => destruct (Z.ltb_spec a b)
  | H : context [Z.eqb ?a ?b] |- _ => destruct (Z.eqb_spec a b)
  end.

Ltac counters :=
  scanner_fields; split_bools; cbn [andb] in *; scanner_fields;
  repeat split; intros; try lia; try congruence;
  try solve [intuition (try lia; try congruence)].

Lemma NewConfigScanner_counters_ok input forgets :
  counters_ok (Z.of_nat (length input)) (NewConfigScanner input forgets).
Proof.
  unfold counters_ok, NewConfigScanner, remaining, pushed_back_slack.
  counters.
Qed.

Lemma read_counters_ok N scanner :
  N + 2 < uint_modulus ->
  counters_ok N scanner -> counters_ok N (snd (read scanner)).
Proof.
  intros HN.
  destruct scanner as [[pd lr pf] [ln cl] l llec].
  unfold counters_ok, read, ReadRune, remaining, pushed_back_slack.
  scanner_fields.
  intros (H0 & H1 & H2 & H3 & H4 & H5 & H6 & H7).
  destruct pd as [|r rest]; scanner_fields.
  - destruct lr; counters.
  - assert (Wl : wrap (ln + 1) = ln + 1)
      by (apply wrap_small; destruct lr; counters).
    assert (Wc : wrap (cl + 1) = cl + 1)
      by (apply wrap_small; lia).
    destruct l; scanner_fields; rewrite ?Wl, ?Wc; destruct lr; counters.
Qed.

Lemma unread_counters_ok N scanner :
  N + 2 < uint_modulus ->
  counters_ok N scanner -> counters_ok N (snd (unread scanner)).
Proof.
  intros HN.
  destruct scanner as [[pd lr pf] [ln cl] l llec].
  unfold counters_ok, unread, UnreadRune, with_reader, remaining, pushed_back_slack.
  scanner_fields.
  intros (H0 & H1 & H2 & H3 & H4 & H5 & H6 & H7).
  destruct lr as [r|]; scanner_fields; [|counters].
  assert (C1 : 1 <= cl) by (apply H4; congruence).
  destruct (Z.ltb_spec 1 ln) as [L|L]; destruct (Z.eqb_spec cl 1) as [E|E];
    cbn [andb] in *; scanner_fields.
  - destruct (H7 ltac:(congruence) L E) as [B1 B2].
    rewrite (wrap_small (ln - 1)) by lia. counters.
  - rewrite (wrap_small (cl - 1)) by lia. counters.
  - rewrite (wrap_small (cl - 1)) by lia. counters.
  - rewrite (wrap_small (cl - 1)) by lia. counters.
Qed.

Lemma Peek_counters_ok N scanner n :
  counters_ok N scanner ->
  counters_ok N (with_reader scanner (snd (Peek (reader scanner) n))).
Proof.
  destruct scanner as [[pd lr pf] [ln cl] l llec].
  unfold counters_ok, Peek, with_reader, remaining, pushed_back_slack.
  scanner_fields.
  intros (H0 & H1 & H2 & H3 & H4 & H5 & H6 & H7).
  destruct pf; destruct lr; counters.
Qed.

Lemma reachable_counters_ok input forgets scanner :
  Z.of_nat (length input) + 2 < uint_modulus ->
  reachable input forgets scanner ->
  counters_ok (Z.of_nat (length input)) scanner.
Proof.
  intros HN R. induction R.
  - apply NewConfigScanner_counters_ok.
  - apply read_counters_ok; assumption.
  - apply unread_counters_ok; assumption.
  - apply Peek_counters_ok; assumption.
Qed.

Lemma counters_ok_pos_ok N scanner :
  N + 2 < uint_modulus -> counters_ok N scanner -> pos_ok scanner.
Proof.
  unfold counters_ok, pos_ok.
  intros HN (H0 & H1 & H2 & H3 & H4 & H5 & H6 & H7).
  assert (0 <= Z.of_nat (remaining scanner)) by lia.
  assert (0 <= pushed_back_slack scanner)
    by (unfold pushed_back_slack; destruct (lastRune (reader scanner));
        [destruct ((1 <? line (pos scanner)) && (col (pos scanner) =? 1))|]; lia).
  repeat split; try lia. intros A B. specialize (H3 A B). lia.
Qed.

(** A property of scanners that [read], [unread] and [Peek] keep is kept by
    the loops, the sub-scanners and [Scan], which change the scanner through
    these three only. *)
Section Closure.

Variable Inv : ConfigScanner -> Prop.
Hypothesis Inv_read : forall scanner, Inv scanner -> Inv (snd (read scanner)).
Hypothesis Inv_unread :
  forall scanner, Inv scanner -> Inv (snd (unread scanner)).
Hypothesis Inv_Peek :
  forall scanner n,
    Inv scanner -> Inv (with_reader scanner (snd (Peek (reader scanner) n))).

Lemma unread_exit_closed {A : Type} scanner (vars : A) :
  Inv scanner ->
  Inv (exit_scanner
         match unread scanner with
         | (Some e, scanner2) => Return e scanner2
         | (None, scanner2) => Break vars scanner2
         end).
Proof.
  intros H. apply Inv_unread in H.
  destruct (unread scanner) as [[e|] scanner2]; exact H.
Qed.

Lemma read_result scanner :
  read scanner = (fst (read scanner), snd (read scanner)).
Proof. destruct (read scanner); reflexivity. Qed.

Lemma scanWord_loop_closed l :
  forall scanner buffer,
    pending (reader scanner) = l ->
    Inv scanner -> Inv (exit_scanner (scanWord_loop scanner buffer)).
Proof.
  induction l as [|c l IH]; intros scanner buffer Hp H;
    rewrite scanWord_loop_eq; apply Inv_read in H.
  - destruct (read_nil _ Hp) as (R & _). rewrite R. exact H.
  - destruct (read_cons _ _ _ Hp) as (R & P & _). rewrite R.
    destruct (IsSpace c).
    + apply unread_exit_closed. exact H.
    + apply IH; assumption.
Qed.

Lemma scanToEndOfLine_loop_closed l :
  forall scanner buffer,
    pending (reader scanner) = l ->
    Inv scanner -> Inv (exit_scanner (scanToEndOfLine_loop scanner buffer)).
Proof.
  induction l as [|c l IH]; intros scanner buffer Hp H;
    rewrite scanToEndOfLine_loop_eq; apply Inv_read in H.
  - destruct (read_nil _ Hp) as (R & _). rewrite R. exact H.
  - destruct (read_cons _ _ _ Hp) as (R & P & _). rewrite R.
    destruct (c =? rNewline).
    + apply unread_exit_closed. exact H.
    + apply IH; assumption.
Qed.

Lemma scanWhiteSpace_loop_closed l :
  forall scanner buffer escape,
    pending (reader scanner) = l ->
    Inv scanner ->
    Inv (exit_scanner (scanWhiteSpace_loop scanner buffer escape)).
Proof.
  induction l as [|c l IH]; intros scanner buffer escape Hp H;
    rewrite scanWhiteSpace_loop_eq; apply Inv_read in H.
  - destruct (read_nil _ Hp) as (R & _). rewrite R. exact H.
  - destruct (read_cons _ _ _ Hp) as (R & P & _). rewrite R.
    cbv beta iota zeta.
    destruct (c =? rBackslash).
    + pose proof (Inv_Peek _ 1%nat H) as H2.
      destruct (snd (fst (Peek (reader (snd (read scanner))) 1))); [exact H2|].
      destruct ((length (fst (fst (Peek (reader (snd (read scanner))) 1)))
                 =? 1)%nat
                && (nth 0 (fst (fst (Peek (reader (snd (read scanner))) 1))) 0
                    =? rNewline)).
      * apply IH; [exact P|exact H2].
      * apply unread_exit_closed. exact H2.
    + destruct (c =? rNewline).
      * destruct (negb escape).
        -- apply unread_exit_closed. exact H.
        -- apply IH; assumption.
      * destruct (negb (IsSpace c)).
        -- apply unread_exit_closed. exact H.
        -- apply IH; assumption.
Qed.

Lemma scanStringWord_loop_closed l :
  forall scanner buffer escape,
    pending (reader scanner) = l ->
    Inv scanner ->
    Inv (exit_scanner (scanStringWord_loop scanner buffer escape)).
Proof.
  induction l as [|c l IH]; intros scanner buffer escape Hp H;
    rewrite scanStringWord_loop_eq; apply Inv_read in H.
  - destruct (read_nil _ Hp) as (R & _). rewrite R. exact H.
  - destruct (read_cons _ _ _ Hp) as (R & P & _). rewrite R.
    destruct (c =? rBackslash).
    + destruct (negb escape); apply IH; assumption.
    + destruct (c =? rQuote).
      * destruct (negb escape); [exact H|apply IH; assumption].
      * apply IH; assumption.
Qed.

Lemma scanWhiteSpace_closed scanner :
  Inv scanner -> Inv (snd (scanWhiteSpace scanner)).
Proof.
  intros H. unfold scanWhiteSpace.
  pose proof (scanWhiteSpace_loop_closed _ scanner [] false eq_refl H) as E.
  destruct (scanWhiteSpace_loop scanner [] false); exact E.
Qed.

Lemma scanToEndOfLine_closed scanner ty :
  Inv scanner -> Inv (snd (scanToEndOfLine scanner ty)).
Proof.
  intros H. unfold scanToEndOfLine.
  pose proof (scanToEndOfLine_loop_closed _ scanner [] eq_refl H) as E.
  destruct (scanToEndOfLine_loop scanner []); exact E.
Qed.

Lemma scanWord_closed scanner :
  Inv scanner -> Inv (snd (scanWord scanner)).
Proof.
  intros H. unfold scanWord.
  pose proof (scanWord_loop_closed _ scanner [] eq_refl H) as E.
  destruct (scanWord_loop scanner []); exact E.
Qed.

Lemma scanStringWord_closed scanner :
  Inv scanner -> Inv (snd (scanStringWord scanner)).
Proof.
  intros H. unfold scanStringWord. apply Inv_read in H.
  destruct (read scanner) as [[[char eof] e] scanner1]. simpl in H.
  destruct (negb (is_nil e) || eof); [exact H|].
  pose proof (scanStringWord_loop_closed _ scanner1 [char] false eq_refl H) as E.
  destruct (scanStringWord_loop scanner1 [char] false)
    as [e1 s2|[buffer found] s2]; [exact E|].
  destruct found; [|exact E].
  destruct (processStringWord buffer) as [word [e1|]]; exact E.
Qed.

Lemma after_unread_closed scanner k :
  (forall scanner0, Inv scanner0 -> Inv (snd (k scanner0))) ->
  Inv scanner -> Inv (snd (after_unread scanner k)).
Proof.
  intros Hk H. unfold after_unread. apply Inv_unread in H.
  destruct (unread scanner) as [[e|] scanner0]; [exact H|].
  apply Hk. exact H.
Qed.

Lemma Scan_closed scanner : Inv scanner -> Inv (snd (Scan scanner)).
Proof.
  intros H. unfold Scan. apply Inv_read in H.
  destruct (read scanner) as [[[char eof] e] scanner1]. simpl in H.
  cbv beta iota zeta.
  assert (K : forall res : ScanResult,
    Inv (snd res) ->
    Inv (snd (let '(token, e', scanner') := res in
              (option_map (with_startPos (pos scanner1)) token, e', scanner')))).
  { intros [[t e1] s1] Hres. exact Hres. }
  apply K.
  destruct e; [exact H|].
  destruct eof; [exact H|].
  destruct (char =? rNewline); [exact H|].
  destruct (IsSpace char);
    [apply after_unread_closed; [apply scanWhiteSpace_closed|exact H]|].
  destruct (char =? rHash);
    [apply after_unread_closed;
       [intros s0; apply scanToEndOfLine_closed|exact H]|].
  destruct ((char =? rBang) || (char =? rAt));
    [apply after_unread_closed;
       [intros s0; apply scanToEndOfLine_closed|exact H]|].
  destruct (char =? rDash).
  { pose proof (Inv_Peek _ 1%nat H) as H2.
    destruct (snd (fst (Peek (reader scanner1) 1))); [exact H2|].
    destruct ((length (fst (fst (Peek (reader scanner1) 1))) =? 1)%nat
              && (nth 0 (fst (fst (Peek (reader scanner1) 1))) 0 =? rDash)).
    - pose proof (scanWord_closed _ H2) as H3.
      destruct (scanWord (with_reader scanner1 (snd (Peek (reader scanner1) 1))))
        as [[t0 e3] s3]. exact H3.
    - apply after_unread_closed; [apply scanWord_closed|exact H2]. }
  destruct (char =? rQuote);
    [apply after_unread_closed; [apply scanStringWord_closed|exact H]|].
  apply after_unread_closed; [apply scanWord_closed|exact H].
Qed.

End Closure.

Lemma Scan_reachable input forgets scanner :
  reachable input forgets scanner ->
  reachable input forgets (after_Scan scanner).
Proof.
  apply Scan_closed.
  - apply reach_read.
  - apply reach_unread.
  - apply reach_Peek.
Qed.

(** C3.  In every state a scan passes through, on an input short enough
    for the counters not to wrap, [unread] after a successful [read]
    succeeds and puts back the line, the column (the previous line's last
    column when the read had moved to a new line), the line-end flag and
    the rune, so that reading again returns the same rune and leaves the
    scanner exactly as the first read left it. *)
Theorem unread_inverts_read input forgets scanner char scanner1 :
  Z.of_nat (length input) + 2 < uint_modulus ->
  reachable input forgets scanner ->
  read scanner = ((char, false, None), scanner1) ->
  exists scanner2,
    unread scanner1 = (None, scanner2)
    /\ pos scanner2 = pos scanner
    /\ lastCharLineEnd scanner2 = lastCharLineEnd scanner
    /\ pending (reader scanner2) = pending (reader scanner)
    /\ read scanner2 = ((char, false, None), scanner1).
Proof.
  intros HN R. apply unread_inverts_read_at.
  apply (counters_ok_pos_ok _ _ HN).
  apply (reachable_counters_ok input forgets); assumption.
Qed.

Lemma unread_inverts_read_witness :
  exists scanner2,
    unread (snd (read example_two_lines)) = (None, scanner2)
    /\ pos scanner2 = pos example_two_lines
    /\ lastCharLineEnd scanner2 = lastCharLineEnd example_two_lines
    /\ pending (reader scanner2) = pending (reader example_two_lines)
    /\ read scanner2 = ((98, false, None), snd (read example_two_lines)).
Proof.
  apply (unread_inverts_read (runes "a" ++ [rNewline] ++ runes "b") true).
  - reflexivity.
  - apply reach_read, reach_read, reach_new.
  - reflexivity.
Defined.

(** ** What a returned token looks like *)

Lemma scanWhiteSpace_token scanner tok e scanner' :
  scanWhiteSpace scanner = ((Some tok, e), scanner') ->
  tokenType tok = CtkWhiteSpace /\ endPos tok = pos scanner' /\ e = None.
Proof.
  unfold scanWhiteSpace.
  destruct (scanWhiteSpace_loop scanner [] false); intros H; inversion H.
  simpl. auto.
Qed.

Lemma scanToEndOfLine_token scanner ty tok e scanner' :
  scanToEndOfLine scanner ty = ((Some tok, e), scanner') ->
  tokenType tok = ty /\ endPos tok = pos scanner' /\ e = None.
Proof.
  unfold scanToEndOfLine.
  destruct (scanToEndOfLine_loop scanner []); intros H; inversion H.
  simpl. auto.
Qed.

Lemma scanWord_token scanner tok e scanner' :
  scanWord scanner = ((Some tok, e), scanner') ->
  tokenType tok = CtkWord /\ endPos tok = pos scanner' /\ e = None.
Proof.
  unfold scanWord.
  destruct (scanWord_loop scanner []); intros H; inversion H.
  simpl. auto.
Qed.

Lemma scanStringWord_token scanner tok e scanner' :
  scanStringWord scanner = ((Some tok, e), scanner') ->
  (tokenType tok = CtkWord \/ tokenType tok = CtkInvalid)
  /\ endPos tok = pos scanner' /\ e = None.
Proof.
  unfold scanStringWord.
  destruct (read scanner) as [[[char eof] e0] scanner1].
  destruct (negb (is_nil e0) || eof); [intros H; inversion H|].
  destruct (scanStringWord_loop scanner1 [char] false) as [e1 s2|[buffer found] s2];
    [intros H; inversion H|].
  destruct found.
  - destruct (processStringWord buffer) as [word [e1|]]; intros H; inversion H.
    simpl. auto.
  - intros H; inversion H. simpl. auto.
Qed.

Lemma after_unread_token scanner k tok e scanner' :
  after_unread scanner k = ((Some tok, e), scanner') ->
  exists scanner0, k scanner0 = ((Some tok, e), scanner').
Proof.
  unfold after_unread. destruct (unread scanner) as [[e0|] scanner0].
  - intros H; inversion H.
  - intros H. exists scanner0. exact H.
Qed.

Lemma read_no_error scanner char eof e scanner1 :
  read scanner = ((char, eof, e), scanner1) -> e = None.
Proof.
  unfold read, ReadRune. destruct (pending (reader scanner)); simpl.
  - intros H; inversion H; reflexivity.
  - intros H; inversion H; reflexivity.
Qed.

Lemma read_eof_iff scanner :
  snd (fst (fst (read scanner))) = true <-> pending (reader scanner) = [].
Proof.
  unfold read, ReadRune. destruct (pending (reader scanner)); simpl.
  - tauto.
  - split; discriminate.
Qed.

(** Every token [Scan] returns comes with a nil error, starts where the
    first [read] of the call left the scanner and ends where the call leaves
    it; it is the EOF token exactly when that first [read] met the end of
    the stream. *)
Lemma Scan_token scanner tok e scanner' :
  Scan scanner = ((Some tok, e), scanner') ->
  e = None
  /\ startPos tok = pos (snd (read scanner))
  /\ endPos tok = pos scanner'
  /\ (tokenType tok = CtkEOF <-> pending (reader scanner) = []).
Proof.
  unfold Scan. rewrite <- read_eof_iff.
  destruct (read scanner) as [[[char eof] e0] scanner1] eqn:R.
  rewrite (read_no_error _ _ _ _ _ R). cbv beta iota zeta.
  assert (K : forall res : ScanResult,
    (forall t e1 s1, res = ((Some t, e1), s1) ->
       e1 = None /\ endPos t = pos s1 /\ tokenType t <> CtkEOF) ->
    eof = false ->
    (let '(token, e', scanner'0) := res in
     (option_map (with_startPos (pos scanner1)) token, e', scanner'0)) =
      (Some tok, e, scanner') ->
    e = None /\ startPos tok = pos scanner1 /\ endPos tok = pos scanner'
    /\ (tokenType tok = CtkEOF <-> eof = true)).
  { intros [[[t|] e1] s1] Hres Heof H; [|inversion H].
    destruct (Hres _ _ _ eq_refl) as (He & Hp & Hk).
    inversion H; subst. simpl.
    repeat split; auto; try discriminate; intros; contradiction. }
  destruct eof.
  { intros H; inversion H; subst. simpl. repeat split; auto. }
  destruct (char =? rNewline).
  { intros H; inversion H; subst. simpl.
    repeat split; auto; discriminate. }
  destruct (IsSpace char).
  { apply K; [|reflexivity]. intros t e1 s1 H.
    apply after_unread_token in H. destruct H as [s0 H].
    apply scanWhiteSpace_token in H. destruct H as (Hk & Hp & He).
    rewrite Hk. repeat split; auto; discriminate. }
  destruct (char =? rHash).
  { apply K; [|reflexivity]. intros t e1 s1 H.
    apply after_unread_token in H. destruct H as [s0 H].
    apply scanToEndOfLine_token in H. destruct H as (Hk & Hp & He).
    rewrite Hk. repeat split; auto; discriminate. }
  destruct ((char =? rBang) || (char =? rAt)).
  { apply K; [|reflexivity]. intros t e1 s1 H.
    apply after_unread_token in H. destruct H as [s0 H].
    apply scanToEndOfLine_token in H. destruct H as (Hk & Hp & He).
    rewrite Hk. repeat split; auto; discriminate. }
  destruct (char =? rDash).
  { apply K; [|reflexivity]. intros t e1 s1. cbv zeta.
    destruct (snd (fst (Peek (reader scanner1) 1))); [intros H; inversion H|].
    destruct ((length (fst (fst (Peek (reader scanner1) 1))) =? 1)%nat
              && (nth 0 (fst (fst (Peek (reader scanner1) 1))) 0 =? rDash)).
    - destruct (scanWord (with_reader scanner1 (snd (Peek (reader scanner1) 1))))
        as [[[t0|] e3] s3] eqn:W; [|intros H; inversion H].
      apply scanWord_token in W. destruct W as (Hk & Hp & He).
      rewrite Hk. simpl. intros H; inversion H; subst. simpl.
      repeat split; auto; discriminate.
    - intros H. apply after_unread_token in H. destruct H as [s0 H].
      apply scanWord_token in H. destruct H as (Hk & Hp & He).
      rewrite Hk. repeat split; auto; discriminate. }
  destruct (char =? rQuote).
  { apply K; [|reflexivity]. intros t e1 s1 H.
    apply after_unread_token in H. destruct H as [s0 H].
    apply scanStringWord_token in H. destruct H as ([Hk|Hk] & Hp & He);
      rewrite Hk; repeat split; auto; discriminate. }
  apply K; [|reflexivity]. intros t e1 s1 H.
  apply after_unread_token in H. destruct H as [s0 H].
  apply scanWord_token in H. destruct H as (Hk & Hp & He).
  rewrite Hk. repeat split; auto; discriminate.
Qed.

Lemma Scan_at_eof scanner :
  pending (reader scanner) = [] ->
  Scan scanner =
    ((Some {| tokenType := CtkEOF; value := [];
              startPos := pos (snd (read scanner));
              endPos := pos (snd (read scanner)); err := None |}, None),
     snd (read scanner))
  /\ pending (reader (snd (read scanner))) = [].
Proof.
  intros H. destruct (read_nil _ H) as (R & P & _). split; [|exact P].
  unfold Scan. rewrite R. reflexivity.
Qed.

(** ** Successive tokens *)

Lemma example_a_b_first :
  Scan example_a_b = ((Some example_a_b_word, None), after_Scan example_a_b).
Proof. vm_compute. reflexivity. Qed.

Lemma example_a_b_second :
  Scan (after_Scan example_a_b) =
  ((Some example_a_b_space, None), after_Scan (after_Scan example_a_b)).
Proof. vm_compute. reflexivity. Qed.

(** C2 as stated fails: on [a b] the word [a] ends at column 1 and the
    white space that follows starts at column 2.  Positions are those of
    the first and of the last character of a token. *)
Lemma contiguous_walk_counterexample :
  Scan example_a_b = ((Some example_a_b_word, None), after_Scan example_a_b)
  /\ Scan (after_Scan example_a_b) =
     ((Some example_a_b_space, None), after_Scan (after_Scan example_a_b))
  /\ endPos example_a_b_word = {| line := 1; col := 1 |}
  /\ startPos example_a_b_space = {| line := 1; col := 2 |}
  /\ ~ contiguous_walk.
Proof.
  split; [exact example_a_b_first|].
  split; [exact example_a_b_second|].
  split; [reflexivity|]. split; [reflexivity|].
  intros C.
  specialize (C _ _ _ _ _ _ _ example_a_b_first example_a_b_second).
  discriminate C.
Qed.

Lemma ends_with_newline_snoc before c :
  ends_with_newline (before ++ [c]) = (c =? rNewline).
Proof. unfold ends_with_newline. rewrite rev_app_distr. reflexivity. Qed.

Lemma walk_snoc before c :
  walk (before ++ [c]) = walk_step (walk before) c.
Proof. unfold walk. rewrite fold_left_app. reflexivity. Qed.

Lemma walk_flag consumed : snd (walk consumed) = ends_with_newline consumed.
Proof.
  destruct consumed as [|c before] using rev_ind; [reflexivity|].
  rewrite walk_snoc, ends_with_newline_snoc. reflexivity.
Qed.

(** Lines and columns grow by at most one per rune, and column 0 is the
    start of the text. *)
Lemma walk_bounds consumed :
  1 <= line (fst (walk consumed)) <= 1 + Z.of_nat (length consumed)
  /\ 0 <= col (fst (walk consumed)) <= Z.of_nat (length consumed)
  /\ (consumed <> [] -> 1 <= col (fst (walk consumed))).
Proof.
  induction consumed as [|c before IH] using rev_ind.
  - cbv. repeat split; try discriminate; try congruence.
  - rewrite walk_snoc, length_app. unfold walk_step.
    destruct IH as (Hl & Hc & _).
    destruct (snd (walk before)); cbn [fst snd line col length];
      repeat split; try lia.
Qed.

Lemma read_tracks input consumed scanner :
  Z.of_nat (length input) + 2 < uint_modulus ->
  tracks input consumed scanner ->
  exists consumed', tracks input consumed' (snd (read scanner)).
Proof.
  intros Hb (Hi & Hf & Hp & Hl).
  destruct (pending (reader scanner)) as [|c rest] eqn:P.
  - exists consumed.
    destruct (read_nil _ P) as (R & P' & L').
    assert (F : lastCharLineEnd (snd (read scanner)) = lastCharLineEnd scanner)
      by (unfold read, ReadRune; rewrite P; reflexivity).
    assert (Q : pos (snd (read scanner)) =
                if col (pos scanner) =? 0
                then {| line := line (pos scanner); col := 1 |}
                else pos scanner)
      by (unfold read, ReadRune; rewrite P; reflexivity).
    split; [rewrite P'; exact Hi|]. split; [rewrite F; exact Hf|].
    split.
    + rewrite Q. destruct Hp as [Hp|(E & _ & Hp)].
      * destruct (col (pos scanner) =? 0) eqn:C; [|left; exact Hp].
        right. apply Z.eqb_eq in C. rewrite Hp in C.
        destruct consumed as [|c0 l0].
        -- rewrite Hp. auto.
        -- destruct (walk_bounds (c0 :: l0)) as (_ & _ & B).
           assert (c0 :: l0 <> []) by discriminate. specialize (B H). lia.
      * right. rewrite Hp. simpl. auto.
    + intros c Hc. rewrite L' in Hc. discriminate.
  - exists (consumed ++ [c]).
    destruct (read_cons _ _ _ P) as (R & P' & L').
    destruct Hp as [Hp|(_ & E & _)]; [|discriminate].
    pose proof (walk_bounds consumed) as (Bl & Bc & _).
    assert (Len : Z.of_nat (length consumed) + 1 <= Z.of_nat (length input)).
    { rewrite Hi, length_app. simpl. lia. }
    split; [rewrite P', <- app_assoc; exact Hi|].
    assert (S1 : snd (read scanner) =
      if lastCharLineEnd scanner then
        {| reader := reader (snd (read scanner));
           pos := {| line := wrap (line (pos scanner) + 1); col := 1 |};
           lastCharLineEnd := (c =? rNewline);
           lastLineEndCol := col (pos scanner) |}
      else
        {| reader := reader (snd (read scanner));
           pos := {| line := line (pos scanner);
                     col := wrap (col (pos scanner) + 1) |};
           lastCharLineEnd := (c =? rNewline);
           lastLineEndCol := lastLineEndCol scanner |}).
    { unfold read, ReadRune. rewrite P. simpl.
      destruct (lastCharLineEnd scanner); reflexivity. }
    rewrite walk_snoc, ends_with_newline_snoc. unfold walk_step.
    rewrite walk_flag, <- Hf.
    split; [|split].
    + rewrite S1. destruct (lastCharLineEnd scanner); reflexivity.
    + left. rewrite S1. rewrite <- Hp.
      destruct (lastCharLineEnd scanner); cbn [pos fst];
        rewrite wrap_small by (rewrite Hp; lia); reflexivity.
    + intros c' Hc. rewrite L' in Hc. injection Hc as <-.
      exists consumed. split; [reflexivity|].
      intros E. rewrite <- Hf in E. rewrite S1, E. cbn [lastLineEndCol].
      rewrite Hp. reflexivity.
Qed.

Lemma unread_tracks input consumed scanner :
  Z.of_nat (length input) + 2 < uint_modulus ->
  tracks input consumed scanner ->
  exists consumed', tracks input consumed' (snd (unread scanner)).
Proof.
  intros Hb (Hi & Hf & Hp & Hl).
  destruct (lastRune (reader scanner)) as [c|] eqn:L.
  - destruct (Hl c eq_refl) as (before & -> & Hcol).
    exists before.
    destruct (unread_last _ _ L) as (U & PU & _).
    destruct Hp as [Hp|(E & _)]; [|destruct before; discriminate E].
    rewrite walk_snoc in Hp. unfold walk_step in Hp. rewrite walk_flag in Hp.
    cbn [fst] in Hp.
    pose proof (walk_bounds before) as (Bl & Bc & Bn).
    assert (Len : Z.of_nat (length before) + 1 <= Z.of_nat (length input)).
    { rewrite Hi, !length_app. simpl. lia. }
    assert (L' : lastRune (reader (snd (unread scanner))) = None)
      by (unfold unread, UnreadRune; rewrite L;
          destruct ((1 <? line (pos scanner)) && (col (pos scanner) =? 1));
          reflexivity).
    assert (S1 : (pos (snd (unread scanner)),
                  lastCharLineEnd (snd (unread scanner))) =
                 (fst (walk before), ends_with_newline before)).
    { unfold unread, UnreadRune. rewrite L. cbn [snd].
      destruct (ends_with_newline before) eqn:E.
      - rewrite Hp. cbn [line col].
        replace (1 <? line (fst (walk before)) + 1) with true
          by (symmetry; apply Z.ltb_lt; lia).
        cbn [andb Z.eqb Pos.eqb pos lastCharLineEnd].
        rewrite (Hcol eq_refl). cbn [line].
        rewrite wrap_small by lia.
        replace (line (fst (walk before)) + 1 - 1)
          with (line (fst (walk before))) by lia.
        destruct (fst (walk before)); reflexivity.
      - rewrite Hp. cbn [line col].
        replace ((1 <? line (fst (walk before)))
                 && (col (fst (walk before)) + 1 =? 1)) with false.
        + cbn [pos lastCharLineEnd line col].
          rewrite wrap_small by lia.
          replace (col (fst (walk before)) + 1 - 1)
            with (col (fst (walk before))) by lia.
          destruct (fst (walk before)); reflexivity.
        + symmetry. apply andb_false_iff.
          destruct before as [|b0 l0]; [left; reflexivity|].
          right. apply Z.eqb_neq.
          assert (N : b0 :: l0 <> []) by discriminate.
          specialize (Bn N). lia. }
    injection S1 as S1 S2.
    split; [rewrite PU, <- app_assoc in *; exact Hi|].
    split; [exact S2|]. split; [left; exact S1|].
    intros c' Hc. rewrite L' in Hc. discriminate.
  - exists consumed.
    replace (snd (unread scanner)) with scanner;
      [split; [exact Hi|]; split; [exact Hf|]; split; [exact Hp|];
       intros c Hc; rewrite L in Hc; discriminate Hc|].
    unfold unread, UnreadRune. rewrite L. cbn [snd].
    destruct scanner as [[pd lr pf] p l llec]. reflexivity.
Qed.

Lemma Peek_tracks input consumed scanner n :
  tracks input consumed scanner ->
  tracks input consumed (with_reader scanner (snd (Peek (reader scanner) n))).
Proof.
  intros (Hi & Hf & Hp & Hl). unfold Peek, with_reader.
  cbn [snd reader pending lastRune pos lastCharLineEnd lastLineEndCol].
  repeat split; try assumption.
  intros c Hc. apply Hl.
  destruct (peekForgets (reader scanner)); [discriminate|exact Hc].
Qed.

(** Every scanner of a scan has a prefix of the input behind it, and its
    line-end flag tells whether that prefix ends in a newline. *)
Lemma reachable_tracks input forgets scanner :
  Z.of_nat (length input) + 2 < uint_modulus ->
  reachable input forgets scanner ->
  exists consumed, tracks input consumed scanner.
Proof.
  intros Hb R. induction R as [|s R [consumed IH]|s R [consumed IH]
                               |s n R [consumed IH]].
  - exists []. repeat split; [left; reflexivity|].
    intros c Hc. discriminate Hc.
  - exact (read_tracks _ _ _ Hb IH).
  - exact (unread_tracks _ _ _ Hb IH).
  - exists consumed. exact (Peek_tracks _ _ _ n IH).
Qed.

Lemma example_space_continued_x_first :
  Scan example_space_continued_x =
  ((Some example_space_continued_x_space, None),
   after_Scan example_space_continued_x).
Proof. vm_compute. reflexivity. Qed.

Lemma example_space_continued_x_second :
  Scan (after_Scan example_space_continued_x) =
  ((Some example_space_continued_x_word, None),
   after_Scan (after_Scan example_space_continued_x)).
Proof. vm_compute. reflexivity. Qed.

(** C2, amended.  Of two tokens returned by successive calls, the second
    starts one [read] after the end of the first: in the next column, or in
    column 1 of the next line when the last rune consumed was a newline.
    Only the EOF token starts where its predecessor ends (column 0 counted
    as 1).  The runes consumed are the input without what is left to read
    after the first call; the input is short enough for the counters not
    to wrap. *)
Theorem Scan_startPos_after_endPos
  input forgets scanner t1 e1 scanner1 t2 e2 scanner2 :
  Z.of_nat (length input) + 2 < uint_modulus ->
  reachable input forgets scanner ->
  Scan scanner = ((Some t1, e1), scanner1) ->
  Scan scanner1 = ((Some t2, e2), scanner2) ->
  exists consumed,
    input = consumed ++ pending (reader scanner1)
    /\ startPos t2 =
       (if tokenType t2 =? CtkEOF then
          if col (endPos t1) =? 0
          then {| line := line (endPos t1); col := 1 |}
          else endPos t1
        else if ends_with_newline consumed
          then {| line := line (endPos t1) + 1; col := 1 |}
          else {| line := line (endPos t1); col := col (endPos t1) + 1 |})
    /\ (tokenType t2 <> CtkEOF -> startPos t2 <> endPos t1).
Proof.
  intros Hb R H1 H2.
  assert (R1 : reachable input forgets scanner1).
  { replace scanner1 with (after_Scan scanner)
      by (unfold after_Scan; rewrite H1; reflexivity).
    apply Scan_reachable. exact R. }
  destruct (reachable_tracks _ _ _ Hb R1) as (consumed & Hi & Hf & Hp & _).
  exists consumed. split; [exact Hi|].
  apply Scan_token in H1. destruct H1 as (_ & _ & Hend & _).
  apply Scan_token in H2. destruct H2 as (_ & Hstart & _ & Hk).
  rewrite Hstart, Hend. clear Hstart Hend.
  unfold read, ReadRune.
  destruct (pending (reader scanner1)) as [|r rest] eqn:P; simpl.
  - rewrite (proj2 Hk eq_refl). simpl. split; [reflexivity|].
    intros N. contradiction.
  - assert (N : tokenType t2 <> CtkEOF)
      by (intros E; apply Hk in E; discriminate).
    apply Z.eqb_neq in N. rewrite N.
    destruct Hp as [Hp|(_ & E & _)]; [|discriminate].
    pose proof (walk_bounds consumed) as (Bl & Bc & _).
    assert (Len : Z.of_nat (length consumed) + 1 <= Z.of_nat (length input)).
    { rewrite Hi, length_app. simpl. lia. }
    rewrite <- Hf.
    destruct (lastCharLineEnd scanner1); simpl;
      rewrite wrap_small by (rewrite Hp; lia);
      (split; [reflexivity|]); intros _ E.
    + apply (f_equal line) in E. simpl in E. lia.
    + apply (f_equal col) in E. simpl in E. lia.
Qed.

Lemma Scan_startPos_after_endPos_witness :
  exists consumed,
    [32; rBackslash; rNewline; 120] =
      consumed ++ pending (reader (after_Scan example_space_continued_x))
    /\ startPos example_space_continued_x_word =
       (if tokenType example_space_continued_x_word =? CtkEOF then
          if col (endPos example_space_continued_x_space) =? 0
          then {| line := line (endPos example_space_continued_x_space);
                  col := 1 |}
          else endPos example_space_continued_x_space
        else if ends_with_newline consumed
          then {| line := line (endPos example_space_continued_x_space) + 1;
                  col := 1 |}
          else {| line := line (endPos example_space_continued_x_space);
                  col := col (endPos example_space_continued_x_space) + 1 |})
    /\ (tokenType example_space_continued_x_word <> CtkEOF ->
        startPos example_space_continued_x_word <>
        endPos example_space_continued_x_space).
Proof.
  apply (Scan_startPos_after_endPos
           [32; rBackslash; rNewline; 120] true example_space_continued_x
           example_space_continued_x_space None
           (after_Scan example_space_continued_x)
           example_space_continued_x_word None
           (after_Scan (after_Scan example_space_continued_x))).
  - vm_compute. reflexivity.
  - apply reach_new.
  - exact example_space_continued_x_first.
  - exact example_space_continued_x_second.
Defined.

(** ** After the end of the stream *)

(** C7.  Once [Scan] has returned the EOF token, every later call on the
    scanner returns the EOF token and a nil error. *)
Theorem Scan_EOF_again scanner tok e scanner1 :
  Scan scanner = ((Some tok, e), scanner1) ->
  tokenType tok = CtkEOF ->
  forall n : nat,
    exists tokn,
      fst (Scan (Nat.iter n after_Scan scanner1)) = (Some tokn, None)
      /\ tokenType tokn = CtkEOF.
Proof.
  intros H K.
  assert (P : pending (reader scanner1) = []).
  { destruct (Scan_token _ _ _ _ H) as (_ & _ & _ & Hk).
    apply Hk in K. destruct (Scan_at_eof _ K) as (S1 & P1).
    rewrite S1 in H. inversion H; subst. exact P1. }
  clear H K. intros n.
  assert (Q : pending (reader (Nat.iter n after_Scan scanner1)) = []).
  { induction n as [|n IH]; simpl; [exact P|].
    unfold after_Scan at 1.
    destruct (Scan_at_eof _ IH) as (S1 & P1). rewrite S1. exact P1. }
  destruct (Scan_at_eof _ Q) as (S1 & _). rewrite S1.
  eexists. split; reflexivity.
Qed.

Lemma example_empty_first :
  Scan example_empty =
  ((Some {| tokenType := CtkEOF; value := [];
            startPos := {| line := 1; col := 1 |};
            endPos := {| line := 1; col := 1 |}; err := None |}, None),
   after_Scan example_empty).
Proof. vm_compute. reflexivity. Qed.

Lemma Scan_EOF_again_witness :
  exists tokn,
    fst (Scan (Nat.iter 3 after_Scan (after_Scan example_empty))) = (Some tokn, None)
    /\ tokenType tokn = CtkEOF.
Proof.
  exact (Scan_EOF_again _ _ _ _ example_empty_first eq_refl 3%nat).
Defined.

(** ** Comments and shell commands *)

(** Every input splits into a line body and a rest at the line's end. *)
Lemma split_at_line_end l :
  exists body rest,
    l = body ++ rest
    /\ forallb not_newline body = true
    /\ at_line_end rest = true.
Proof.
  induction l as [|c l (body & rest & E & Hb & Hr)].
  - exists [], []. auto.
  - destruct (c =? rNewline) eqn:N.
    + exists [], (c :: l). simpl. auto.
    + exists (c :: body), rest. rewrite E. simpl.
      unfold not_newline at 1. rewrite N. auto.
Qed.

Lemma scanToEndOfLine_loop_spec body :
  forall scanner buffer rest,
    forallb not_newline body = true ->
    at_line_end rest = true ->
    pending (reader scanner) = body ++ rest ->
    exists scanner',
      scanToEndOfLine_loop scanner buffer = Break (buffer ++ body) scanner'
      /\ pending (reader scanner') = rest.
Proof.
  induction body as [|c body IH]; intros scanner buffer rest Hb Hr Hp;
    rewrite scanToEndOfLine_loop_eq; simpl in Hp.
  - rewrite app_nil_r. destruct rest as [|r rest].
    + destruct (read_nil _ Hp) as (R & P & _). rewrite R.
      eexists; split; [reflexivity|exact P].
    + destruct (read_cons _ _ _ Hp) as (R & P & L). rewrite R.
      simpl in Hr. rewrite Hr.
      destruct (unread_last _ _ L) as (U & PU & _). rewrite U.
      eexists; split; [reflexivity|]. rewrite PU, P. reflexivity.
  - destruct (read_cons _ _ _ Hp) as (R & P & L). rewrite R.
    simpl in Hb. apply andb_true_iff in Hb. destruct Hb as [Hc Hb].
    unfold not_newline in Hc. apply negb_true_iff in Hc. rewrite Hc.
    destruct (IH _ (buffer ++ [c]) _ Hb Hr P) as (scanner' & E & P').
    exists scanner'. split; [|exact P'].
    rewrite E, <- app_assoc. reflexivity.
Qed.

Lemma unread_after_read scanner char rest :
  pending (reader scanner) = char :: rest ->
  unread (snd (read scanner)) = (None, snd (unread (snd (read scanner))))
  /\ pending (reader (snd (unread (snd (read scanner))))) = char :: rest.
Proof.
  intros Hp. destruct (read_cons _ _ _ Hp) as (R & P & L).
  destruct (unread_last _ _ L) as (U & PU & _).
  split; [exact U|]. rewrite PU, P. reflexivity.
Qed.

Lemma Scan_terminator scanner rest :
  pending (reader scanner) = rNewline :: rest ->
  exists tok scanner',
    Scan scanner = ((Some tok, None), scanner')
    /\ tokenType tok = CtkTerminator
    /\ value tok = [rNewline]
    /\ err tok = None
    /\ pending (reader scanner') = rest.
Proof.
  intros Hp. destruct (read_cons _ _ _ Hp) as (R & P & L).
  unfold Scan. rewrite R. simpl.
  do 2 eexists. split; [reflexivity|]. simpl. auto.
Qed.

(** C8.  On [#], [!] or [@], [Scan] returns the text up to the next newline
    or the end of the stream, trigger included, as a Comment ([#]) or a
    ShellCommand ([!], [@]); the newline stays in the stream and the next
    call returns it as a Terminator. *)
Theorem Scan_to_end_of_line scanner c body rest :
  c = rHash \/ c = rBang \/ c = rAt ->
  forallb not_newline body = true ->
  at_line_end rest = true ->
  pending (reader scanner) = c :: body ++ rest ->
  exists tok scanner',
    Scan scanner = ((Some tok, None), scanner')
    /\ tokenType tok = (if c =? rHash then CtkComment else CtkShellCommand)
    /\ value tok = c :: body
    /\ err tok = None
    /\ pending (reader scanner') = rest
    /\ (rest <> [] ->
        exists term scanner'',
          Scan scanner' = ((Some term, None), scanner'')
          /\ tokenType term = CtkTerminator
          /\ value term = [rNewline]
          /\ pending (reader scanner'') = tl rest).
Proof.
  intros Hc Hb Hr Hp.
  destruct (read_cons _ _ _ Hp) as (R & _ & _).
  destruct (unread_after_read _ _ _ Hp) as (U & PU).
  assert (Hb' : forallb not_newline (c :: body) = true).
  { simpl. rewrite Hb. destruct Hc as [->|[->| ->]]; reflexivity. }
  assert (Next : rest <> [] ->
    forall scanner', pending (reader scanner') = rest ->
    exists term scanner'',
      Scan scanner' = ((Some term, None), scanner'')
      /\ tokenType term = CtkTerminator
      /\ value term = [rNewline]
      /\ pending (reader scanner'') = tl rest).
  { intros N scanner' P'. destruct rest as [|r rest]; [contradiction|].
    simpl in Hr. apply Z.eqb_eq in Hr. subst r.
    destruct (Scan_terminator _ _ P') as (term & s'' & S & K & V & _ & P'').
    exists term, s''. auto. }
  assert (Sub : forall ty, exists scanner',
    scanToEndOfLine (snd (unread (snd (read scanner)))) ty =
      ((Some {| tokenType := ty; value := c :: body; startPos := zeroPos;
                endPos := pos scanner'; err := None |}, None), scanner')
    /\ pending (reader scanner') = rest).
  { intros ty.
    destruct (scanToEndOfLine_loop_spec (c :: body) _ [] rest Hb' Hr PU)
      as (scanner' & E & P').
    exists scanner'. unfold scanToEndOfLine. rewrite E. auto. }
  unfold Scan. rewrite R. cbv beta iota zeta.
  destruct Hc as [->|[->| ->]]; cbn; unfold after_unread; rewrite U;
    [destruct (Sub CtkComment) as (scanner' & E & P')
    |destruct (Sub CtkShellCommand) as (scanner' & E & P')
    |destruct (Sub CtkShellCommand) as (scanner' & E & P')];
    unfold scanComment, scanShellCommand; rewrite E;
    (do 2 eexists; split; [reflexivity|]); cbn;
    repeat (split; [reflexivity|]); (split; [exact P'|]);
    intros N; exact (Next N _ P').
Qed.

Lemma Scan_to_end_of_line_witness :
  exists tok scanner',
    Scan example_comment = ((Some tok, None), scanner')
    /\ tokenType tok = CtkComment
    /\ value tok = runes "# comment"
    /\ err tok = None
    /\ pending (reader scanner') = [rNewline]
    /\ ([rNewline] <> [] ->
        exists term scanner'',
          Scan scanner' = ((Some term, None), scanner'')
          /\ tokenType term = CtkTerminator
          /\ value term = [rNewline]
          /\ pending (reader scanner'') = []).
Proof.
  apply (Scan_to_end_of_line example_comment rHash (runes " comment") [rNewline]).
  - left; reflexivity.
  - reflexivity.
  - reflexivity.
  - reflexivity.
Defined.

(** ** Words and options *)

(** Every input splits into a word and a rest at the word's end. *)
Lemma split_at_word_end l :
  exists word rest,
    l = word ++ rest
    /\ forallb not_space word = true
    /\ at_word_end rest = true.
Proof.
  induction l as [|c l (word & rest & E & Hw & Hr)].
  - exists [], []. auto.
  - destruct (IsSpace c) eqn:N.
    + exists [], (c :: l). simpl. auto.
    + exists (c :: word), rest. rewrite E. simpl.
      unfold not_space at 1. rewrite N. auto.
Qed.

Lemma scanWord_loop_spec word :
  forall scanner buffer rest,
    forallb not_space word = true ->
    at_word_end rest = true ->
    pending (reader scanner) = word ++ rest ->
    exists scanner',
      scanWord_loop scanner buffer = Break (buffer ++ word) scanner'
      /\ pending (reader scanner') = rest.
Proof.
  induction word as [|c word IH]; intros scanner buffer rest Hw Hr Hp;
    rewrite scanWord_loop_eq; simpl in Hp.
  - rewrite app_nil_r. destruct rest as [|r rest].
    + destruct (read_nil _ Hp) as (R & P & _). rewrite R.
      eexists; split; [reflexivity|exact P].
    + destruct (read_cons _ _ _ Hp) as (R & P & L). rewrite R.
      simpl in Hr. rewrite Hr.
      destruct (unread_last _ _ L) as (U & PU & _). rewrite U.
      eexists; split; [reflexivity|]. rewrite PU, P. reflexivity.
  - destruct (read_cons _ _ _ Hp) as (R & P & L). rewrite R.
    simpl in Hw. apply andb_true_iff in Hw. destruct Hw as [Hc Hw].
    unfold not_space in Hc. apply negb_true_iff in Hc. rewrite Hc.
    destruct (IH _ (buffer ++ [c]) _ Hw Hr P) as (scanner' & E & P').
    exists scanner'. split; [|exact P'].
    rewrite E, <- app_assoc. reflexivity.
Qed.

Lemma Peek_ascii b c rest :
  0 <= c < 128 ->
  pending b = c :: rest ->
  fst (Peek b 1) = ([c], None).
Proof.
  intros Hc Hp. unfold Peek. rewrite Hp. simpl. unfold EncodeRune.
  replace (c <? 128) with true by (symmetry; apply Z.ltb_lt; lia).
  reflexivity.
Qed.

Lemma Peek_eof b :
  pending b = [] ->
  fst (Peek b 1) = ([], Some io_EOF).
Proof. intros Hp. unfold Peek. rewrite Hp. reflexivity. Qed.

(** A single dash is pushed back after the look-ahead.  Where [Peek]
    forgets the last rune (Go 1.12 and later) the reader refuses, and [Scan]
    returns the reader's error; where it does not, the dash starts a
    word. *)
Example Scan_single_dash_Peek_forgets :
  fst (Scan (NewConfigScanner (runes "-x") true)) =
  (None, Some bufio_ErrInvalidUnreadRune).
Proof. vm_compute. reflexivity. Qed.

Example Scan_single_dash_Peek_keeps :
  fst (Scan (NewConfigScanner (runes "-x") false)) =
  (Some {| tokenType := CtkWord; value := runes "-x";
           startPos := {| line := 1; col := 1 |};
           endPos := {| line := 1; col := 2 |}; err := None |}, None).
Proof. vm_compute. reflexivity. Qed.

(** C1 as stated fails on its own example: the value scanned from
    [--verbose] is [--verbose], not [-verbose]. *)
Lemma option_value_counterexample :
  Scan example_verbose =
    ((Some example_verbose_token, None), after_Scan example_verbose)
  /\ value example_verbose_token = runes "--verbose"
  /\ value example_verbose_token <> runes "-verbose".
Proof.
  split; [vm_compute; reflexivity|]. split; [reflexivity|]. discriminate.
Qed.

(** C1, amended.  A source form that begins with two dashes is returned as
    one Option token whose value is the source text up to the next space or
    the end of the stream, both dashes included; when the stream ends there,
    the next token is EOF. *)
Theorem Scan_option scanner word rest :
  forallb not_space word = true ->
  at_word_end rest = true ->
  pending (reader scanner) = rDash :: rDash :: word ++ rest ->
  exists tok scanner',
    Scan scanner = ((Some tok, None), scanner')
    /\ tokenType tok = CtkOption
    /\ value tok = rDash :: rDash :: word
    /\ err tok = None
    /\ pending (reader scanner') = rest
    /\ (rest = [] ->
        exists eof, fst (Scan scanner') = (Some eof, None)
                    /\ tokenType eof = CtkEOF).
Proof.
  intros Hw Hr Hp.
  destruct (read_cons _ _ _ Hp) as (R & P & _).
  set (scanner1 := snd (read scanner)) in *.
  assert (Pk : fst (Peek (reader scanner1) 1) = ([rDash], None))
    by (apply (Peek_ascii _ rDash (word ++ rest)); [unfold rDash; lia|exact P]).
  assert (Hw' : forallb not_space (rDash :: word) = true)
    by (simpl; rewrite Hw; reflexivity).
  destruct (scanWord_loop_spec (rDash :: word)
              (with_reader scanner1 (snd (Peek (reader scanner1) 1)))
              [] rest Hw' Hr P) as (scanner' & E & P').
  unfold Scan at 1. rewrite R. cbv beta iota zeta. rewrite Pk.
  cbn. unfold scanWord. rewrite E. cbn.
  exists {| tokenType := CtkOption; value := rDash :: rDash :: word;
            startPos := pos scanner1; endPos := pos scanner'; err := None |},
         scanner'.
  split; [reflexivity|].
  repeat (split; [reflexivity|]). split; [exact P'|].
  intros ->. destruct (Scan_at_eof _ P') as (S & _). rewrite S.
  eexists. split; reflexivity.
Qed.

Lemma Scan_option_witness :
  exists tok scanner',
    Scan example_verbose = ((Some tok, None), scanner')
    /\ tokenType tok = CtkOption
    /\ value tok = runes "--verbose"
    /\ err tok = None
    /\ pending (reader scanner') = []
    /\ (@nil rune = [] ->
        exists eof, fst (Scan scanner') = (Some eof, None)
                    /\ tokenType eof = CtkEOF).
Proof.
  apply (Scan_option example_verbose (runes "verbose") []); reflexivity.
Defined.

(** ** White space *)

Lemma blank_not_backslash c : blank c = true -> (c =? rBackslash) = false.
Proof.
  intros H. destruct (c =? rBackslash) eqn:E; [|reflexivity].
  apply Z.eqb_eq in E. subst c. vm_compute in H. discriminate.
Qed.

Lemma blank_cases c :
  blank c = true -> IsSpace c = true /\ (c =? rNewline) = false.
Proof.
  unfold blank. intros H. apply andb_true_iff in H. destruct H as [H1 H2].
  apply negb_true_iff in H2. auto.
Qed.

Lemma ws_run_ind (P : list rune -> Prop) :
  P [] ->
  (forall c r, blank c = true -> is_ws_run r = true -> P r -> P (c :: r)) ->
  (forall r, is_ws_run r = true -> P r -> P (rBackslash :: rNewline :: r)) ->
  forall run, is_ws_run run = true -> P run.
Proof.
  intros Hnil Hblank Hpair.
  assert (G : forall n run, (length run <= n)%nat -> is_ws_run run = true -> P run).
  { induction n as [|n IH]; intros run Hl Hr.
    - destruct run; [exact Hnil|simpl in Hl; lia].
    - destruct run as [|c r]; [exact Hnil|].
      simpl in Hr. destruct (c =? rBackslash) eqn:E.
      + apply Z.eqb_eq in E. subst c.
        destruct r as [|m r']; [discriminate|].
        apply andb_true_iff in Hr. destruct Hr as [Hm Hr].
        apply Z.eqb_eq in Hm. subst m.
        apply Hpair; [exact Hr|]. apply IH; [simpl in Hl; lia|exact Hr].
      + apply andb_true_iff in Hr. destruct Hr as [Hc Hr].
        apply Hblank; [exact Hc|exact Hr|].
        apply IH; [simpl in Hl; lia|exact Hr]. }
  intros run. apply (G (length run)). lia.
Qed.

Lemma without_continuations_blank c r :
  blank c = true ->
  without_continuations (c :: r) = c :: without_continuations r.
Proof.
  intros H. simpl. rewrite (blank_not_backslash _ H).
  destruct r; reflexivity.
Qed.

Lemma without_continuations_only_blanks run :
  is_ws_run run = true -> forallb blank (without_continuations run) = true.
Proof.
  revert run. apply ws_run_ind.
  - reflexivity.
  - intros c r Hc _ IH. rewrite (without_continuations_blank _ _ Hc).
    simpl. rewrite Hc, IH. reflexivity.
  - intros r _ IH. exact IH.
Qed.

(** A run is consumed within one token: the loop goes on behind it with the
    blanks of the run added to the buffer and nothing else. *)
Lemma scanWhiteSpace_loop_run run :
  is_ws_run run = true ->
  forall scanner buffer rest,
    pending (reader scanner) = run ++ rest ->
    exists scanner',
      pending (reader scanner') = rest
      /\ scanWhiteSpace_loop scanner buffer false =
         scanWhiteSpace_loop scanner' (buffer ++ without_continuations run) false.
Proof.
  revert run.
  apply (ws_run_ind (fun run =>
    forall scanner buffer rest,
      pending (reader scanner) = run ++ rest ->
      exists scanner',
        pending (reader scanner') = rest
        /\ scanWhiteSpace_loop scanner buffer false =
           scanWhiteSpace_loop scanner'
             (buffer ++ without_continuations run) false)).
  - intros scanner buffer rest Hp. exists scanner.
    simpl. rewrite app_nil_r. auto.
  - intros c r Hc _ IH scanner buffer rest Hp. simpl in Hp.
    destruct (read_cons _ _ _ Hp) as (R & P & _).
    destruct (IH _ (buffer ++ [c]) _ P) as (scanner' & P' & E).
    exists scanner'. split; [exact P'|].
    rewrite scanWhiteSpace_loop_eq, R.
    rewrite (blank_not_backslash _ Hc).
    destruct (blank_cases _ Hc) as [Hs Hn]. rewrite Hn, Hs.
    cbv beta iota delta [negb].
    rewrite E, (without_continuations_blank _ _ Hc), <- app_assoc.
    reflexivity.
  - intros r _ IH scanner buffer rest Hp. simpl in Hp.
    destruct (read_cons _ _ _ Hp) as (R & P & _).
    set (scanner1 := snd (read scanner)) in *.
    set (scanner2 := with_reader scanner1 (snd (Peek (reader scanner1) 1))).
    assert (Pk : fst (Peek (reader scanner1) 1) = ([rNewline], None))
      by (apply (Peek_ascii _ rNewline (r ++ rest));
          [unfold rNewline; lia|exact P]).
    assert (P2 : pending (reader scanner2) = rNewline :: r ++ rest) by exact P.
    destruct (read_cons _ _ _ P2) as (R2 & P3 & _).
    destruct (IH _ buffer _ P3) as (scanner' & P' & E).
    exists scanner'. split; [exact P'|].
    rewrite scanWhiteSpace_loop_eq, R. cbv beta iota zeta. rewrite Pk.
    cbn. fold scanner2.
    rewrite scanWhiteSpace_loop_eq, R2. cbn.
    exact E.
Qed.

Lemma scanWhiteSpace_loop_end scanner buffer rest :
  at_space_end rest = true ->
  pending (reader scanner) = rest ->
  exists scanner',
    scanWhiteSpace_loop scanner buffer false = Break buffer scanner'
    /\ pending (reader scanner') = rest.
Proof.
  intros Hr Hp. rewrite scanWhiteSpace_loop_eq.
  destruct rest as [|r rest].
  - destruct (read_nil _ Hp) as (R & P & _). rewrite R.
    eexists; split; [reflexivity|exact P].
  - destruct (read_cons _ _ _ Hp) as (R & P & L). rewrite R.
    destruct (unread_last _ _ L) as (U & PU & _). rewrite P in PU.
    simpl in Hr. destruct (r =? rNewline) eqn:N.
    + apply Z.eqb_eq in N. subst r. cbn. rewrite U.
      eexists; split; [reflexivity|exact PU].
    + simpl in Hr. apply andb_true_iff in Hr. destruct Hr as [Hs Hb].
      apply negb_true_iff in Hb. rewrite Hb, Hs. cbn. rewrite U.
      eexists; split; [reflexivity|exact PU].
Qed.

Lemma scanWhiteSpace_loop_last_backslash scanner buffer escape :
  pending (reader scanner) = [rBackslash] ->
  exists scanner',
    scanWhiteSpace_loop scanner buffer escape = Return io_EOF scanner'.
Proof.
  intros Hp. destruct (read_cons _ _ _ Hp) as (R & P & _).
  rewrite scanWhiteSpace_loop_eq, R. cbv beta iota zeta.
  rewrite (Peek_eof _ P). cbn. eexists; reflexivity.
Qed.

Lemma Scan_blank scanner c tail :
  blank c = true ->
  pending (reader scanner) = c :: tail ->
  Scan scanner =
    (let '((token, e), scanner') :=
       scanWhiteSpace (snd (unread (snd (read scanner)))) in
     ((option_map (with_startPos (pos (snd (read scanner)))) token, e), scanner'))
  /\ pending (reader (snd (unread (snd (read scanner))))) = c :: tail.
Proof.
  intros Hc Hp.
  destruct (read_cons _ _ _ Hp) as (R & _ & _).
  destruct (unread_after_read _ _ _ Hp) as (U & PU).
  split; [|exact PU].
  destruct (blank_cases _ Hc) as [Hs Hn].
  unfold Scan. rewrite R. cbv beta iota zeta. rewrite Hn, Hs.
  unfold after_unread. rewrite U. reflexivity.
Qed.

(** C6.  A backslash directly followed by a newline inside a run of white
    space is consumed with the newline, neither reaches the value, and the
    blanks behind the pair are added to the same WhiteSpace token. *)
Theorem Scan_whitespace_continuation scanner c before behind rest :
  blank c = true ->
  is_ws_run before = true ->
  is_ws_run behind = true ->
  at_space_end rest = true ->
  pending (reader scanner) =
    c :: before ++ rBackslash :: rNewline :: behind ++ rest ->
  exists tok scanner',
    Scan scanner = ((Some tok, None), scanner')
    /\ tokenType tok = CtkWhiteSpace
    /\ value tok =
         c :: without_continuations before ++ without_continuations behind
    /\ forallb blank (value tok) = true
    /\ err tok = None
    /\ pending (reader scanner') = rest.
Proof.
  intros Hc Hb Ha Hr Hp.
  destruct (Scan_blank _ _ _ Hc Hp) as (S & P0).
  set (scanner0 := snd (unread (snd (read scanner)))) in *.
  assert (H1 : is_ws_run (c :: before) = true)
    by (simpl; rewrite (blank_not_backslash _ Hc), Hc, Hb; reflexivity).
  destruct (scanWhiteSpace_loop_run _ H1 scanner0 []
              (rBackslash :: rNewline :: behind ++ rest) P0)
    as (scanner1 & P1 & E1).
  destruct (scanWhiteSpace_loop_run [rBackslash; rNewline] eq_refl scanner1
              ([] ++ without_continuations (c :: before)) (behind ++ rest) P1)
    as (scanner2 & P2 & E2).
  destruct (scanWhiteSpace_loop_run _ Ha scanner2
              (([] ++ without_continuations (c :: before))
               ++ without_continuations [rBackslash; rNewline]) rest P2)
    as (scanner3 & P3 & E3).
  destruct (scanWhiteSpace_loop_end scanner3
              ((([] ++ without_continuations (c :: before))
                ++ without_continuations [rBackslash; rNewline])
               ++ without_continuations behind) rest Hr P3)
    as (scanner' & E & P').
  assert (V : (([] ++ without_continuations (c :: before))
               ++ without_continuations [rBackslash; rNewline])
              ++ without_continuations behind =
              c :: without_continuations before ++ without_continuations behind).
  { rewrite (without_continuations_blank _ _ Hc).
    change (without_continuations [rBackslash; rNewline]) with (@nil rune).
    rewrite app_nil_r. reflexivity. }
  rewrite V in E, E3.
  rewrite S. unfold scanWhiteSpace. rewrite E1, E2, E3, E.
  do 2 eexists. split; [reflexivity|]. cbn.
  repeat (split; [reflexivity|]). split; [|split; [reflexivity|exact P']].
  rewrite Hc. rewrite forallb_app.
  rewrite (without_continuations_only_blanks _ Hb).
  rewrite (without_continuations_only_blanks _ Ha). reflexivity.
Qed.

Lemma Scan_whitespace_continuation_witness :
  exists tok scanner',
    Scan example_continuation = ((Some tok, None), scanner')
    /\ tokenType tok = CtkWhiteSpace
    /\ value tok = runes "   "
    /\ forallb blank (value tok) = true
    /\ err tok = None
    /\ pending (reader scanner') = runes "b".
Proof.
  apply (Scan_whitespace_continuation example_continuation
           32 [] (runes "  ") (runes "b")).
  - reflexivity.
  - reflexivity.
  - reflexivity.
  - reflexivity.
  - vm_compute. reflexivity.
Defined.

(** C9.  When the stream ends right after the [-] that [Scan] dispatches
    on, or right after a backslash met in a run of white space, the
    look-ahead fails and [Scan] returns [io.EOF] as its error, with no
    token. *)
Theorem Scan_lookahead_at_end scanner :
  (pending (reader scanner) = [rDash] ->
   exists scanner', Scan scanner = ((None, Some io_EOF), scanner'))
  /\ (forall c run,
        blank c = true ->
        is_ws_run run = true ->
        pending (reader scanner) = c :: run ++ [rBackslash] ->
        exists scanner', Scan scanner = ((None, Some io_EOF), scanner')).
Proof.
  split.
  - intros Hp. destruct (read_cons _ _ _ Hp) as (R & P & _).
    unfold Scan. rewrite R. cbv beta iota zeta.
    rewrite (Peek_eof _ P). cbn. eexists; reflexivity.
  - intros c run Hc Hrun Hp.
    destruct (Scan_blank _ _ _ Hc Hp) as (S & P0).
    set (scanner0 := snd (unread (snd (read scanner)))) in *.
    assert (H1 : is_ws_run (c :: run) = true)
      by (simpl; rewrite (blank_not_backslash _ Hc), Hc, Hrun; reflexivity).
    destruct (scanWhiteSpace_loop_run _ H1 scanner0 [] [rBackslash] P0)
      as (scanner1 & P1 & E1).
    destruct (scanWhiteSpace_loop_last_backslash scanner1
                ([] ++ without_continuations (c :: run)) false P1)
      as (scanner' & E).
    rewrite S. unfold scanWhiteSpace. rewrite E1, E.
    eexists; reflexivity.
Qed.

Lemma Scan_lookahead_at_end_witness :
  (exists scanner', Scan example_lone_dash = ((None, Some io_EOF), scanner'))
  /\ (exists scanner',
        Scan example_space_backslash = ((None, Some io_EOF), scanner')).
Proof.
  split.
  - apply (proj1 (Scan_lookahead_at_end example_lone_dash)). reflexivity.
  - apply (proj2 (Scan_lookahead_at_end example_space_backslash) 32 (runes " "));
      reflexivity.
Defined.

(** ** Quoted strings *)

Lemma scanStringWord_loop_body l :
  forall scanner buffer escape b rest,
    escape_after escape l = Some b ->
    pending (reader scanner) = l ++ rest ->
    exists scanner',
      pending (reader scanner') = rest
      /\ scanStringWord_loop scanner buffer escape =
         scanStringWord_loop scanner' (buffer ++ l) b.
Proof.
  induction l as [|c l IH]; intros scanner buffer escape b rest He Hp.
  - simpl in He. inversion He; subst. exists scanner.
    rewrite app_nil_r. auto.
  - simpl in Hp. destruct (read_cons _ _ _ Hp) as (R & P & _).
    rewrite scanStringWord_loop_eq, R.
    replace (buffer ++ c :: l) with ((buffer ++ [c]) ++ l)
      by (rewrite <- app_assoc; reflexivity).
    simpl in He. destruct escape.
    + destruct (IH _ (buffer ++ [c]) _ _ _ He P) as (scanner' & P' & E).
      exists scanner'. split; [exact P'|].
      destruct (c =? rBackslash); [exact E|].
      destruct (c =? rQuote); exact E.
    + destruct (c =? rBackslash).
      * destruct (IH _ (buffer ++ [c]) _ _ _ He P) as (scanner' & P' & E).
        exists scanner'. split; [exact P'|exact E].
      * destruct (c =? rQuote); [discriminate|].
        destruct (IH _ (buffer ++ [c]) _ _ _ He P) as (scanner' & P' & E).
        exists scanner'. split; [exact P'|exact E].
Qed.

Lemma scanStringWord_loop_eof scanner buffer escape :
  pending (reader scanner) = [] ->
  exists scanner',
    scanStringWord_loop scanner buffer escape = Break (buffer, false) scanner'
    /\ pending (reader scanner') = [].
Proof.
  intros Hp. destruct (read_nil _ Hp) as (R & P & _).
  rewrite scanStringWord_loop_eq, R. eexists; split; [reflexivity|exact P].
Qed.

Lemma scanStringWord_loop_quote scanner buffer rest :
  pending (reader scanner) = rQuote :: rest ->
  exists scanner',
    scanStringWord_loop scanner buffer false =
      Break (buffer ++ [rQuote], true) scanner'
    /\ pending (reader scanner') = rest.
Proof.
  intros Hp. destruct (read_cons _ _ _ Hp) as (R & P & _).
  rewrite scanStringWord_loop_eq, R. cbn.
  eexists; split; [reflexivity|exact P].
Qed.

Lemma Scan_quote scanner tail :
  pending (reader scanner) = rQuote :: tail ->
  exists scanner1,
    pending (reader scanner1) = tail
    /\ Scan scanner =
       (let '((token, e), scanner') :=
          match scanStringWord_loop scanner1 [rQuote] false with
          | Return e' scanner2 => ((None, Some e'), scanner2)
          | Break (buffer, closingQuoteFound) scanner2 =>
              if closingQuoteFound then
                match processStringWord buffer with
                | (_, Some e') => ((None, Some e'), scanner2)
                | (word, None) =>
                    ((Some {| tokenType := CtkWord; value := word;
                              startPos := zeroPos; endPos := pos scanner2;
                              err := None |}, None), scanner2)
                end
              else
                ((Some {| tokenType := CtkInvalid; value := buffer;
                          startPos := zeroPos; endPos := pos scanner2;
                          err := Some (errors_New "Unterminated string") |},
                  None), scanner2)
          end in
        ((option_map (with_startPos (pos (snd (read scanner)))) token, e),
         scanner')).
Proof.
  intros Hp.
  destruct (read_cons _ _ _ Hp) as (R & _ & _).
  destruct (unread_after_read _ _ _ Hp) as (U & PU).
  set (scanner0 := snd (unread (snd (read scanner)))) in *.
  destruct (read_cons _ _ _ PU) as (R0 & P0 & _).
  exists (snd (read scanner0)). split; [exact P0|].
  unfold Scan. rewrite R. cbv beta iota zeta. cbn.
  unfold after_unread. rewrite U.
  unfold scanStringWord. rewrite R0. reflexivity.
Qed.

(** C4.  A quoted string that the end of the stream cuts short is returned,
    with a nil error, as an Invalid token: its value is the raw text from
    the opening quote on, not decoded, and its [err] says so. *)
Theorem Scan_unterminated_string scanner body b :
  escape_after false body = Some b ->
  pending (reader scanner) = rQuote :: body ->
  exists tok scanner',
    Scan scanner = ((Some tok, None), scanner')
    /\ tokenType tok = CtkInvalid
    /\ value tok = rQuote :: body
    /\ err tok = Some (errors_New "Unterminated string")
    /\ pending (reader scanner') = [].
Proof.
  intros He Hp.
  destruct (Scan_quote _ _ Hp) as (scanner1 & P1 & S).
  rewrite <- (app_nil_r body) in P1.
  destruct (scanStringWord_loop_body _ _ [rQuote] _ _ _ He P1)
    as (scanner2 & P2 & E2).
  destruct (scanStringWord_loop_eof scanner2 ([rQuote] ++ body) b P2)
    as (scanner' & E & P').
  rewrite S, E2, E.
  do 2 eexists. split; [reflexivity|]. cbn. auto.
Qed.

Lemma Scan_unterminated_string_witness :
  exists tok scanner',
    Scan example_unterminated = ((Some tok, None), scanner')
    /\ tokenType tok = CtkInvalid
    /\ value tok = rQuote :: runes "abc"
    /\ err tok = Some (errors_New "Unterminated string")
    /\ pending (reader scanner') = [].
Proof.
  apply (Scan_unterminated_string example_unterminated (runes "abc") false);
    reflexivity.
Defined.

Lemma processStringWord_loop_unescape :
  forall n chars buffer,
    (length chars <= n)%nat ->
    processStringWord_loop chars buffer false = buffer ++ spec_unescape chars.
Proof.
  induction n as [|n IH]; intros chars buffer Hl.
  - destruct chars; [|simpl in Hl; lia]. simpl. rewrite app_nil_r. reflexivity.
  - destruct chars as [|c r]; [simpl; rewrite app_nil_r; reflexivity|].
    simpl in Hl. simpl. destruct (c =? rBackslash).
    + destruct r as [|d r']; [simpl; rewrite app_nil_r; reflexivity|].
      simpl in Hl. simpl. fold (spec_escaped d).
      rewrite IH by lia. rewrite <- app_assoc. reflexivity.
    + rewrite IH by lia. rewrite <- app_assoc. reflexivity.
Qed.

Lemma nth_last {A : Type} (l : list A) (x d : A) :
  nth (length l) (l ++ [x]) d = x.
Proof.
  rewrite app_nth2 by lia. rewrite Nat.sub_diag. reflexivity.
Qed.

Lemma processStringWord_quoted interior :
  processStringWord (rQuote :: interior ++ [rQuote]) =
  (spec_unescape interior, None).
Proof.
  unfold processStringWord.
  replace (length (rQuote :: interior ++ [rQuote]))
    with (S (S (length interior)))
    by (simpl; rewrite length_app; simpl; lia).
  replace (S (S (length interior)) - 1)%nat with (length (rQuote :: interior))
    by (simpl; lia).
  change (rQuote :: interior ++ [rQuote]) with ((rQuote :: interior) ++ [rQuote]).
  rewrite nth_last.
  rewrite firstn_app, firstn_all, Nat.sub_diag. simpl.
  rewrite app_nil_r.
  rewrite (processStringWord_loop_unescape (length interior)) by lia.
  reflexivity.
Qed.

(** C5.  A quoted string closed by an unescaped quote is returned as a Word
    token whose value is the text between the quotes, decoded: a backslash
    is dropped and the rune behind it read as a newline ([n]), a tab ([t])
    or itself. *)
Theorem Scan_quoted_string scanner interior rest :
  escape_after false interior = Some false ->
  pending (reader scanner) = rQuote :: interior ++ rQuote :: rest ->
  exists tok scanner',
    Scan scanner = ((Some tok, None), scanner')
    /\ tokenType tok = CtkWord
    /\ value tok = spec_unescape interior
    /\ err tok = None
    /\ pending (reader scanner') = rest.
Proof.
  intros He Hp.
  destruct (Scan_quote _ _ Hp) as (scanner1 & P1 & S).
  destruct (scanStringWord_loop_body _ _ [rQuote] _ _ _ He P1)
    as (scanner2 & P2 & E2).
  destruct (scanStringWord_loop_quote scanner2 ([rQuote] ++ interior) rest P2)
    as (scanner' & E & P').
  rewrite S, E2, E.
  change (([rQuote] ++ interior) ++ [rQuote])
    with (rQuote :: interior ++ [rQuote]).
  rewrite processStringWord_quoted.
  do 2 eexists. split; [reflexivity|]. cbn. auto.
Qed.

Lemma Scan_quoted_string_witness :
  exists tok scanner',
    Scan example_quoted = ((Some tok, None), scanner')
    /\ tokenType tok = CtkWord
    /\ value tok = runes "a" ++ [rNewline] ++ runes "b"
    /\ err tok = None
    /\ pending (reader scanner') = [].
Proof.
  apply (Scan_quoted_string example_quoted (runes "a\nb") []); reflexivity.
Defined.

(** ** The errors Scan can return *)

Lemma escape_after_None l :
  forall escape,
    escape_after escape l = None ->
    exists mid rest,
      l = mid ++ rQuote :: rest /\ escape_after escape mid = Some false.
Proof.
  induction l as [|c l IH]; intros escape H; [destruct escape; discriminate|].
  simpl in H. destruct escape.
  - destruct (IH _ H) as (mid & rest & -> & E).
    exists (c :: mid), rest. split; [reflexivity|exact E].
  - destruct (c =? rBackslash) eqn:B.
    + destruct (IH _ H) as (mid & rest & -> & E).
      exists (c :: mid), rest. split; [reflexivity|].
      simpl. rewrite B. exact E.
    + destruct (c =? rQuote) eqn:Q.
      * apply Z.eqb_eq in Q. subst c. exists [], l. auto.
      * destruct (IH _ H) as (mid & rest & -> & E).
        exists (c :: mid), rest. split; [reflexivity|].
        simpl. rewrite B, Q. exact E.
Qed.

(** The loop of [scanStringWord] never returns from inside: it leaves at
    the end of the stream with all it has read, or at an unescaped quote
    with that quote last in the buffer. *)
Lemma scanStringWord_loop_exit scanner buffer escape :
  (exists scanner',
     scanStringWord_loop scanner buffer escape =
       Break (buffer ++ pending (reader scanner), false) scanner')
  \/ (exists mid scanner',
        scanStringWord_loop scanner buffer escape =
          Break (buffer ++ mid ++ [rQuote], true) scanner').
Proof.
  destruct (escape_after escape (pending (reader scanner))) as [b|] eqn:E.
  - left.
    assert (Hp : pending (reader scanner) = pending (reader scanner) ++ [])
      by (rewrite app_nil_r; reflexivity).
    destruct (scanStringWord_loop_body _ _ buffer _ _ _ E Hp)
      as (scanner1 & P1 & E1).
    destruct (scanStringWord_loop_eof scanner1
                (buffer ++ pending (reader scanner)) b P1) as (scanner' & E2 & _).
    exists scanner'. rewrite E1. exact E2.
  - right.
    destruct (escape_after_None _ _ E) as (mid & rest & Hp & Em).
    destruct (scanStringWord_loop_body _ _ buffer _ _ _ Em Hp)
      as (scanner1 & P1 & E1).
    destruct (scanStringWord_loop_quote scanner1 (buffer ++ mid) rest P1)
      as (scanner' & E2 & _).
    exists mid, scanner'. rewrite E1, E2, <- app_assoc. reflexivity.
Qed.

Lemma unread_error scanner e scanner' :
  unread scanner = (Some e, scanner') -> e = bufio_ErrInvalidUnreadRune.
Proof.
  unfold unread, UnreadRune. destruct (lastRune (reader scanner)); simpl.
  - discriminate.
  - intros H; inversion H; reflexivity.
Qed.

Lemma Peek_error b n e : snd (fst (Peek b n)) = Some e -> e = io_EOF.
Proof.
  unfold Peek. simpl.
  destruct (length (firstn n (flat_map EncodeRune (pending b))) <? n)%nat.
  - intros H; inversion H; reflexivity.
  - discriminate.
Qed.

Lemma unread_exit {A : Type} scanner (vars : A) e scanner' :
  match unread scanner with
  | (Some e0, scanner2) => Return e0 scanner2
  | (None, scanner2) => Break vars scanner2
  end = Return e scanner' ->
  stream_error e.
Proof.
  destruct (unread scanner) as [[e0|] scanner2] eqn:U; intros H; inversion H.
  subst. right. exact (unread_error _ _ _ U).
Qed.

Lemma scanWord_loop_error l :
  forall scanner buffer e scanner',
    pending (reader scanner) = l ->
    scanWord_loop scanner buffer = Return e scanner' ->
    stream_error e.
Proof.
  induction l as [|c l IH]; intros scanner buffer e scanner' Hp H;
    rewrite scanWord_loop_eq in H.
  - destruct (read_nil _ Hp) as (R & _). rewrite R in H. discriminate.
  - destruct (read_cons _ _ _ Hp) as (R & P & _). rewrite R in H.
    destruct (IsSpace c).
    + exact (unread_exit _ _ _ _ H).
    + exact (IH _ _ _ _ P H).
Qed.

Lemma scanToEndOfLine_loop_error l :
  forall scanner buffer e scanner',
    pending (reader scanner) = l ->
    scanToEndOfLine_loop scanner buffer = Return e scanner' ->
    stream_error e.
Proof.
  induction l as [|c l IH]; intros scanner buffer e scanner' Hp H;
    rewrite scanToEndOfLine_loop_eq in H.
  - destruct (read_nil _ Hp) as (R & _). rewrite R in H. discriminate.
  - destruct (read_cons _ _ _ Hp) as (R & P & _). rewrite R in H.
    destruct (c =? rNewline).
    + exact (unread_exit _ _ _ _ H).
    + exact (IH _ _ _ _ P H).
Qed.

Lemma scanWhiteSpace_loop_error l :
  forall scanner buffer escape e scanner',
    pending (reader scanner) = l ->
    scanWhiteSpace_loop scanner buffer escape = Return e scanner' ->
    stream_error e.
Proof.
  induction l as [|c l IH]; intros scanner buffer escape e scanner' Hp H;
    rewrite scanWhiteSpace_loop_eq in H.
  - destruct (read_nil _ Hp) as (R & _). rewrite R in H. discriminate.
  - destruct (read_cons _ _ _ Hp) as (R & P & _). rewrite R in H.
    cbv beta iota zeta in H.
    destruct (c =? rBackslash).
    + destruct (snd (fst (Peek (reader (snd (read scanner))) 1)))
        as [e0|] eqn:Pk.
      * inversion H; subst. left. exact (Peek_error _ _ _ Pk).
      * destruct ((length (fst (fst (Peek (reader (snd (read scanner))) 1)))
                   =? 1)%nat
                  && (nth 0 (fst (fst (Peek (reader (snd (read scanner))) 1))) 0
                      =? rNewline)).
        -- refine (IH _ _ _ _ _ _ H). exact P.
        -- exact (unread_exit _ _ _ _ H).
    + destruct (c =? rNewline).
      * destruct (negb escape).
        -- exact (unread_exit _ _ _ _ H).
        -- exact (IH _ _ _ _ _ P H).
      * destruct (negb (IsSpace c)).
        -- exact (unread_exit _ _ _ _ H).
        -- exact (IH _ _ _ _ _ P H).
Qed.

Lemma scanWhiteSpace_error scanner t e scanner' :
  scanWhiteSpace scanner = ((t, Some e), scanner') -> stream_error e.
Proof.
  unfold scanWhiteSpace.
  destruct (scanWhiteSpace_loop scanner [] false) eqn:L;
    intros H; inversion H; subst.
  exact (scanWhiteSpace_loop_error _ _ _ _ _ _ eq_refl L).
Qed.

Lemma scanToEndOfLine_error scanner ty t e scanner' :
  scanToEndOfLine scanner ty = ((t, Some e), scanner') -> stream_error e.
Proof.
  unfold scanToEndOfLine.
  destruct (scanToEndOfLine_loop scanner []) eqn:L;
    intros H; inversion H; subst.
  exact (scanToEndOfLine_loop_error _ _ _ _ _ eq_refl L).
Qed.

Lemma scanWord_error scanner t e scanner' :
  scanWord scanner = ((t, Some e), scanner') -> stream_error e.
Proof.
  unfold scanWord.
  destruct (scanWord_loop scanner []) eqn:L; intros H; inversion H; subst.
  exact (scanWord_loop_error _ _ _ _ _ eq_refl L).
Qed.

Lemma after_unread_error scanner k t e scanner' :
  (forall scanner0 t0 e0 scanner1,
     k scanner0 = ((t0, Some e0), scanner1) -> stream_error e0) ->
  after_unread scanner k = ((t, Some e), scanner') ->
  stream_error e.
Proof.
  intros Hk. unfold after_unread.
  destruct (unread scanner) as [[e0|] scanner0] eqn:U.
  - intros H; inversion H; subst. right. exact (unread_error _ _ _ U).
  - apply Hk.
Qed.

Lemma quoted_buffer mid :
  let raw := [rQuote] ++ mid ++ [rQuote] in
  (2 <= length raw)%nat
  /\ nth 0 raw 0 = rQuote
  /\ nth (length raw - 1) raw 0 = rQuote
  /\ snd (processStringWord raw) = None.
Proof.
  cbv zeta. change ([rQuote] ++ mid ++ [rQuote]) with (rQuote :: mid ++ [rQuote]).
  split; [simpl; rewrite length_app; simpl; lia|].
  split; [reflexivity|].
  split; [|rewrite processStringWord_quoted; reflexivity].
  replace (length (rQuote :: mid ++ [rQuote]) - 1)%nat
    with (length (rQuote :: mid))
    by (simpl; rewrite length_app; simpl; lia).
  change (rQuote :: mid ++ [rQuote]) with ((rQuote :: mid) ++ [rQuote]).
  apply nth_last.
Qed.

Lemma Scan_error scanner tok e scanner' :
  Scan scanner = ((tok, Some e), scanner') -> stream_error e.
Proof.
  intros H.
  destruct (pending (reader scanner)) as [|c tail] eqn:Hp.
  { destruct (Scan_at_eof _ Hp) as (S & _). rewrite S in H. discriminate. }
  destruct (Z.eq_dec c rQuote) as [->|Nq].
  { destruct (Scan_quote _ _ Hp) as (scanner1 & _ & S). rewrite S in H.
    destruct (scanStringWord_loop_exit scanner1 [rQuote] false)
      as [(s2 & E)|(mid & s2 & E)]; rewrite E in H.
    - discriminate.
    - destruct (quoted_buffer mid) as (_ & _ & _ & Q). cbv zeta in Q.
      destruct (processStringWord ([rQuote] ++ mid ++ [rQuote])) as [w [e0|]];
        simpl in Q; discriminate. }
  destruct (read_cons _ _ _ Hp) as (R & _ & _).
  unfold Scan in H. rewrite R in H. cbv beta iota zeta in H.
  apply Z.eqb_neq in Nq.
  assert (K : forall res : ScanResult,
    (forall t e1 s1, res = ((t, Some e1), s1) -> stream_error e1) ->
    (let '(token, e', scanner'0) := res in
     (option_map (with_startPos (pos (snd (read scanner)))) token, e', scanner'0))
      = (tok, Some e, scanner') ->
    stream_error e).
  { intros [[t e1] s1] Hres E. inversion E; subst.
    exact (Hres _ _ _ eq_refl). }
  revert H. apply K. intros t e1 s1.
  destruct (c =? rNewline); [discriminate|].
  destruct (IsSpace c).
  { apply after_unread_error. apply scanWhiteSpace_error. }
  destruct (c =? rHash).
  { apply after_unread_error. intros s0 t0 e0 s2.
    apply scanToEndOfLine_error. }
  destruct ((c =? rBang) || (c =? rAt)).
  { apply after_unread_error. intros s0 t0 e0 s2.
    apply scanToEndOfLine_error. }
  destruct (c =? rDash).
  { destruct (snd (fst (Peek (reader (snd (read scanner))) 1)))
      as [e0|] eqn:Pk.
    - intros H; inversion H; subst. left. exact (Peek_error _ _ _ Pk).
    - destruct ((length (fst (fst (Peek (reader (snd (read scanner))) 1)))
                 =? 1)%nat
                && (nth 0 (fst (fst (Peek (reader (snd (read scanner))) 1))) 0
                    =? rDash)).
      + destruct (scanWord (with_reader (snd (read scanner))
                    (snd (Peek (reader (snd (read scanner))) 1))))
          as [[t0 e3] s3] eqn:W.
        intros H; inversion H; subst.
        exact (scanWord_error _ _ _ _ W).
      + apply after_unread_error. apply scanWord_error. }
  rewrite Nq.
  apply after_unread_error. apply scanWord_error.
Qed.

(** C10.  When the loop of [scanStringWord], entered from [Scan] with the
    opening quote in its buffer, finds the closing quote, the buffer has at
    least two runes and a quote at both ends, so [processStringWord] accepts
    it; the only errors [Scan] returns are those of the stream, never
    "Invalid string word". *)
Theorem Scan_never_invalid_string_word scanner :
  (forall raw scanner',
     scanStringWord_loop scanner [rQuote] false = Break (raw, true) scanner' ->
     (2 <= length raw)%nat
     /\ nth 0 raw 0 = rQuote
     /\ nth (length raw - 1) raw 0 = rQuote
     /\ snd (processStringWord raw) = None)
  /\ (forall tok e scanner',
        Scan scanner = ((tok, Some e), scanner') ->
        stream_error e /\ forall format arg, e <> fmt_Errorf format arg).
Proof.
  split.
  - intros raw scanner' H.
    destruct (scanStringWord_loop_exit scanner [rQuote] false)
      as [(s2 & E)|(mid & s2 & E)]; rewrite E in H; inversion H; subst.
    exact (quoted_buffer mid).
  - intros tok e scanner' H. apply Scan_error in H. split; [exact H|].
    intros format arg. destruct H as [-> | ->]; discriminate.
Qed.

Lemma Scan_never_invalid_string_word_witness :
  ((2 <= length (rQuote :: runes "ab" ++ [rQuote]))%nat
   /\ nth 0 (rQuote :: runes "ab" ++ [rQuote]) 0 = rQuote
   /\ nth (length (rQuote :: runes "ab" ++ [rQuote]) - 1)
          (rQuote :: runes "ab" ++ [rQuote]) 0 = rQuote
   /\ snd (processStringWord (rQuote :: runes "ab" ++ [rQuote])) = None)
  /\ (stream_error io_EOF /\ forall format arg, io_EOF <> fmt_Errorf format arg).
Proof.
  split.
  - apply (proj1 (Scan_never_invalid_string_word example_string_loop)
             (rQuote :: runes "ab" ++ [rQuote])
             (snd (read (snd (read (snd (read example_string_loop))))))).
    vm_compute. reflexivity.
  - apply (proj2 (Scan_never_invalid_string_word example_lone_dash)
             None io_EOF (after_Scan example_lone_dash)).
    vm_compute. reflexivity.
Defined.

(** * Further properties *)

(** ** What the look-ahead sees *)

Lemma EncodeRune_head r :
  exists h rest,
    EncodeRune r = h :: rest
    /\ (r < 128 -> h = r)
    /\ (128 <= r -> Z.testbit h 6 = true).
Proof.
  unfold EncodeRune.
  destruct (Z.ltb_spec r 128) as [L|L].
  - exists r, []. repeat split; auto. lia.
  - destruct (r <? 2048); [|destruct (r <? 65536)];
      eexists; eexists; (split; [reflexivity|]); (split; [lia|]);
      intros _; rewrite Z.lor_spec; reflexivity.
Qed.

(** [Peek 1] before a rune gives one byte, which is a given ASCII rune below
    64 (the newline, the dash) exactly when the rune is. *)
Lemma Peek_one b r rest :
  pending b = r :: rest ->
  exists h,
    fst (Peek b 1) = ([h], None)
    /\ forall c, 0 <= c < 64 -> (h =? c) = (r =? c).
Proof.
  intros Hp. destruct (EncodeRune_head r) as (h & tl & E & Hs & Hb).
  exists h. split.
  - unfold Peek. rewrite Hp. simpl. rewrite E. reflexivity.
  - intros c Hc. destruct (Z.ltb_spec r 128) as [L|L].
    + rewrite (Hs L). reflexivity.
    + specialize (Hb L).
      assert (Hc6 : Z.testbit c 6 = false).
      { destruct (Z.eq_dec c 0) as [->|Nz]; [reflexivity|].
        apply Z.bits_above_log2; [lia|].
        apply Z.log2_lt_pow2; [lia|]. change (2 ^ 6) with 64. lia. }
      replace (r =? c) with false by (symmetry; apply Z.eqb_neq; lia).
      apply Z.eqb_neq. intros ->. congruence.
Qed.

Lemma read_peekForgets scanner :
  peekForgets (reader (snd (read scanner))) = peekForgets (reader scanner).
Proof.
  unfold read, ReadRune. destruct (pending (reader scanner)); simpl;
    [reflexivity|]. destruct (lastCharLineEnd scanner); reflexivity.
Qed.

(** [unread] straight after the look-ahead that follows a successful
    [read]: refused where [Peek] forgets the last rune, and a plain
    pushback of that rune where it does not. *)
Lemma unread_after_Peek scanner c rest :
  pending (reader scanner) = c :: rest ->
  let scanner2 :=
    with_reader (snd (read scanner))
      (snd (Peek (reader (snd (read scanner))) 1)) in
  (peekForgets (reader scanner) = true ->
   unread scanner2 = (Some bufio_ErrInvalidUnreadRune, snd (unread scanner2))
   /\ pending (reader (snd (unread scanner2))) = rest)
  /\ (peekForgets (reader scanner) = false ->
      unread scanner2 = (None, snd (unread scanner2))
      /\ pending (reader (snd (unread scanner2))) = c :: rest).
Proof.
  intros Hp. destruct (read_cons _ _ _ Hp) as (_ & P & L).
  pose proof (read_peekForgets scanner) as F.
  cbv zeta. unfold unread, UnreadRune, Peek, with_reader. simpl.
  rewrite F. split; intros E; rewrite E.
  - simpl. rewrite P. auto.
  - rewrite L. simpl.
    destruct ((1 <? line (pos (snd (read scanner))))
              && (col (pos (snd (read scanner))) =? 1)); simpl; rewrite P; auto.
Qed.

(** ** Plain words *)

Lemma not_space_not_newline c : IsSpace c = false -> (c =? rNewline) = false.
Proof.
  intros H. destruct (c =? rNewline) eqn:E; [|reflexivity].
  apply Z.eqb_eq in E. subst c. vm_compute in H. discriminate.
Qed.

Lemma starts_word_cases c :
  starts_word c = true ->
  IsSpace c = false /\ (c =? rNewline) = false /\ (c =? rHash) = false
  /\ (c =? rBang) = false /\ (c =? rAt) = false /\ (c =? rDash) = false
  /\ (c =? rQuote) = false.
Proof.
  unfold starts_word. intros H.
  repeat (apply andb_true_iff in H; destruct H as [H ?]).
  repeat match goal with
         | K : negb _ = true |- _ => apply negb_true_iff in K
         end.
  repeat split; try assumption. apply not_space_not_newline. assumption.
Qed.

(** X1.  On a rune that is neither a space nor one of [#], [!], [@], [-]
    and the double quote, [Scan] returns the text up to the next space or
    the end of the stream as a Word, verbatim: quotes, backslashes and [#]
    inside a word are kept as they are.  The space stays in the stream. *)
Theorem Scan_word scanner c word rest :
  starts_word c = true ->
  forallb not_space word = true ->
  at_word_end rest = true ->
  pending (reader scanner) = c :: word ++ rest ->
  exists tok scanner',
    Scan scanner = ((Some tok, None), scanner')
    /\ tokenType tok = CtkWord
    /\ value tok = c :: word
    /\ err tok = None
    /\ pending (reader scanner') = rest.
Proof.
  intros Hc Hw Hr Hp.
  destruct (starts_word_cases _ Hc) as (Hs & Hn & Hh & Hb & Ha & Hd & Hq).
  destruct (read_cons _ _ _ Hp) as (R & _ & _).
  destruct (unread_after_read _ _ _ Hp) as (U & PU).
  assert (Hw' : forallb not_space (c :: word) = true)
    by (simpl; unfold not_space at 1; rewrite Hs, Hw; reflexivity).
  destruct (scanWord_loop_spec (c :: word) _ [] rest Hw' Hr PU)
    as (scanner' & E & P').
  unfold Scan. rewrite R. cbv beta iota zeta.
  rewrite Hn, Hs, Hh, Hb, Ha, Hd, Hq. cbn [orb].
  unfold after_unread. rewrite U. unfold scanWord. rewrite E.
  do 2 eexists. split; [reflexivity|]. cbn. auto.
Qed.

Lemma Scan_word_witness :
  exists tok scanner',
    Scan example_word = ((Some tok, None), scanner')
    /\ tokenType tok = CtkWord
    /\ value tok = runes "a#b\c"
    /\ err tok = None
    /\ pending (reader scanner') = runes " d".
Proof.
  apply (Scan_word example_word 97 (runes "#b\c") (runes " d")); reflexivity.
Defined.

(** ** White space and the lone backslash *)

(** X2.  On a blank, [Scan] returns the run of blanks and backslash-newline
    pairs that follows as one WhiteSpace token whose value holds the blanks
    only; the run ends, without being consumed, at a newline, at a rune
    that is neither a space nor a backslash, and at the end of the
    stream. *)
Theorem Scan_whitespace scanner c run rest :
  blank c = true ->
  is_ws_run run = true ->
  at_space_end rest = true ->
  pending (reader scanner) = c :: run ++ rest ->
  exists tok scanner',
    Scan scanner = ((Some tok, None), scanner')
    /\ tokenType tok = CtkWhiteSpace
    /\ value tok = c :: without_continuations run
    /\ err tok = None
    /\ pending (reader scanner') = rest.
Proof.
  intros Hc Hrun Hr Hp.
  destruct (Scan_blank _ _ _ Hc Hp) as (S & P0).
  set (scanner0 := snd (unread (snd (read scanner)))) in *.
  assert (H1 : is_ws_run (c :: run) = true)
    by (simpl; rewrite (blank_not_backslash _ Hc), Hc, Hrun; reflexivity).
  destruct (scanWhiteSpace_loop_run _ H1 scanner0 [] rest P0)
    as (scanner1 & P1 & E1).
  destruct (scanWhiteSpace_loop_end scanner1
              ([] ++ without_continuations (c :: run)) rest Hr P1)
    as (scanner' & E & P').
  rewrite S. unfold scanWhiteSpace. rewrite E1, E.
  rewrite (without_continuations_blank _ _ Hc).
  do 2 eexists. split; [reflexivity|]. cbn. auto.
Qed.

Lemma Scan_whitespace_witness :
  exists tok scanner',
    Scan example_blanks = ((Some tok, None), scanner')
    /\ tokenType tok = CtkWhiteSpace
    /\ value tok = runes "  " ++ [rTab]
    /\ err tok = None
    /\ pending (reader scanner') = runes "b".
Proof.
  apply (Scan_whitespace example_blanks 32 (runes " " ++ [rTab]) (runes "b"));
    reflexivity.
Defined.

Lemma unread_peekForgets scanner :
  peekForgets (reader (snd (unread scanner))) = peekForgets (reader scanner).
Proof.
  unfold unread, UnreadRune. destruct (lastRune (reader scanner)); simpl;
    [|reflexivity].
  destruct ((1 <? line (pos scanner)) && (col (pos scanner) =? 1)); reflexivity.
Qed.

(** Reading through a run keeps what [read] and [Peek] keep. *)
Lemma scanWhiteSpace_loop_run_keeps (Inv : ConfigScanner -> Prop) :
  (forall scanner, Inv scanner -> Inv (snd (read scanner))) ->
  (forall scanner n,
     Inv scanner -> Inv (with_reader scanner (snd (Peek (reader scanner) n)))) ->
  forall run,
    is_ws_run run = true ->
    forall scanner buffer rest,
      Inv scanner ->
      pending (reader scanner) = run ++ rest ->
      exists scanner',
        Inv scanner'
        /\ pending (reader scanner') = rest
        /\ scanWhiteSpace_loop scanner buffer false =
           scanWhiteSpace_loop scanner'
             (buffer ++ without_continuations run) false.
Proof.
  intros Inv_read Inv_Peek.
  apply (ws_run_ind (fun run =>
    forall scanner buffer rest,
      Inv scanner ->
      pending (reader scanner) = run ++ rest ->
      exists scanner',
        Inv scanner'
        /\ pending (reader scanner') = rest
        /\ scanWhiteSpace_loop scanner buffer false =
           scanWhiteSpace_loop scanner'
             (buffer ++ without_continuations run) false)).
  - intros scanner buffer rest HI Hp. exists scanner.
    simpl. rewrite app_nil_r. auto.
  - intros c r Hc _ IH scanner buffer rest HI Hp. simpl in Hp.
    destruct (read_cons _ _ _ Hp) as (R & P & _).
    destruct (IH _ (buffer ++ [c]) _ (Inv_read _ HI) P)
      as (scanner' & HI' & P' & E).
    exists scanner'. split; [exact HI'|]. split; [exact P'|].
    rewrite scanWhiteSpace_loop_eq, R.
    rewrite (blank_not_backslash _ Hc).
    destruct (blank_cases _ Hc) as [Hs Hn]. rewrite Hn, Hs.
    cbv beta iota delta [negb].
    rewrite E, (without_continuations_blank _ _ Hc), <- app_assoc.
    reflexivity.
  - intros r _ IH scanner buffer rest HI Hp. simpl in Hp.
    destruct (read_cons _ _ _ Hp) as (R & P & _).
    set (scanner1 := snd (read scanner)) in *.
    set (scanner2 := with_reader scanner1 (snd (Peek (reader scanner1) 1))).
    assert (Pk : fst (Peek (reader scanner1) 1) = ([rNewline], None))
      by (apply (Peek_ascii _ rNewline (r ++ rest));
          [unfold rNewline; lia|exact P]).
    assert (P2 : pending (reader scanner2) = rNewline :: r ++ rest) by exact P.
    assert (HI2 : Inv scanner2) by (apply Inv_Peek, Inv_read, HI).
    destruct (read_cons _ _ _ P2) as (R2 & P3 & _).
    destruct (IH _ buffer _ (Inv_read _ HI2) P3) as (scanner' & HI' & P' & E).
    exists scanner'. split; [exact HI'|]. split; [exact P'|].
    rewrite scanWhiteSpace_loop_eq, R. cbv beta iota zeta. rewrite Pk.
    cbn. fold scanner2.
    rewrite scanWhiteSpace_loop_eq, R2. cbn.
    exact E.
Qed.

Lemma Peek_peekForgets scanner n :
  peekForgets (reader (with_reader scanner (snd (Peek (reader scanner) n)))) =
  peekForgets (reader scanner).
Proof. reflexivity. Qed.

(** X3.  A backslash in a run of white space that a rune other than the
    newline follows is pushed back after the look-ahead.  Where [Peek]
    forgets the last rune read the reader refuses: [Scan] returns its
    error and no token, and the backslash is lost.  Where it does not, the
    WhiteSpace token ends before the backslash. *)
Theorem Scan_whitespace_backslash scanner c run d tail :
  blank c = true ->
  is_ws_run run = true ->
  (d =? rNewline) = false ->
  pending (reader scanner) = c :: run ++ rBackslash :: d :: tail ->
  (peekForgets (reader scanner) = true ->
   exists scanner',
     Scan scanner = ((None, Some bufio_ErrInvalidUnreadRune), scanner')
     /\ pending (reader scanner') = d :: tail)
  /\ (peekForgets (reader scanner) = false ->
      exists tok scanner',
        Scan scanner = ((Some tok, None), scanner')
        /\ tokenType tok = CtkWhiteSpace
        /\ value tok = c :: without_continuations run
        /\ pending (reader scanner') = rBackslash :: d :: tail).
Proof.
  intros Hc Hrun Hd Hp.
  destruct (Scan_blank _ _ _ Hc Hp) as (S & P0).
  set (scanner0 := snd (unread (snd (read scanner)))) in *.
  assert (F0 : peekForgets (reader scanner0) = peekForgets (reader scanner))
    by (unfold scanner0; rewrite unread_peekForgets; apply read_peekForgets).
  assert (H1 : is_ws_run (c :: run) = true)
    by (simpl; rewrite (blank_not_backslash _ Hc), Hc, Hrun; reflexivity).
  destruct (scanWhiteSpace_loop_run_keeps
              (fun s => peekForgets (reader s) = peekForgets (reader scanner))
              (fun s H => eq_trans (read_peekForgets s) H)
              (fun s n H => H)
              _ H1 scanner0 [] (rBackslash :: d :: tail) F0 P0)
    as (scanner1 & F1 & P1 & E1).
  rewrite (without_continuations_blank _ _ Hc) in E1.
  destruct (read_cons _ _ _ P1) as (R & P2 & _).
  destruct (Peek_one _ _ _ P2) as (h & Pk & Hh).
  specialize (Hh rNewline ltac:(unfold rNewline; lia)). rewrite Hd in Hh.
  destruct (unread_after_Peek _ _ _ P1) as (Ut & Uf). cbv zeta in Ut, Uf.
  rewrite F1 in Ut, Uf.
  assert (L : scanWhiteSpace_loop scanner0 [] false =
    match unread (with_reader (snd (read scanner1))
                    (snd (Peek (reader (snd (read scanner1))) 1))) with
    | (Some e, scanner3) => Return e scanner3
    | (None, scanner3) => Break ([] ++ c :: without_continuations run) scanner3
    end).
  { rewrite E1, scanWhiteSpace_loop_eq, R. cbv beta iota zeta.
    rewrite Pk. cbn [fst snd length nth Nat.eqb andb]. rewrite Hh.
    reflexivity. }
  rewrite S. unfold scanWhiteSpace. rewrite L. split; intros F.
  - destruct (Ut F) as (U & PU). rewrite U.
    eexists. split; [reflexivity|exact PU].
  - destruct (Uf F) as (U & PU). rewrite U.
    do 2 eexists. split; [reflexivity|]. cbn. auto.
Qed.

Lemma Scan_whitespace_backslash_witness :
  (exists scanner',
     Scan (example_space_backslash_x true) =
       ((None, Some bufio_ErrInvalidUnreadRune), scanner')
     /\ pending (reader scanner') = runes "x")
  /\ (exists tok scanner',
        Scan (example_space_backslash_x false) = ((Some tok, None), scanner')
        /\ tokenType tok = CtkWhiteSpace
        /\ value tok = runes " "
        /\ pending (reader scanner') = runes "\x").
Proof.
  split.
  - apply (proj1 (Scan_whitespace_backslash (example_space_backslash_x true)
                    32 [] 120 [] eq_refl eq_refl eq_refl eq_refl)).
    reflexivity.
  - apply (proj2 (Scan_whitespace_backslash (example_space_backslash_x false)
                    32 [] 120 [] eq_refl eq_refl eq_refl eq_refl)).
    reflexivity.
Defined.

(** ** The single dash *)

(** X4.  A dash that another rune, not a dash, follows is pushed back after
    the look-ahead.  Where [Peek] forgets the last rune read the reader
    refuses: [Scan] returns its error and no token, and the dash is lost.
    Where it does not, the dash starts a plain word. *)
Theorem Scan_single_dash scanner d tail :
  (d =? rDash) = false ->
  pending (reader scanner) = rDash :: d :: tail ->
  (peekForgets (reader scanner) = true ->
   exists scanner',
     Scan scanner = ((None, Some bufio_ErrInvalidUnreadRune), scanner')
     /\ pending (reader scanner') = d :: tail)
  /\ (peekForgets (reader scanner) = false ->
      forall word rest,
        d :: tail = word ++ rest ->
        forallb not_space word = true ->
        at_word_end rest = true ->
        exists tok scanner',
          Scan scanner = ((Some tok, None), scanner')
          /\ tokenType tok = CtkWord
          /\ value tok = rDash :: word
          /\ err tok = None
          /\ pending (reader scanner') = rest).
Proof.
  intros Hd Hp.
  destruct (read_cons _ _ _ Hp) as (R & P & _).
  destruct (Peek_one _ _ _ P) as (h & Pk & Hh).
  specialize (Hh rDash ltac:(unfold rDash; lia)). rewrite Hd in Hh.
  destruct (unread_after_Peek _ _ _ Hp) as (Ut & Uf). cbv zeta in Ut, Uf.
  assert (S : Scan scanner =
    (let '((token, e), scanner') :=
       after_unread
         (with_reader (snd (read scanner))
            (snd (Peek (reader (snd (read scanner))) 1))) scanWord in
     ((option_map (with_startPos (pos (snd (read scanner)))) token, e),
      scanner'))).
  { unfold Scan. rewrite R. cbv beta iota zeta. rewrite Pk.
    cbn [fst snd length nth Nat.eqb andb]. rewrite Hh. reflexivity. }
  rewrite S. unfold after_unread. split.
  - intros F. destruct (Ut F) as (U & PU). rewrite U.
    eexists. split; [reflexivity|exact PU].
  - intros F word rest Ht Hw Hr. destruct (Uf F) as (U & PU). rewrite U.
    rewrite Ht in PU.
    assert (Hw' : forallb not_space (rDash :: word) = true)
      by (simpl; rewrite Hw; reflexivity).
    destruct (scanWord_loop_spec (rDash :: word) _ [] rest Hw' Hr PU)
      as (scanner' & E & P').
    unfold scanWord. rewrite E.
    do 2 eexists. split; [reflexivity|]. cbn. auto.
Qed.

Lemma Scan_single_dash_witness :
  (exists scanner',
     Scan (example_dash_x true) =
       ((None, Some bufio_ErrInvalidUnreadRune), scanner')
     /\ pending (reader scanner') = runes "x y")
  /\ (exists tok scanner',
        Scan (example_dash_x false) = ((Some tok, None), scanner')
        /\ tokenType tok = CtkWord
        /\ value tok = runes "-x"
        /\ err tok = None
        /\ pending (reader scanner') = runes " y").
Proof.
  split.
  - apply (proj1 (Scan_single_dash (example_dash_x true) 120 (runes " y")
                    eq_refl eq_refl)).
    reflexivity.
  - apply (proj2 (Scan_single_dash (example_dash_x false) 120 (runes " y")
                    eq_refl eq_refl) eq_refl (runes "x") (runes " y"));
      reflexivity.
Defined.

(** ** Tokens and errors *)

Lemma scanStringWord_token_err scanner tok e scanner' :
  scanStringWord scanner = ((Some tok, e), scanner') ->
  (tokenType tok = CtkWord /\ err tok = None)
  \/ (tokenType tok = CtkInvalid
      /\ err tok = Some (errors_New "Unterminated string")).
Proof.
  unfold scanStringWord.
  destruct (read scanner) as [[[char eof] e0] scanner1].
  destruct (negb (is_nil e0) || eof); [intros H; inversion H|].
  destruct (scanStringWord_loop scanner1 [char] false)
    as [e1 s2|[buffer found] s2]; [intros H; inversion H|].
  destruct found.
  - destruct (processStringWord buffer) as [word [e1|]]; intros H; inversion H.
    left. simpl. auto.
  - intros H; inversion H. right. simpl. auto.
Qed.

Lemma scanWhiteSpace_err scanner tok e scanner' :
  scanWhiteSpace scanner = ((Some tok, e), scanner') -> err tok = None.
Proof.
  unfold scanWhiteSpace.
  destruct (scanWhiteSpace_loop scanner [] false); intros H; inversion H.
  reflexivity.
Qed.

Lemma scanToEndOfLine_err scanner ty tok e scanner' :
  scanToEndOfLine scanner ty = ((Some tok, e), scanner') -> err tok = None.
Proof.
  unfold scanToEndOfLine.
  destruct (scanToEndOfLine_loop scanner []); intros H; inversion H.
  reflexivity.
Qed.

Lemma scanWord_err scanner tok e scanner' :
  scanWord scanner = ((Some tok, e), scanner') -> err tok = None.
Proof.
  unfold scanWord.
  destruct (scanWord_loop scanner []); intros H; inversion H.
  reflexivity.
Qed.

Lemma Scan_token_fields scanner tok e scanner' :
  Scan scanner = ((Some tok, e), scanner') ->
  (In (tokenType tok) valid_kinds /\ err tok = None)
  \/ (tokenType tok = CtkInvalid
      /\ err tok = Some (errors_New "Unterminated string")
      /\ exists tail, pending (reader scanner) = rQuote :: tail).
Proof.
  unfold Scan.
  destruct (read scanner) as [[[char eof] e0] scanner1] eqn:R.
  pose proof (read_no_error _ _ _ _ _ R) as E0. subst e0.
  cbv beta iota zeta.
  assert (K : forall res : ScanResult,
    (forall t e1 s1, res = ((Some t, e1), s1) ->
       (In (tokenType t) valid_kinds /\ err t = None)
       \/ (tokenType t = CtkInvalid
           /\ err t = Some (errors_New "Unterminated string")
           /\ exists tail, pending (reader scanner) = rQuote :: tail)) ->
    (let '(token, e', scanner'0) := res in
     (option_map (with_startPos (pos scanner1)) token, e', scanner'0)) =
      (Some tok, e, scanner') ->
    (In (tokenType tok) valid_kinds /\ err tok = None)
    \/ (tokenType tok = CtkInvalid
        /\ err tok = Some (errors_New "Unterminated string")
        /\ exists tail, pending (reader scanner) = rQuote :: tail)).
  { intros [[[t|] e1] s1] Hres H; [|inversion H].
    specialize (Hres _ _ _ eq_refl). inversion H; subst. exact Hres. }
  apply K. intros t e1 s1.
  assert (V : forall ty, In ty valid_kinds ->
    tokenType t = ty -> err t = None ->
    (In (tokenType t) valid_kinds /\ err t = None)
    \/ (tokenType t = CtkInvalid
        /\ err t = Some (errors_New "Unterminated string")
        /\ exists tail, pending (reader scanner) = rQuote :: tail)).
  { intros ty Hin <- He. left. auto. }
  destruct eof.
  { intros H; inversion H; subst.
    apply (V CtkEOF); [unfold valid_kinds; simpl; tauto|reflexivity..]. }
  destruct (char =? rNewline).
  { intros H; inversion H; subst.
    apply (V CtkTerminator); [unfold valid_kinds; simpl; tauto|reflexivity..]. }
  destruct (IsSpace char).
  { intros H. apply after_unread_token in H. destruct H as [s0 H].
    apply (V CtkWhiteSpace); [unfold valid_kinds; simpl; tauto| |].
    - apply scanWhiteSpace_token in H. tauto.
    - apply scanWhiteSpace_err in H. exact H. }
  destruct (char =? rHash).
  { intros H. apply after_unread_token in H. destruct H as [s0 H].
    apply (V CtkComment); [unfold valid_kinds; simpl; tauto| |].
    - apply scanToEndOfLine_token in H. tauto.
    - apply scanToEndOfLine_err in H. exact H. }
  destruct ((char =? rBang) || (char =? rAt)).
  { intros H. apply after_unread_token in H. destruct H as [s0 H].
    apply (V CtkShellCommand); [unfold valid_kinds; simpl; tauto| |].
    - apply scanToEndOfLine_token in H. tauto.
    - apply scanToEndOfLine_err in H. exact H. }
  destruct (char =? rDash).
  { destruct (snd (fst (Peek (reader scanner1) 1))); [intros H; inversion H|].
    destruct ((length (fst (fst (Peek (reader scanner1) 1))) =? 1)%nat
              && (nth 0 (fst (fst (Peek (reader scanner1) 1))) 0 =? rDash)).
    - destruct (scanWord (with_reader scanner1 (snd (Peek (reader scanner1) 1))))
        as [[[t0|] e3] s3] eqn:W; [|intros H; inversion H].
      pose proof (scanWord_err _ _ _ _ W) as He.
      apply scanWord_token in W. destruct W as (Hk & _ & _).
      rewrite Hk. simpl. intros H; inversion H; subst.
      apply (V CtkOption); [unfold valid_kinds; simpl; tauto|reflexivity|exact He].
    - intros H. apply after_unread_token in H. destruct H as [s0 H].
      apply (V CtkWord); [unfold valid_kinds; simpl; tauto| |].
      + apply scanWord_token in H. tauto.
      + apply scanWord_err in H. exact H. }
  destruct (char =? rQuote) eqn:Q.
  { intros H. apply after_unread_token in H. destruct H as [s0 H].
    apply scanStringWord_token_err in H. destruct H as [[Hk He]|[Hk He]].
    - apply (V CtkWord); [unfold valid_kinds; simpl; tauto|assumption..].
    - right. split; [exact Hk|]. split; [exact He|].
      apply Z.eqb_eq in Q. subst char.
      exists (pending (reader scanner1)). apply (read_consumes _ _ _ R). }
  intros H. apply after_unread_token in H. destruct H as [s0 H].
  apply (V CtkWord); [unfold valid_kinds; simpl; tauto| |].
  - apply scanWord_token in H. tauto.
  - apply scanWord_err in H. exact H.
Qed.

(** X5.  A token that [Scan] returns carries an error exactly when it is an
    Invalid token; the error is then "Unterminated string" and the token
    started at a double quote.  Every other token has one of the seven
    remaining kinds. *)
Theorem Scan_err_only_on_Invalid scanner tok e scanner' :
  Scan scanner = ((Some tok, e), scanner') ->
  (tokenType tok = CtkInvalid <-> err tok <> None)
  /\ (err tok <> None ->
      err tok = Some (errors_New "Unterminated string")
      /\ exists tail, pending (reader scanner) = rQuote :: tail)
  /\ (tokenType tok <> CtkInvalid -> In (tokenType tok) valid_kinds).
Proof.
  intros H. apply Scan_token_fields in H.
  destruct H as [[Hk He]|(Hk & He & Hq)].
  - assert (N : tokenType tok <> CtkInvalid).
    { intros E. rewrite E in Hk. unfold valid_kinds in Hk. simpl in Hk.
      repeat (destruct Hk as [Hk|Hk]; [discriminate Hk|]). exact Hk. }
    split; [split; [intros E; contradiction|intros E; contradiction]|].
    split; [intros E; contradiction|]. intros _. exact Hk.
  - split; [split; [intros _; rewrite He; discriminate|intros _; exact Hk]|].
    split; [intros _; auto|]. intros N. contradiction.
Qed.

Lemma Scan_err_only_on_Invalid_witness :
  (tokenType example_unterminated_token = CtkInvalid <->
   err example_unterminated_token <> None)
  /\ (err example_unterminated_token <> None ->
      err example_unterminated_token = Some (errors_New "Unterminated string")
      /\ exists tail, pending (reader example_unterminated) = rQuote :: tail)
  /\ (tokenType example_unterminated_token <> CtkInvalid ->
      In (tokenType example_unterminated_token) valid_kinds).
Proof.
  apply (Scan_err_only_on_Invalid example_unterminated
           example_unterminated_token None (after_Scan example_unterminated)).
  vm_compute. reflexivity.
Defined.

Lemma after_unread_not_silent scanner k scanner' :
  (forall scanner0 scanner1, k scanner0 <> ((None, None), scanner1)) ->
  after_unread scanner k <> ((None, None), scanner').
Proof.
  intros Hk. unfold after_unread.
  destruct (unread scanner) as [[e0|] scanner0]; [discriminate|apply Hk].
Qed.

Lemma scanWhiteSpace_not_silent scanner scanner' :
  scanWhiteSpace scanner <> ((None, None), scanner').
Proof.
  unfold scanWhiteSpace.
  destruct (scanWhiteSpace_loop scanner [] false); discriminate.
Qed.

Lemma scanToEndOfLine_not_silent ty scanner scanner' :
  scanToEndOfLine scanner ty <> ((None, None), scanner').
Proof.
  unfold scanToEndOfLine.
  destruct (scanToEndOfLine_loop scanner []); discriminate.
Qed.

Lemma scanWord_not_silent scanner scanner' :
  scanWord scanner <> ((None, None), scanner').
Proof.
  unfold scanWord. destruct (scanWord_loop scanner []); discriminate.
Qed.

Lemma Scan_not_silent scanner scanner' :
  Scan scanner <> ((None, None), scanner').
Proof.
  intros H.
  destruct (pending (reader scanner)) as [|c tail] eqn:Hp.
  { destruct (Scan_at_eof _ Hp) as (S & _). rewrite S in H. discriminate. }
  destruct (Z.eq_dec c rQuote) as [->|Nq].
  { destruct (Scan_quote _ _ Hp) as (scanner1 & _ & S). rewrite S in H.
    destruct (scanStringWord_loop_exit scanner1 [rQuote] false)
      as [(s2 & E)|(mid & s2 & E)]; rewrite E in H.
    - discriminate.
    - change ([rQuote] ++ mid ++ [rQuote]) with (rQuote :: mid ++ [rQuote]) in H.
      rewrite processStringWord_quoted in H. discriminate. }
  destruct (read_cons _ _ _ Hp) as (R & _ & _).
  unfold Scan in H. rewrite R in H. cbv beta iota zeta in H.
  apply Z.eqb_neq in Nq.
  assert (K : forall res : ScanResult,
    (forall s1, res <> ((None, None), s1)) ->
    (let '(token, e', scanner'0) := res in
     (option_map (with_startPos (pos (snd (read scanner)))) token, e', scanner'0))
      = (None, None, scanner') ->
    False).
  { intros [[[t|] e1] s1] Hres E; inversion E; subst.
    exact (Hres _ eq_refl). }
  revert H. apply K. intros s1.
  destruct (c =? rNewline); [discriminate|].
  destruct (IsSpace c).
  { apply after_unread_not_silent. intros s0 s2.
    apply scanWhiteSpace_not_silent. }
  destruct (c =? rHash).
  { apply after_unread_not_silent. intros s0 s2.
    apply scanToEndOfLine_not_silent. }
  destruct ((c =? rBang) || (c =? rAt)).
  { apply after_unread_not_silent. intros s0 s2.
    apply scanToEndOfLine_not_silent. }
  destruct (c =? rDash).
  { destruct (snd (fst (Peek (reader (snd (read scanner))) 1))); [discriminate|].
    destruct ((length (fst (fst (Peek (reader (snd (read scanner))) 1)))
               =? 1)%nat
              && (nth 0 (fst (fst (Peek (reader (snd (read scanner))) 1))) 0
                  =? rDash)).
    - pose proof (scanWord_not_silent
                    (with_reader (snd (read scanner))
                       (snd (Peek (reader (snd (read scanner))) 1)))) as W.
      destruct (scanWord (with_reader (snd (read scanner))
                  (snd (Peek (reader (snd (read scanner))) 1))))
        as [[[t0|] [e3|]] s3]; try discriminate.
      + destruct (negb (tokenType t0 =? CtkInvalid)); discriminate.
      + exfalso. exact (W s3 eq_refl).
    - apply after_unread_not_silent. intros s0 s2. apply scanWord_not_silent. }
  rewrite Nq.
  apply after_unread_not_silent. intros s0 s2. apply scanWord_not_silent.
Qed.

(** X6.  [Scan] returns a token with a nil error, or no token with an
    error of the stream: never both, never neither.  [scanStringWord] on
    its own does return neither at the end of the stream, but [Scan] calls
    it in front of a quote only. *)
Theorem Scan_token_or_error scanner :
  ((exists tok scanner', Scan scanner = ((Some tok, None), scanner'))
   \/ (exists e scanner',
         Scan scanner = ((None, Some e), scanner') /\ stream_error e))
  /\ (pending (reader scanner) = [] ->
      fst (scanStringWord scanner) = (None, None)).
Proof.
  split.
  - destruct (Scan scanner) as [[[tok|] [e|]] scanner'] eqn:E.
    + destruct (Scan_token _ _ _ _ E) as (He & _). discriminate.
    + left. eauto.
    + right. exists e, scanner'. split; [reflexivity|].
      exact (Scan_error _ _ _ _ E).
    + exfalso. exact (Scan_not_silent _ _ E).
  - intros Hp. unfold scanStringWord.
    destruct (read_nil _ Hp) as (R & _). rewrite R. reflexivity.
Qed.

Lemma Scan_token_or_error_witness :
  fst (scanStringWord example_empty) = (None, None).
Proof.
  apply (proj2 (Scan_token_or_error example_empty)). reflexivity.
Defined.

(** X7.  The EOF token has an empty value and starts and ends at the same
    position, in a column other than 0: the end of an empty stream is at
    column 1.  [Scan] returns it exactly when nothing is left to read, and
    leaves nothing to read. *)
Theorem Scan_EOF_token scanner tok e scanner' :
  Scan scanner = ((Some tok, e), scanner') ->
  (tokenType tok = CtkEOF <-> pending (reader scanner) = [])
  /\ (tokenType tok = CtkEOF ->
      value tok = []
      /\ startPos tok = endPos tok
      /\ col (endPos tok) <> 0
      /\ line (endPos tok) = line (pos scanner)
      /\ pending (reader scanner') = []).
Proof.
  intros H. destruct (Scan_token _ _ _ _ H) as (_ & _ & _ & Hk).
  split; [exact Hk|]. intros K. apply Hk in K.
  destruct (Scan_at_eof _ K) as (S & P). rewrite S in H. inversion H; subst.
  simpl. repeat split; try exact P.
  - unfold read, ReadRune. rewrite K. simpl.
    destruct (col (pos scanner) =? 0) eqn:C; simpl; [discriminate|].
    apply Z.eqb_neq. exact C.
  - unfold read, ReadRune. rewrite K. simpl.
    destruct (col (pos scanner) =? 0); reflexivity.
Qed.

Lemma Scan_EOF_token_witness :
  (tokenType example_empty_token = CtkEOF <-> pending (reader example_empty) = [])
  /\ (tokenType example_empty_token = CtkEOF ->
      value example_empty_token = []
      /\ startPos example_empty_token = endPos example_empty_token
      /\ col (endPos example_empty_token) <> 0
      /\ line (endPos example_empty_token) = line (pos example_empty)
      /\ pending (reader (after_Scan example_empty)) = []).
Proof.
  apply (Scan_EOF_token example_empty example_empty_token None
           (after_Scan example_empty)).
  vm_compute. reflexivity.
Defined.

(** ** How far a call of Scan gets *)

Lemma space_not_backslash c : IsSpace c = true -> (c =? rBackslash) = false.
Proof.
  intros H. destruct (c =? rBackslash) eqn:E; [|reflexivity].
  apply Z.eqb_eq in E. subst c. vm_compute in H. discriminate.
Qed.

Lemma scanWhiteSpace_loop_first scanner c tail buffer escape :
  pending (reader scanner) = c :: tail ->
  IsSpace c = true -> (c =? rNewline) = false ->
  scanWhiteSpace_loop scanner buffer escape =
  scanWhiteSpace_loop (snd (read scanner)) (buffer ++ [c]) false.
Proof.
  intros Hp Hs Hn. destruct (read_cons _ _ _ Hp) as (R & _).
  rewrite scanWhiteSpace_loop_eq, R.
  rewrite (space_not_backslash _ Hs), Hn, Hs. reflexivity.
Qed.

Lemma scanToEndOfLine_loop_first scanner c tail buffer :
  pending (reader scanner) = c :: tail ->
  (c =? rNewline) = false ->
  scanToEndOfLine_loop scanner buffer =
  scanToEndOfLine_loop (snd (read scanner)) (buffer ++ [c]).
Proof.
  intros Hp Hn. destruct (read_cons _ _ _ Hp) as (R & _).
  rewrite scanToEndOfLine_loop_eq, R, Hn. reflexivity.
Qed.

Lemma scanWord_loop_first scanner c tail buffer :
  pending (reader scanner) = c :: tail ->
  IsSpace c = false ->
  scanWord_loop scanner buffer =
  scanWord_loop (snd (read scanner)) (buffer ++ [c]).
Proof.
  intros Hp Hs. destruct (read_cons _ _ _ Hp) as (R & _).
  rewrite scanWord_loop_eq, R, Hs. reflexivity.
Qed.

(** A pushback that succeeds after the look-ahead is the pushback of the
    rune read before it. *)
Lemma unread_after_Peek_succeeds scanner n scanner' :
  unread (with_reader scanner (snd (Peek (reader scanner) n))) =
    (None, scanner') ->
  unread scanner = (None, scanner').
Proof.
  destruct scanner as [[pd lr pf] p l llec].
  unfold unread, UnreadRune, with_reader, Peek. simpl.
  destruct pf; simpl; [discriminate|]. intros H. exact H.
Qed.

Lemma unread_refused scanner e scanner' :
  unread scanner = (Some e, scanner') -> scanner' = scanner.
Proof.
  destruct scanner as [[pd lr pf] p l llec].
  unfold unread, UnreadRune, with_reader. simpl.
  destruct lr; simpl; intros H; inversion H; reflexivity.
Qed.

(** The loops and [Scan] go forward: a property [Pre] that holds before a
    [read], that [Peek] keeps and that a pushback after that [read] gives
    back, holds where a loop ends.  [Inv] is what holds between the [read]
    and the pushback. *)
Section Advance.

Variables Pre Inv : ConfigScanner -> Prop.
Hypothesis Inv_Pre : forall scanner, Inv scanner -> Pre scanner.
Hypothesis Pre_read : forall scanner, Pre scanner -> Inv (snd (read scanner)).
Hypothesis Inv_Peek :
  forall scanner n,
    Inv scanner -> Inv (with_reader scanner (snd (Peek (reader scanner) n))).
Hypothesis Inv_unread :
  forall scanner, Inv scanner -> Pre (snd (unread scanner)).

Lemma unread_exit_advance {A : Type} scanner (vars : A) :
  Inv scanner ->
  Pre (exit_scanner
         match unread scanner with
         | (Some e, scanner2) => Return e scanner2
         | (None, scanner2) => Break vars scanner2
         end).
Proof.
  intros H. apply Inv_unread in H.
  destruct (unread scanner) as [[e|] scanner2]; exact H.
Qed.

Lemma scanWord_loop_advance l :
  forall scanner buffer,
    pending (reader scanner) = l ->
    Pre scanner -> Pre (exit_scanner (scanWord_loop scanner buffer)).
Proof.
  induction l as [|c l IH]; intros scanner buffer Hp H;
    rewrite scanWord_loop_eq; apply Pre_read in H.
  - destruct (read_nil _ Hp) as (R & _). rewrite R. apply Inv_Pre, H.
  - destruct (read_cons _ _ _ Hp) as (R & P & _). rewrite R.
    destruct (IsSpace c).
    + apply unread_exit_advance. exact H.
    + apply IH; [exact P|apply Inv_Pre, H].
Qed.

Lemma scanToEndOfLine_loop_advance l :
  forall scanner buffer,
    pending (reader scanner) = l ->
    Pre scanner -> Pre (exit_scanner (scanToEndOfLine_loop scanner buffer)).
Proof.
  induction l as [|c l IH]; intros scanner buffer Hp H;
    rewrite scanToEndOfLine_loop_eq; apply Pre_read in H.
  - destruct (read_nil _ Hp) as (R & _). rewrite R. apply Inv_Pre, H.
  - destruct (read_cons _ _ _ Hp) as (R & P & _). rewrite R.
    destruct (c =? rNewline).
    + apply unread_exit_advance. exact H.
    + apply IH; [exact P|apply Inv_Pre, H].
Qed.

Lemma scanWhiteSpace_loop_advance l :
  forall scanner buffer escape,
    pending (reader scanner) = l ->
    Pre scanner ->
    Pre (exit_scanner (scanWhiteSpace_loop scanner buffer escape)).
Proof.
  induction l as [|c l IH]; intros scanner buffer escape Hp H;
    rewrite scanWhiteSpace_loop_eq; apply Pre_read in H.
  - destruct (read_nil _ Hp) as (R & _). rewrite R. apply Inv_Pre, H.
  - destruct (read_cons _ _ _ Hp) as (R & P & _). rewrite R.
    cbv beta iota zeta.
    destruct (c =? rBackslash).
    + pose proof (Inv_Peek _ 1%nat H) as H2.
      destruct (snd (fst (Peek (reader (snd (read scanner))) 1)));
        [apply Inv_Pre, H2|].
      destruct ((length (fst (fst (Peek (reader (snd (read scanner))) 1)))
                 =? 1)%nat
                && (nth 0 (fst (fst (Peek (reader (snd (read scanner))) 1))) 0
                    =? rNewline)).
      * apply IH; [exact P|apply Inv_Pre, H2].
      * apply unread_exit_advance. exact H2.
    + destruct (c =? rNewline).
      * destruct (negb escape).
        -- apply unread_exit_advance. exact H.
        -- apply IH; [exact P|apply Inv_Pre, H].
      * destruct (negb (IsSpace c)).
        -- apply unread_exit_advance. exact H.
        -- apply IH; [exact P|apply Inv_Pre, H].
Qed.

Lemma scanStringWord_loop_advance l :
  forall scanner buffer escape,
    pending (reader scanner) = l ->
    Pre scanner ->
    Pre (exit_scanner (scanStringWord_loop scanner buffer escape)).
Proof.
  induction l as [|c l IH]; intros scanner buffer escape Hp H;
    rewrite scanStringWord_loop_eq; apply Pre_read in H.
  - destruct (read_nil _ Hp) as (R & _). rewrite R. apply Inv_Pre, H.
  - destruct (read_cons _ _ _ Hp) as (R & P & _). rewrite R.
    apply Inv_Pre in H.
    destruct (c =? rBackslash).
    + destruct (negb escape); apply IH; assumption.
    + destruct (c =? rQuote).
      * destruct (negb escape); [exact H|apply IH; assumption].
      * apply IH; assumption.
Qed.

(** [Scan] in front of a rune: [Pre] holds where the call ends when it
    holds where each of its sub-scanners takes over, that is after the
    first [read], after that rune is pushed back and read again, and after
    the look-ahead behind a dash. *)
Lemma Scan_advance scanner c tail :
  pending (reader scanner) = c :: tail ->
  Pre (snd (read scanner)) ->
  Pre (snd (read (snd (unread (snd (read scanner)))))) ->
  Pre (with_reader (snd (read scanner))
         (snd (Peek (reader (snd (read scanner))) 1))) ->
  Pre (snd (Scan scanner)).
Proof.
  intros Hp H1 H2 H3.
  destruct (read_cons _ _ _ Hp) as (R & P & L).
  destruct (unread_after_read _ _ _ Hp) as (U & PU).
  set (scanner1 := snd (read scanner)) in *.
  set (scanner0 := snd (unread scanner1)) in *.
  destruct (read_cons _ _ _ PU) as (R0 & P0 & _).
  unfold Scan. rewrite R. cbv beta iota zeta. fold scanner1.
  assert (K : forall res : ScanResult,
    Pre (snd res) ->
    Pre (snd (let '(token, e', scanner') := res in
              (option_map (with_startPos (pos scanner1)) token, e', scanner')))).
  { intros [[t e1] s1] Hres. exact Hres. }
  apply K.
  destruct (c =? rNewline) eqn:N; [exact H1|].
  destruct (IsSpace c) eqn:S.
  { unfold after_unread. rewrite U. fold scanner0. unfold scanWhiteSpace.
    rewrite (scanWhiteSpace_loop_first _ _ _ _ _ PU S N).
    pose proof (scanWhiteSpace_loop_advance _ (snd (read scanner0))
                  ([] ++ [c]) false eq_refl H2) as E.
    destruct (scanWhiteSpace_loop (snd (read scanner0)) ([] ++ [c]) false);
      exact E. }
  assert (Eol : forall ty, Pre (snd (scanToEndOfLine scanner0 ty))).
  { intros ty. unfold scanToEndOfLine.
    rewrite (scanToEndOfLine_loop_first _ _ _ _ PU N).
    pose proof (scanToEndOfLine_loop_advance _ (snd (read scanner0))
                  ([] ++ [c]) eq_refl H2) as E.
    destruct (scanToEndOfLine_loop (snd (read scanner0)) ([] ++ [c]));
      exact E. }
  assert (Word : Pre (snd (scanWord scanner0))).
  { unfold scanWord. rewrite (scanWord_loop_first _ _ _ _ PU S).
    pose proof (scanWord_loop_advance _ (snd (read scanner0))
                  ([] ++ [c]) eq_refl H2) as E.
    destruct (scanWord_loop (snd (read scanner0)) ([] ++ [c])); exact E. }
  destruct (c =? rHash).
  { unfold after_unread. rewrite U. apply Eol. }
  destruct ((c =? rBang) || (c =? rAt)).
  { unfold after_unread. rewrite U. apply Eol. }
  destruct (c =? rDash).
  { set (scanner2 := with_reader scanner1 (snd (Peek (reader scanner1) 1))) in *.
    destruct (snd (fst (Peek (reader scanner1) 1))); [exact H3|].
    destruct ((length (fst (fst (Peek (reader scanner1) 1))) =? 1)%nat
              && (nth 0 (fst (fst (Peek (reader scanner1) 1))) 0 =? rDash)).
    - pose proof (scanWord_loop_advance _ scanner2 [] eq_refl H3) as E.
      unfold scanWord.
      destruct (scanWord_loop scanner2 []); exact E.
    - unfold after_unread.
      destruct (unread scanner2) as [[e0|] scanner3] eqn:U2.
      + rewrite (unread_refused _ _ _ U2). exact H3.
      + apply unread_after_Peek_succeeds in U2. fold scanner1 in U2.
        rewrite U in U2. inversion U2. exact Word. }
  destruct (c =? rQuote).
  { unfold after_unread. rewrite U. fold scanner0. unfold scanStringWord.
    rewrite R0. cbn [is_nil negb orb].
    pose proof (scanStringWord_loop_advance _ (snd (read scanner0))
                  [c] false eq_refl H2) as E.
    destruct (scanStringWord_loop (snd (read scanner0)) [c] false)
      as [e1 s2|[buffer found] s2]; [exact E|].
    destruct found; [|exact E].
    destruct (processStringWord buffer) as [word [e1|]]; exact E. }
  unfold after_unread. rewrite U. exact Word.
Qed.

End Advance.

Lemma read_left scanner k :
  (remaining scanner <= k)%nat ->
  (remaining (snd (read scanner)) + pushable (snd (read scanner)) <= k)%nat.
Proof.
  unfold remaining, pushable, read, ReadRune.
  destruct (pending (reader scanner)) as [|r rest]; simpl; [lia|].
  destruct (lastCharLineEnd scanner); simpl; lia.
Qed.

Lemma Peek_left scanner n k :
  (remaining scanner + pushable scanner <= k)%nat ->
  (remaining (with_reader scanner (snd (Peek (reader scanner) n)))
   + pushable (with_reader scanner (snd (Peek (reader scanner) n))) <= k)%nat.
Proof.
  unfold remaining, pushable, with_reader, Peek. simpl.
  destruct (peekForgets (reader scanner)); simpl;
    destruct (lastRune (reader scanner)); lia.
Qed.

Lemma unread_left scanner k :
  (remaining scanner + pushable scanner <= k)%nat ->
  (remaining (snd (unread scanner)) <= k)%nat.
Proof.
  unfold remaining, pushable, unread, UnreadRune.
  destruct (lastRune (reader scanner)); simpl; [|lia].
  destruct ((1 <? line (pos scanner)) && (col (pos scanner) =? 1)); simpl; lia.
Qed.

Lemma Scan_leaves_tail scanner c tail :
  pending (reader scanner) = c :: tail ->
  (remaining (after_Scan scanner) <= length tail)%nat.
Proof.
  intros Hp.
  destruct (read_cons _ _ _ Hp) as (_ & P & _).
  destruct (unread_after_read _ _ _ Hp) as (_ & PU).
  destruct (read_cons _ _ _ PU) as (_ & P0 & _).
  apply (Scan_advance
           (fun s => (remaining s <= length tail)%nat)
           (fun s => (remaining s + pushable s <= length tail)%nat))
    with (c := c) (tail := tail).
  - intros s H. lia.
  - intros s H. apply read_left. exact H.
  - intros s n H. apply Peek_left. exact H.
  - intros s H. apply unread_left. exact H.
  - exact Hp.
  - unfold remaining. rewrite P. lia.
  - unfold remaining. rewrite P0. lia.
  - unfold remaining. simpl. rewrite P. lia.
Qed.

(** X8.  A call of [Scan] with something left to read consumes at least one
    rune, whether it returns a token or an error: what a sub-scanner pushes
    back is never the rune the call started on. *)
Theorem Scan_consumes scanner :
  pending (reader scanner) <> [] ->
  (remaining (after_Scan scanner) < remaining scanner)%nat.
Proof.
  intros Hne.
  destruct (pending (reader scanner)) as [|c tail] eqn:Hp; [contradiction|].
  pose proof (Scan_leaves_tail _ _ _ Hp) as E.
  unfold remaining at 2. rewrite Hp. simpl. lia.
Qed.

Lemma Scan_consumes_witness :
  (remaining (after_Scan example_two_words) < remaining example_two_words)%nat.
Proof.
  apply Scan_consumes. discriminate.
Defined.

Lemma Scan_left scanner :
  (remaining (after_Scan scanner) <= remaining scanner - 1)%nat.
Proof.
  destruct (pending (reader scanner)) as [|c tail] eqn:Hp.
  - unfold after_Scan. destruct (Scan_at_eof _ Hp) as (S & P).
    rewrite S. unfold remaining. simpl. rewrite P. simpl. lia.
  - pose proof (Scan_leaves_tail _ _ _ Hp) as E.
    unfold remaining at 2. rewrite Hp. simpl. lia.
Qed.

Lemma Scan_iter_left n :
  forall scanner,
    (remaining (Nat.iter n after_Scan scanner) <= remaining scanner - n)%nat.
Proof.
  induction n as [|n IH]; intros scanner; simpl; [lia|].
  pose proof (Scan_left (Nat.iter n after_Scan scanner)).
  specialize (IH scanner). lia.
Qed.

(** X9.  A stream of [n] runes is used up after [n] calls of [Scan],
    whatever tokens and errors they returned: the call after them returns
    the EOF token. *)
Theorem Scan_reaches_EOF scanner n :
  (remaining scanner <= n)%nat ->
  exists tok,
    fst (Scan (Nat.iter n after_Scan scanner)) = (Some tok, None)
    /\ tokenType tok = CtkEOF.
Proof.
  intros H. pose proof (Scan_iter_left n scanner) as L.
  assert (P : pending (reader (Nat.iter n after_Scan scanner)) = []).
  { unfold remaining in L, H.
    destruct (pending (reader (Nat.iter n after_Scan scanner)));
      [reflexivity|simpl in L; lia]. }
  destruct (Scan_at_eof _ P) as (S & _). rewrite S.
  eexists. split; reflexivity.
Qed.

Lemma Scan_reaches_EOF_witness :
  exists tok,
    fst (Scan (Nat.iter 5 after_Scan example_two_words)) = (Some tok, None)
    /\ tokenType tok = CtkEOF.
Proof.
  apply Scan_reaches_EOF. vm_compute. repeat constructor.
Defined.

(** ** Where a token starts and ends *)

Lemma pos_le_refl p : pos_le p p.
Proof. unfold pos_le. right. lia. Qed.

Lemma pos_le_trans p q r : pos_le p q -> pos_le q r -> pos_le p r.
Proof. unfold pos_le. intros [A|[A B]] [C|[C D]]; lia. Qed.

Lemma read_pos_le N scanner :
  N + 2 < uint_modulus ->
  counters_ok N scanner ->
  pos_le (pos scanner) (pos (snd (read scanner))).
Proof.
  intros HN.
  destruct scanner as [[pd lr pf] [ln cl] l llec].
  unfold counters_ok, pos_le, read, ReadRune, remaining, pushed_back_slack.
  scanner_fields.
  intros (H0 & H1 & H2 & H3 & H4 & H5 & H6 & H7).
  destruct pd as [|r rest]; scanner_fields.
  - destruct (Z.eqb_spec cl 0); scanner_fields; lia.
  - assert (Wl : wrap (ln + 1) = ln + 1)
      by (apply wrap_small; destruct lr; counters).
    assert (Wc : wrap (cl + 1) = cl + 1)
      by (apply wrap_small; lia).
    destruct l; scanner_fields; rewrite ?Wl, ?Wc; lia.
Qed.

Lemma unread_nothing scanner :
  lastRune (reader scanner) = None ->
  pos (snd (unread scanner)) = pos scanner.
Proof.
  intros H. unfold unread, UnreadRune. rewrite H. reflexivity.
Qed.

Lemma unread_after_Peek_pos scanner n :
  pos (snd (unread (with_reader scanner (snd (Peek (reader scanner) n))))) =
    pos (snd (unread scanner))
  \/ pos (snd (unread (with_reader scanner (snd (Peek (reader scanner) n))))) =
     pos scanner.
Proof.
  destruct scanner as [[pd lr pf] p l llec].
  unfold unread, UnreadRune, with_reader, Peek. simpl.
  destruct pf; simpl; [right; reflexivity|].
  destruct lr; simpl; [left|right]; reflexivity.
Qed.

(** X10.  In a scan of an input short enough for the counters not to wrap,
    a token never ends before it starts: [startPos] is at or before
    [endPos], by line and then by column. *)
Theorem Scan_startPos_le_endPos input forgets scanner tok e scanner' :
  Z.of_nat (length input) + 2 < uint_modulus ->
  reachable input forgets scanner ->
  Scan scanner = ((Some tok, e), scanner') ->
  pos_le (startPos tok) (endPos tok).
Proof.
  intros HN Hr H.
  destruct (Scan_token _ _ _ _ H) as (_ & Hs & He & _).
  rewrite Hs, He.
  replace scanner' with (snd (Scan scanner)) by (rewrite H; reflexivity).
  clear H Hs He tok e scanner'.
  pose proof (reachable_counters_ok _ _ _ HN Hr) as C.
  set (N := Z.of_nat (length input)) in *.
  destruct (pending (reader scanner)) as [|c tail] eqn:Hp.
  { destruct (Scan_at_eof _ Hp) as (S & _). rewrite S. apply pos_le_refl. }
  set (p := pos (snd (read scanner))).
  pose proof (read_counters_ok _ _ HN C) as C1.
  destruct (read_cons _ _ _ Hp) as (R & _ & _).
  destruct (unread_inverts_read_at _ _ _ (counters_ok_pos_ok _ _ HN C) R)
    as (scanner2 & U & _ & _ & _ & R2).
  assert (G : counters_ok N (snd (Scan scanner))
              /\ pos_le p (pos (snd (Scan scanner)))).
  { apply (Scan_advance
             (fun s => counters_ok N s /\ pos_le p (pos s))
             (fun s => counters_ok N s /\ pos_le p (pos s)
                       /\ pos_le p (pos (snd (unread s)))))
      with (c := c) (tail := tail).
    - intros s (A & B & _). auto.
    - intros s (A & B). split; [apply read_counters_ok; assumption|].
      pose proof (read_pos_le _ _ HN A) as M.
      split; [exact (pos_le_trans _ _ _ B M)|].
      destruct (pending (reader s)) as [|r rest] eqn:Ps.
      + destruct (read_nil _ Ps) as (_ & _ & Ln).
        rewrite (unread_nothing _ Ln). exact (pos_le_trans _ _ _ B M).
      + destruct (read_cons _ _ _ Ps) as (Rs & _ & _).
        destruct (unread_inverts_read_at _ _ _
                    (counters_ok_pos_ok _ _ HN A) Rs)
          as (s2 & Us & Es & _).
        rewrite Us. simpl. rewrite Es. exact B.
    - intros s n (A & B & D). split; [apply Peek_counters_ok; exact A|].
      split; [exact B|].
      destruct (unread_after_Peek_pos s n) as [E|E]; rewrite E; assumption.
    - intros s (A & B & D). split; [apply unread_counters_ok; assumption|].
      exact D.
    - exact Hp.
    - split; [exact C1|apply pos_le_refl].
    - rewrite U. simpl. rewrite R2. simpl.
      split; [exact C1|apply pos_le_refl].
    - split; [apply Peek_counters_ok; exact C1|apply pos_le_refl]. }
  exact (proj2 G).
Qed.

Lemma Scan_startPos_le_endPos_witness :
  pos_le (startPos example_continuation_token)
         (endPos example_continuation_token).
Proof.
  apply (Scan_startPos_le_endPos
           (runes "a \" ++ [rNewline] ++ runes "  b") true
           example_continuation example_continuation_token None
           (after_Scan example_continuation)).
  - reflexivity.
  - apply Scan_reachable, reach_new.
  - vm_compute. reflexivity.
Defined.

(** ** Naming token types *)

Lemma ConfigTokenName_loop_tests fuel :
  forall i t tokens (test : ConfigTokenType -> bool),
    (forall k, test k = negb (Z.land k t =? 0)) ->
    ConfigTokenName_loop fuel i t tokens =
    (fix loop (fuel : nat) (i : ConfigTokenType) (tokens : list string) :=
       match fuel with
       | O => None
       | S fuel' =>
           if i <? CtkCount then
             loop fuel' (wrap (Z.shiftl i 1))
               (if test i then tokens ++ [map_index configTokenNames i]
                else tokens)
           else Some tokens
       end) fuel i tokens.
Proof.
  induction fuel as [|fuel IH]; intros i t tokens test Ht; [reflexivity|].
  simpl. destruct (i <? CtkCount); [|reflexivity].
  rewrite (IH _ _ _ test Ht), Ht. reflexivity.
Qed.

Lemma ConfigTokenName_loop_names fuel t :
  (9 <= fuel)%nat ->
  ConfigTokenName_loop fuel CtkInvalid t [] = Some (names_of t).
Proof.
  intros Hf.
  do 9 (destruct fuel as [|fuel]; [lia|]).
  pose (test := fun k => negb (Z.land k t =? 0)).
  change (names_of t)
    with (map snd (filter (fun kv => test (fst kv)) configTokenNames)).
  rewrite (ConfigTokenName_loop_tests _ _ _ _ test (fun k => eq_refl)).
  clearbody test. cbv.
  destruct (test 1), (test 2), (test 4), (test 8), (test 16), (test 32),
    (test 64), (test 128); reflexivity.
Qed.

Lemma names_of_low_bits t : names_of (Z.land t (CtkCount - 1)) = names_of t.
Proof.
  unfold names_of. f_equal. apply filter_ext_in. intros [k v] Hin.
  cbn [fst]. f_equal. f_equal.
  rewrite (Z.land_comm t), Z.land_assoc. f_equal.
  unfold configTokenNames in Hin. simpl in Hin.
  repeat (destruct Hin as [Hin|Hin];
          [inversion Hin; subst; reflexivity|]).
  contradiction.
Qed.

(** X11.  [ConfigTokenName] returns, for every token type, the names of the
    kinds whose bit is set, in the order Invalid, Word, Option, White
    Space, Comment, Shell Command, Terminator, EOF, joined by " or "; bits
    from [CtkCount] on do not count. *)
Theorem ConfigTokenName_joins_names tokenType :
  ConfigTokenName tokenType = Some (strings_Join (names_of tokenType) " or ")
  /\ ConfigTokenName (Z.land tokenType (CtkCount - 1)) =
     ConfigTokenName tokenType.
Proof.
  assert (E : forall t,
    ConfigTokenName t = Some (strings_Join (names_of t) " or ")).
  { intros t. unfold ConfigTokenName.
    rewrite ConfigTokenName_loop_names by (unfold ConfigTokenName_fuel; lia).
    reflexivity. }
  split; [apply E|]. rewrite !E, names_of_low_bits. reflexivity.
Qed.

(** X12.  The type of a token that [Scan] returns is one kind, not a union:
    [ConfigTokenName] gives it the one name that [configTokenNames] holds
    for it. *)
Theorem Scan_token_name scanner tok e scanner' :
  Scan scanner = ((Some tok, e), scanner') ->
  exists name,
    In (tokenType tok, name) configTokenNames
    /\ ConfigTokenName (tokenType tok) = Some name.
Proof.
  intros H. apply Scan_token_fields in H.
  assert (K : In (tokenType tok) (CtkInvalid :: valid_kinds)).
  { destruct H as [[Hk _]|[Hk _]]; [right; exact Hk|left; symmetry; exact Hk]. }
  unfold valid_kinds in K. simpl in K.
  repeat (destruct K as [K|K];
          [rewrite <- K; eexists; split;
           [|vm_compute; reflexivity]; unfold configTokenNames; simpl; tauto|]).
  contradiction.
Qed.

Lemma Scan_token_name_witness :
  exists name,
    In (tokenType example_verbose_token, name) configTokenNames
    /\ ConfigTokenName (tokenType example_verbose_token) = Some name.
Proof.
  apply (Scan_token_name example_verbose example_verbose_token None
           (after_Scan example_verbose)).
  vm_compute. reflexivity.
Defined.

Example ConfigTokenName_Word_or_Option :
  ConfigTokenName (Z.lor CtkWord CtkOption) = Some "Word or Option"%string.
Proof. reflexivity. Qed.

(** ** Comparing tokens *)

Lemma string_eqb_eq a b : string_eqb a b = true <-> a = b.
Proof.
  unfold string_eqb. destruct (list_eq_dec Z.eq_dec a b); split;
    intros H; try reflexivity; try assumption; try discriminate.
  contradiction.
Qed.

Lemma ConfigScannerPos_eqb_eq p q : ConfigScannerPos_eqb p q = true <-> p = q.
Proof.
  unfold ConfigScannerPos_eqb. destruct p as [l1 c1], q as [l2 c2]. simpl.
  rewrite andb_true_iff, !Z.eqb_eq. split.
  - intros [-> ->]. reflexivity.
  - intros H. inversion H. auto.
Qed.

Lemma err_eqb_eq (Error : error -> string) (e1 e2 : option error) :
  match e1, e2 with
  | None, None => true
  | Some a, Some b => String.eqb (Error a) (Error b)
  | _, _ => false
  end = true <->
  option_map Error e1 = option_map Error e2.
Proof.
  destruct e1 as [a|], e2 as [b|]; simpl; split; intros H;
    try discriminate; try reflexivity.
  - apply String.eqb_eq in H. rewrite H. reflexivity.
  - apply String.eqb_eq. congruence.
Qed.

(** X14.  [Equal] is an equivalence on tokens: reflexive, symmetric and
    transitive, whatever the texts of the errors are. *)
Theorem Equal_equivalence (Error : error -> string) :
  (forall t, Equal Error t (Some t) = true)
  /\ (forall t u, Equal Error t (Some u) = Equal Error u (Some t))
  /\ (forall t u v,
        Equal Error t (Some u) = true ->
        Equal Error u (Some v) = true ->
        Equal Error t (Some v) = true).
Proof.
  assert (I : forall t u,
    Equal Error t (Some u) = true <->
    tokenType t = tokenType u /\ value t = value u
    /\ startPos t = startPos u /\ endPos t = endPos u
    /\ option_map Error (err t) = option_map Error (err u)).
  { intros t u. unfold Equal.
    rewrite !andb_true_iff, Z.eqb_eq, string_eqb_eq, !ConfigScannerPos_eqb_eq,
      err_eqb_eq.
    tauto. }
  assert (S : forall t u,
    Equal Error t (Some u) = true -> Equal Error u (Some t) = true).
  { intros t u H. apply I in H. apply I.
    destruct H as (A & B & C & D & E). repeat split; symmetry; assumption. }
  split; [|split].
  - intros t. apply I. repeat split.
  - intros t u.
    destruct (Equal Error t (Some u)) eqn:A, (Equal Error u (Some t)) eqn:B;
      try reflexivity.
    + apply S in A. congruence.
    + apply S in B. congruence.
  - intros t u v H1 H2. apply I in H1. apply I in H2. apply I.
    destruct H1 as (A1 & B1 & C1 & D1 & E1).
    destruct H2 as (A2 & B2 & C2 & D2 & E2).
    repeat split; etransitivity; eassumption.
Qed.

Lemma Equal_equivalence_witness :
  Equal example_Error (example_token_with io_EOF)
    (Some (example_token_with io_EOF)) = true.
Proof.
  apply (proj2 (proj2 (Equal_equivalence example_Error))
           (example_token_with io_EOF)
           (example_token_with (errors_New "EOF"))
           (example_token_with io_EOF)); reflexivity.
Defined.

(** ** Decoding a quoted string *)

(** X15.  [processStringWord] accepts the strings that start and end with a
    double quote, the two being different runes of the string, and returns
    the text between them decoded; every other string it returns as it is,
    with the error "Invalid string word". *)
Theorem processStringWord_accepts str :
  (forall interior,
     str = rQuote :: interior ++ [rQuote] ->
     processStringWord str = (spec_unescape interior, None))
  /\ ((forall interior, str <> rQuote :: interior ++ [rQuote]) ->
      processStringWord str =
        (str, Some (fmt_Errorf "Invalid string word: %v" str))).
Proof.
  split.
  - intros interior ->. apply processStringWord_quoted.
  - intros Hno. unfold processStringWord.
    destruct ((length str <? 2)%nat
              || negb (nth 0 str 0 =? rQuote)
              || negb (nth (length str - 1) str 0 =? rQuote)) eqn:C;
      [reflexivity|].
    exfalso.
    apply orb_false_iff in C. destruct C as [C C3].
    apply orb_false_iff in C. destruct C as [C1 C2].
    apply Nat.ltb_ge in C1.
    apply negb_false_iff, Z.eqb_eq in C2.
    apply negb_false_iff, Z.eqb_eq in C3.
    destruct str as [|a rest]; [simpl in C1; lia|].
    simpl in C2. subst a.
    assert (Hr : rest <> []) by (destruct rest; [simpl in C1; lia|discriminate]).
    destruct (exists_last Hr) as (interior & z & ->).
    change (rQuote :: interior ++ [z]) with ((rQuote :: interior) ++ [z]) in C3.
    replace (length ((rQuote :: interior) ++ [z]) - 1)%nat
      with (length (rQuote :: interior)) in C3
      by (rewrite length_app; simpl; lia).
    rewrite nth_last in C3. subst z.
    exact (Hno interior eq_refl).
Qed.

Lemma processStringWord_accepts_witness :
  processStringWord (runes "abc") =
    (runes "abc", Some (fmt_Errorf "Invalid string word: %v" (runes "abc"))).
Proof.
  apply (proj2 (processStringWord_accepts (runes "abc"))).
  intros interior H. discriminate H.
Defined.

Lemma escape_after_literal p :
  escape_after false (flat_map literal_rune p) = Some false.
Proof.
  induction p as [|c p IH]; [reflexivity|].
  simpl. unfold literal_rune at 1.
  destruct (c =? rBackslash) eqn:B; simpl.
  - exact IH.
  - destruct (c =? rQuote) eqn:Q; simpl.
    + exact IH.
    + rewrite B, Q. exact IH.
Qed.

Lemma spec_unescape_literal p :
  spec_unescape (flat_map literal_rune p) = p.
Proof.
  induction p as [|c p IH]; [reflexivity|].
  simpl. unfold literal_rune at 1.
  destruct (c =? rBackslash) eqn:B; simpl.
  - apply Z.eqb_eq in B. subst c. rewrite IH. reflexivity.
  - destruct (c =? rQuote) eqn:Q; simpl.
    + apply Z.eqb_eq in Q. subst c. rewrite IH. reflexivity.
    + rewrite B, IH. reflexivity.
Qed.

(** X16.  Every text can be written as a string literal: between two
    quotes, with a backslash before each backslash and each quote of the
    text, it is scanned as one Word token whose value is the text, and what
    follows the closing quote stays in the stream. *)
Theorem Scan_string_literal scanner p rest :
  pending (reader scanner) = string_literal p ++ rest ->
  exists tok scanner',
    Scan scanner = ((Some tok, None), scanner')
    /\ tokenType tok = CtkWord
    /\ value tok = p
    /\ err tok = None
    /\ pending (reader scanner') = rest.
Proof.
  unfold string_literal. intros Hp.
  assert (Hp' : pending (reader scanner) =
                rQuote :: flat_map literal_rune p ++ rQuote :: rest)
    by (rewrite Hp; simpl; rewrite <- app_assoc; reflexivity).
  destruct (Scan_quote _ _ Hp') as (scanner1 & P1 & S).
  destruct (scanStringWord_loop_body _ _ [rQuote] _ _ _
              (escape_after_literal p) P1) as (scanner2 & P2 & E2).
  destruct (scanStringWord_loop_quote scanner2
              ([rQuote] ++ flat_map literal_rune p) rest P2)
    as (scanner' & E & P').
  rewrite S, E2, E.
  change (([rQuote] ++ flat_map literal_rune p) ++ [rQuote])
    with (rQuote :: flat_map literal_rune p ++ [rQuote]).
  rewrite processStringWord_quoted, spec_unescape_literal.
  do 2 eexists. split; [reflexivity|]. cbn. auto.
Qed.

Lemma Scan_string_literal_witness :
  exists tok scanner',
    Scan example_literal = ((Some tok, None), scanner')
    /\ tokenType tok = CtkWord
    /\ value tok = runes "a\b" ++ [rQuote] ++ runes "c"
    /\ err tok = None
    /\ pending (reader scanner') = runes " d".
Proof.
  apply (Scan_string_literal example_literal
           (runes "a\b" ++ [rQuote] ++ runes "c") (runes " d")).
  reflexivity.
Defined.

(** ** The position of a rune *)

Lemma since_newline_snoc a y :
  since_newline (a ++ [y]) =
  if y =? rNewline then O else S (since_newline a).
Proof. unfold since_newline. rewrite fold_left_app. reflexivity. Qed.

Lemma since_newline_bound a : (since_newline a <= length a)%nat.
Proof.
  induction a as [|y a IH] using rev_ind; [cbv; lia|].
  rewrite since_newline_snoc, length_app. simpl.
  destruct (y =? rNewline); lia.
Qed.

Lemma since_newline_line a b :
  a = [] \/ (exists a', a = a' ++ [rNewline]) ->
  forallb not_newline b = true ->
  since_newline (a ++ b) = length b.
Proof.
  intros Ha. induction b as [|y b IH] using rev_ind; intros Hb.
  - rewrite app_nil_r. destruct Ha as [->|(a' & ->)]; [reflexivity|].
    rewrite since_newline_snoc. reflexivity.
  - rewrite forallb_app in Hb. apply andb_true_iff in Hb.
    destruct Hb as [Hb Hy]. simpl in Hy. rewrite andb_true_r in Hy.
    unfold not_newline in Hy. apply negb_true_iff in Hy.
    rewrite app_assoc, since_newline_snoc, Hy, (IH Hb), length_app.
    simpl. lia.
Qed.

Lemma count_newlines_snoc a y :
  count_occ Z.eq_dec (a ++ [y]) rNewline =
  (count_occ Z.eq_dec a rNewline + if (y =? rNewline)%Z then 1 else 0)%nat.
Proof.
  rewrite count_occ_app. simpl.
  destruct (Z.eq_dec y rNewline) as [->|N].
  - reflexivity.
  - apply Z.eqb_neq in N. rewrite N. reflexivity.
Qed.

Lemma count_newlines_line b :
  forallb not_newline b = true -> count_occ Z.eq_dec b rNewline = O.
Proof.
  induction b as [|y b IH]; [reflexivity|]. simpl. intros H.
  apply andb_true_iff in H. destruct H as [Hy Hb].
  unfold not_newline in Hy. apply negb_true_iff, Z.eqb_neq in Hy.
  destruct (Z.eq_dec y rNewline); [contradiction|]. exact (IH Hb).
Qed.

Lemma after_reads_S n scanner :
  after_reads (S n) scanner = snd (read (after_reads n scanner)).
Proof. reflexivity. Qed.

Lemma after_reads_prefix input forgets :
  Z.of_nat (length input) + 2 < uint_modulus ->
  forall a x post,
    input = a ++ x :: post ->
    let s := after_reads (S (length a)) (NewConfigScanner input forgets) in
    line (pos s) = 1 + Z.of_nat (count_occ Z.eq_dec a rNewline)
    /\ col (pos s) = 1 + Z.of_nat (since_newline a)
    /\ lastCharLineEnd s = (x =? rNewline)
    /\ lastRune (reader s) = Some x
    /\ pending (reader s) = post.
Proof.
  intros HN a. induction a as [|y a IH] using rev_ind; intros x post Hi.
  - simpl in Hi. subst input. cbv zeta.
    unfold after_reads, NewConfigScanner, read, ReadRune. simpl.
    repeat split.
  - rewrite <- app_assoc in Hi. simpl in Hi.
    specialize (IH y (x :: post) Hi). cbv zeta in IH.
    destruct IH as (Il & Ic & Ie & _ & Ip).
    rewrite length_app. simpl length. rewrite Nat.add_1_r.
    cbv zeta. rewrite after_reads_S.
    set (s0 := after_reads (S (length a)) (NewConfigScanner input forgets)) in *.
    assert (Bl : Z.of_nat (length a) + 2 <= Z.of_nat (length input)).
    { rewrite Hi, length_app. simpl. lia. }
    assert (Bc : (count_occ Z.eq_dec a rNewline <= @length rune a)%nat)
      by exact (count_occ_bound Z.eq_dec rNewline a).
    pose proof (since_newline_bound a) as Bs.
    rewrite count_newlines_snoc, since_newline_snoc.
    unfold read, ReadRune. rewrite Ip. cbn [fst snd]. rewrite Ie.
    destruct (y =? rNewline); cbn [pos line col lastCharLineEnd reader
                                    lastRune pending].
    + rewrite Il.
      rewrite wrap_small by (unfold uint_modulus in *; lia).
      repeat split; lia.
    + rewrite Il, Ic.
      rewrite wrap_small by (unfold uint_modulus in *; lia).
      repeat split; lia.
Qed.

(** X17.  Reading from a new scanner, over an input short enough for the
    counters not to wrap, leaves the scanner at the line and column of the
    rune read last: the line is one more than the number of newlines before
    the rune, the column one more than the number of runes between the last
    of these newlines, or the start of the input, and the rune. *)
Theorem read_position input forgets a b c post :
  Z.of_nat (length input) + 2 < uint_modulus ->
  input = a ++ b ++ c :: post ->
  a = [] \/ (exists a', a = a' ++ [rNewline]) ->
  forallb not_newline b = true ->
  let s := after_reads (S (length a + length b))
             (NewConfigScanner input forgets) in
  pos s = {| line := 1 + Z.of_nat (count_occ Z.eq_dec a rNewline);
             col := 1 + Z.of_nat (length b) |}
  /\ lastRune (reader s) = Some c
  /\ pending (reader s) = post.
Proof.
  intros HN Hi Ha Hb.
  rewrite app_assoc in Hi.
  destruct (after_reads_prefix input forgets HN (a ++ b) c post Hi)
    as (Il & Ic & _ & Ir & Ip).
  rewrite length_app in Il, Ic, Ir, Ip. cbv zeta.
  split; [|split; assumption].
  pose proof (count_newlines_line _ Hb) as Eb.
  pose proof (since_newline_line _ _ Ha Hb) as Es. unfold rune in *.
  rewrite count_occ_app, Eb, Nat.add_0_r in Il.
  rewrite Es in Ic.
  destruct (pos (after_reads (S (length a + length b))
                   (NewConfigScanner input forgets))) as [ln cl].
  simpl in Il, Ic. subst. reflexivity.
Qed.

Lemma read_position_witness :
  pos (after_reads 6 (NewConfigScanner example_three_lines true)) =
    {| line := 3; col := 2 |}
  /\ lastRune (reader (after_reads 6 (NewConfigScanner example_three_lines true)))
     = Some 100
  /\ pending (reader (after_reads 6 (NewConfigScanner example_three_lines true)))
     = runes "e".
Proof.
  apply (read_position example_three_lines true
           (runes "ab" ++ [rNewline] ++ [rNewline]) (runes "c") 100 (runes "e")).
  - reflexivity.
  - reflexivity.
  - right. exists (runes "ab" ++ [rNewline]). reflexivity.
  - reflexivity.
Defined.

(** ** The pushback holds one rune *)

Lemma unread_refused_without_rune scanner :
  lastRune (reader scanner) = None -> unread_is_refused scanner.
Proof.
  destruct scanner as [[pd lr pf] p l llec]. simpl. intros ->.
  reflexivity.
Qed.

(** X18.  The pushback holds one rune and no more: [unread] is refused
    after an [unread], whether that one succeeded or not, after a [read]
    that met the end of the stream, and on a new scanner. *)
Theorem unread_at_most_once scanner :
  unread_is_refused (snd (unread scanner))
  /\ (pending (reader scanner) = [] -> unread_is_refused (snd (read scanner)))
  /\ (forall input forgets,
        unread_is_refused (NewConfigScanner input forgets)).
Proof.
  split; [|split].
  - apply unread_refused_without_rune.
    unfold unread, UnreadRune.
    destruct (lastRune (reader scanner)) eqn:L; simpl; [|exact L].
    destruct ((1 <? line (pos scanner)) && (col (pos scanner) =? 1));
      reflexivity.
  - intros Hp. apply unread_refused_without_rune.
    destruct (read_nil _ Hp) as (_ & _ & L). exact L.
  - intros input forgets. apply unread_refused_without_rune. reflexivity.
Qed.

Lemma unread_at_most_once_witness :
  unread_is_refused (snd (read example_empty)).
Proof.
  apply (proj1 (proj2 (unread_at_most_once example_empty))). reflexivity.
Defined.

(** ** Values and the input *)

Lemma unread_exit_verbatim scanner c (buffer buffer' : list rune) scanner' :
  lastRune (reader scanner) = Some c ->
  match unread scanner with
  | (Some e, scanner2) => Return e scanner2
  | (None, scanner2) => Break buffer scanner2
  end = Break buffer' scanner' ->
  buffer' = buffer /\ pending (reader scanner') = c :: pending (reader scanner).
Proof.
  intros L. destruct (unread_last _ _ L) as (U & PU & _). rewrite U.
  intros H. inversion H; subst. auto.
Qed.

Lemma scanWord_loop_verbatim l :
  forall scanner buffer buffer' scanner',
    pending (reader scanner) = l ->
    scanWord_loop scanner buffer = Break buffer' scanner' ->
    buffer' ++ pending (reader scanner') = buffer ++ l.
Proof.
  induction l as [|c l IH]; intros scanner buffer buffer' scanner' Hp H;
    rewrite scanWord_loop_eq in H.
  - destruct (read_nil _ Hp) as (R & P & _). rewrite R in H.
    inversion H; subst. rewrite P. reflexivity.
  - destruct (read_cons _ _ _ Hp) as (R & P & L). rewrite R in H.
    destruct (IsSpace c).
    + destruct (unread_exit_verbatim _ _ _ _ _ L H) as (-> & ->).
      rewrite P. reflexivity.
    + rewrite (IH _ _ _ _ P H), <- app_assoc. reflexivity.
Qed.

Lemma scanToEndOfLine_loop_verbatim l :
  forall scanner buffer buffer' scanner',
    pending (reader scanner) = l ->
    scanToEndOfLine_loop scanner buffer = Break buffer' scanner' ->
    buffer' ++ pending (reader scanner') = buffer ++ l.
Proof.
  induction l as [|c l IH]; intros scanner buffer buffer' scanner' Hp H;
    rewrite scanToEndOfLine_loop_eq in H.
  - destruct (read_nil _ Hp) as (R & P & _). rewrite R in H.
    inversion H; subst. rewrite P. reflexivity.
  - destruct (read_cons _ _ _ Hp) as (R & P & L). rewrite R in H.
    destruct (c =? rNewline).
    + destruct (unread_exit_verbatim _ _ _ _ _ L H) as (-> & ->).
      rewrite P. reflexivity.
    + rewrite (IH _ _ _ _ P H), <- app_assoc. reflexivity.
Qed.

Lemma scanWord_verbatim scanner tok e scanner' :
  scanWord scanner = ((Some tok, e), scanner') ->
  value tok ++ pending (reader scanner') = pending (reader scanner).
Proof.
  unfold scanWord. destruct (scanWord_loop scanner []) eqn:L;
    intros H; inversion H; subst. simpl.
  exact (scanWord_loop_verbatim _ _ _ _ _ eq_refl L).
Qed.

Lemma scanToEndOfLine_verbatim scanner ty tok e scanner' :
  scanToEndOfLine scanner ty = ((Some tok, e), scanner') ->
  value tok ++ pending (reader scanner') = pending (reader scanner).
Proof.
  unfold scanToEndOfLine. destruct (scanToEndOfLine_loop scanner []) eqn:L;
    intros H; inversion H; subst. simpl.
  exact (scanToEndOfLine_loop_verbatim _ _ _ _ _ eq_refl L).
Qed.

(** X19.  Tokens other than white space and decoded strings are cut out of
    the input as it is: the value of an EOF, Terminator, Comment,
    ShellCommand, Option or Invalid token, and of a Word that does not
    start at a quote, followed by what is left to read, is what was there
    to read before the call. *)
Theorem Scan_value_verbatim scanner tok e scanner' :
  Scan scanner = ((Some tok, e), scanner') ->
  tokenType tok <> CtkWhiteSpace ->
  (forall tail,
     pending (reader scanner) = rQuote :: tail -> tokenType tok = CtkInvalid) ->
  value tok ++ pending (reader scanner') = pending (reader scanner).
Proof.
  intros H Hws Hq.
  destruct (pending (reader scanner)) as [|c tail] eqn:Hp.
  { destruct (Scan_at_eof _ Hp) as (S & P). rewrite S in H.
    inversion H; subst. simpl. exact P. }
  destruct (Z.eq_dec c rQuote) as [->|Nq].
  { specialize (Hq tail eq_refl).
    destruct (Scan_quote _ _ Hp) as (scanner1 & P1 & S). rewrite S in H.
    destruct (escape_after false tail) as [b|] eqn:E.
    - rewrite <- (app_nil_r tail) in P1.
      destruct (scanStringWord_loop_body _ _ [rQuote] _ _ _ E P1)
        as (scanner2 & P2 & E2).
      destruct (scanStringWord_loop_eof scanner2 ([rQuote] ++ tail) b P2)
        as (s3 & E3 & P3).
      rewrite E2, E3 in H. inversion H; subst. simpl.
      rewrite P3, app_nil_r. reflexivity.
    - destruct (escape_after_None _ _ E) as (mid & rest & Ht & Em).
      rewrite Ht in P1.
      destruct (scanStringWord_loop_body _ _ [rQuote] _ _ _ Em P1)
        as (scanner2 & P2 & E2).
      destruct (scanStringWord_loop_quote scanner2 ([rQuote] ++ mid) rest P2)
        as (s3 & E3 & P3).
      rewrite E2, E3 in H.
      change (([rQuote] ++ mid) ++ [rQuote])
        with (rQuote :: mid ++ [rQuote]) in H.
      rewrite processStringWord_quoted in H. inversion H; subst.
      simpl in Hq. discriminate Hq. }
  clear Hq.
  destruct (read_cons _ _ _ Hp) as (R & P & _).
  destruct (unread_after_read _ _ _ Hp) as (U & PU).
  set (scanner1 := snd (read scanner)) in *.
  set (scanner0 := snd (unread scanner1)) in *.
  unfold Scan in H. rewrite R in H. cbv beta iota zeta in H.
  fold scanner1 in H.
  apply Z.eqb_neq in Nq.
  assert (K : forall res : ScanResult,
    (forall t e1 s1, res = ((Some t, e1), s1) ->
       tokenType t <> CtkWhiteSpace ->
       value t ++ pending (reader s1) = c :: tail) ->
    (let '(token, e', scanner'0) := res in
     (option_map (with_startPos (pos scanner1)) token, e', scanner'0))
      = (Some tok, e, scanner') ->
    value tok ++ pending (reader scanner') = c :: tail).
  { intros [[[t|] e1] s1] Hres E; inversion E; subst.
    exact (Hres _ _ _ eq_refl Hws). }
  revert H. apply K. intros t e1 s1.
  destruct (c =? rNewline).
  { intros H _. injection H as <- <- <-. simpl. rewrite P.
    reflexivity. }
  destruct (IsSpace c).
  { unfold after_unread. rewrite U. intros H N.
    apply scanWhiteSpace_token in H. tauto. }
  assert (Word : scanWord scanner0 = ((Some t, e1), s1) ->
                 value t ++ pending (reader s1) = c :: tail).
  { intros H. rewrite (scanWord_verbatim _ _ _ _ H). exact PU. }
  assert (Eol : forall ty, scanToEndOfLine scanner0 ty = ((Some t, e1), s1) ->
                 value t ++ pending (reader s1) = c :: tail).
  { intros ty H. rewrite (scanToEndOfLine_verbatim _ _ _ _ _ H). exact PU. }
  destruct (c =? rHash).
  { unfold after_unread. rewrite U. intros H _. exact (Eol _ H). }
  destruct ((c =? rBang) || (c =? rAt)).
  { unfold after_unread. rewrite U. intros H _. exact (Eol _ H). }
  destruct (c =? rDash) eqn:D.
  { set (scanner2 := with_reader scanner1 (snd (Peek (reader scanner1) 1))) in *.
    destruct (snd (fst (Peek (reader scanner1) 1))); [intros H; inversion H|].
    destruct ((length (fst (fst (Peek (reader scanner1) 1))) =? 1)%nat
              && (nth 0 (fst (fst (Peek (reader scanner1) 1))) 0 =? rDash)).
    - destruct (scanWord scanner2) as [[[t0|] e3] s3] eqn:W;
        [|intros H; inversion H].
      pose proof (scanWord_verbatim _ _ _ _ W) as V.
      apply Z.eqb_eq in D. subst c.
      assert (P2 : pending (reader scanner2) = tail) by exact P.
      rewrite P2 in V.
      apply scanWord_token in W. destruct W as (Hk & _). rewrite Hk.
      intros H _. injection H as <- <- <-. simpl. rewrite V. reflexivity.
    - unfold after_unread.
      destruct (unread scanner2) as [[e0|] scanner3] eqn:U2;
        [intros H; inversion H|].
      apply unread_after_Peek_succeeds in U2. fold scanner1 in U2.
      rewrite U in U2. inversion U2. intros H _. exact (Word H). }
  rewrite Nq. unfold after_unread. rewrite U. intros H _. exact (Word H).
Qed.

Lemma Scan_value_verbatim_witness :
  value example_comment_token ++ pending (reader (after_Scan example_comment)) =
  pending (reader example_comment).
Proof.
  apply (Scan_value_verbatim example_comment example_comment_token None
           (after_Scan example_comment)).
  - vm_compute. reflexivity.
  - discriminate.
  - intros tail H. discriminate H.
Defined.

(** ** The first token and the token after a newline *)

(** X20.  The first token of a scan starts at line 1, column 1, the EOF
    token of an empty input included; a Terminator is one rune wide, and
    the token after it, when it is not EOF, starts in column 1 of the next
    line. *)
Theorem Scan_line_starts scanner tok e scanner' :
  Scan scanner = ((Some tok, e), scanner') ->
  ((exists input forgets, scanner = NewConfigScanner input forgets) ->
   startPos tok = {| line := 1; col := 1 |})
  /\ (tokenType tok = CtkTerminator ->
      startPos tok = endPos tok
      /\ value tok = [rNewline]
      /\ forall tok2 e2 scanner2,
           Scan scanner' = ((Some tok2, e2), scanner2) ->
           tokenType tok2 <> CtkEOF ->
           startPos tok2 =
             {| line := wrap (line (endPos tok) + 1); col := 1 |}).
Proof.
  intros H. split.
  - intros (input & forgets & ->).
    destruct (Scan_token _ _ _ _ H) as (_ & Hs & _). rewrite Hs.
    unfold NewConfigScanner, read, ReadRune. simpl.
    destruct input; reflexivity.
  - intros Ht.
    destruct (pending (reader scanner)) as [|c tail] eqn:Hp.
    { destruct (Scan_at_eof _ Hp) as (S & _). rewrite S in H.
      inversion H; subst. discriminate Ht. }
    destruct (c =? rNewline) eqn:N.
    + apply Z.eqb_eq in N. subst c.
      destruct (read_cons _ _ _ Hp) as (R & P & _).
      unfold Scan in H. rewrite R in H. cbv beta iota zeta in H.
      change (rNewline =? rNewline) with true in H. cbv beta iota in H.
      cbn [option_map with_startPos tokenType value startPos endPos err] in H.
      inversion H; subst. simpl. split; [reflexivity|]. split; [reflexivity|].
      intros tok2 e2 scanner2 H2 N2.
      destruct (Scan_token _ _ _ _ H2) as (_ & Hs & _ & Hk).
      rewrite Hs.
      destruct (pending (reader (snd (read scanner)))) as [|d rest] eqn:P2.
      { exfalso. apply N2. apply Hk. reflexivity. }
      unfold read at 1, ReadRune. rewrite P2. simpl.
      replace (lastCharLineEnd (snd (read scanner))) with true; [reflexivity|].
      unfold read, ReadRune. rewrite Hp. simpl.
      destruct (lastCharLineEnd scanner); reflexivity.
    + exfalso.
      destruct (read_cons _ _ _ Hp) as (R & _ & _).
      unfold Scan in H. rewrite R in H. cbv beta iota zeta in H.
      rewrite N in H.
      assert (K : forall res : ScanResult,
        (forall t e1 s1, res = ((Some t, e1), s1) ->
           tokenType t <> CtkTerminator) ->
        (let '(token, e', scanner'0) := res in
         (option_map (with_startPos (pos (snd (read scanner)))) token, e',
          scanner'0)) = (Some tok, e, scanner') ->
        False).
      { intros [[[t|] e1] s1] Hres E; inversion E; subst.
        exact (Hres _ _ _ eq_refl Ht). }
      revert H. apply K. intros t e1 s1 H.
      assert (F : In (tokenType t)
                    [CtkWhiteSpace; CtkComment; CtkShellCommand; CtkWord;
                     CtkOption; CtkInvalid]);
        [|simpl in F; intros E; rewrite E in F;
          repeat (destruct F as [F|F]; [discriminate F|]); exact F].
      destruct (IsSpace c).
      { apply after_unread_token in H. destruct H as [s0 H].
        apply scanWhiteSpace_token in H. destruct H as (-> & _). simpl. tauto. }
      destruct (c =? rHash).
      { apply after_unread_token in H. destruct H as [s0 H].
        apply scanToEndOfLine_token in H. destruct H as (-> & _). simpl. tauto. }
      destruct ((c =? rBang) || (c =? rAt)).
      { apply after_unread_token in H. destruct H as [s0 H].
        apply scanToEndOfLine_token in H. destruct H as (-> & _). simpl. tauto. }
      destruct (c =? rDash).
      { destruct (snd (fst (Peek (reader (snd (read scanner))) 1)));
          [inversion H|].
        destruct ((length (fst (fst (Peek (reader (snd (read scanner))) 1)))
                   =? 1)%nat
                  && (nth 0 (fst (fst (Peek (reader (snd (read scanner))) 1))) 0
                      =? rDash)).
        - destruct (scanWord (with_reader (snd (read scanner))
                      (snd (Peek (reader (snd (read scanner))) 1))))
            as [[[t0|] e3] s3] eqn:W; [|inversion H].
          apply scanWord_token in W. destruct W as (Hk & _).
          rewrite Hk in H. simpl in H. inversion H; subst. simpl. tauto.
        - apply after_unread_token in H. destruct H as [s0 H].
          apply scanWord_token in H. destruct H as (-> & _). simpl. tauto. }
      destruct (c =? rQuote).
      { apply after_unread_token in H. destruct H as [s0 H].
        apply scanStringWord_token in H. destruct H as ([-> | ->] & _);
          simpl; tauto. }
      apply after_unread_token in H. destruct H as [s0 H].
      apply scanWord_token in H. destruct H as (-> & _). simpl. tauto.
Qed.

Lemma Scan_line_starts_witness :
  startPos example_comment_token = {| line := 1; col := 1 |}.
Proof.
  apply (proj1 (Scan_line_starts example_comment example_comment_token None
                  (after_Scan example_comment)
                  ltac:(vm_compute; reflexivity))).
  exists (runes "# comment" ++ [rNewline]), true. reflexivity.
Defined.
